(** * NanoGUI: the Screen event dispatcher and the input routing registry

    A shallow embedding of [src/screen.cpp] (class [Screen]) and of the
    callback registry [WindowHandlerConstants] (declared in
    [include/nanogui/common.h]), together with the properties of focus
    handling, event dispatch and window stacking. *)

From Stdlib Require Import String.
From Stdlib Require Import List Arith Bool Lia ZArith Permutation SpecFloat.
Import ListNotations.

(* ===================================================================== *)
(** * Part I. The model                                                   *)
(* ===================================================================== *)

(** ** Widget objects

    A [Widget *] is modelled as a reference into a heap of widget objects;
    [nullptr] is [None] of [option WidgetRef]. *)

Abbreviation WidgetRef := nat (only parsing).

(** The dynamic type of a widget, as far as [dynamic_cast<Window *>] and
    [dynamic_cast<Popup *>] can tell.  [Popup] derives from [Window]
    ([moveWindowToFront] passes a [Popup *] where a [Window *] is
    expected), so a popup carries the window's [modal] flag too. *)
Inductive WidgetClass : Type :=
| PlainWidget
| WindowWidget (modal : bool)
| PopupWidget (modal : bool) (parentWindow : option WidgetRef).

Inductive Cursor : Type :=
| Arrow | IBeam | Crosshair | Hand | HResize | VResize.

Definition Cursor_eqb (a b : Cursor) : bool :=
  match a, b with
  | Arrow, Arrow | IBeam, IBeam | Crosshair, Crosshair
  | Hand, Hand | HResize, HResize | VResize, VResize => true
  | _, _ => false
  end.

(** The members of a widget object the screen relies on.  The screen is
    a widget itself; its own [mChildren] and [mSize] are kept in the
    [Screen] record below. *)
Record Widget : Type := mkWidget {
  mParent : option WidgetRef;
  wPos : Z * Z;
  wSize : Z * Z;
  mFocused : bool;
  wCursor : Cursor;
  wClass : WidgetClass
}.

Definition Heap := WidgetRef -> Widget.

(** [dynamic_cast<Window *>(w)]: succeeds on windows and popups and gives
    access to [modal()]. *)
Definition dynamic_cast_Window (h : Heap) (w : WidgetRef) : option bool :=
  match wClass (h w) with
  | PlainWidget => None
  | WindowWidget m => Some m
  | PopupWidget m _ => Some m
  end.

(** [dynamic_cast<Popup *>(w)]: succeeds on popups and gives access to
    [parentWindow()]. *)
Definition dynamic_cast_Popup (h : Heap) (w : WidgetRef)
  : option (option WidgetRef) :=
  match wClass (h w) with
  | PopupWidget _ pw => Some pw
  | _ => None
  end.

(** The owner of a popup: the flat back-reference [parentWindow()]. *)
Definition popupOwner (h : Heap) (w : WidgetRef) : option WidgetRef :=
  match dynamic_cast_Popup h w with
  | Some pw => pw
  | None => None
  end.


(** ** Numbers

    [int] is a 32-bit two's complement integer, kept as a [Z] in range;
    arithmetic wraps around.  [double] and [float] are IEEE 754 binary64
    and binary32 values in the inductive form of [SpecFloat]. *)

Definition INT_MIN : Z := - 2 ^ 31.
Definition INT_MAX : Z := 2 ^ 31 - 1.

Definition wrap_int (z : Z) : Z := (z + 2 ^ 31) mod 2 ^ 32 - 2 ^ 31.

Definition double := spec_float.
Definition float := spec_float.

(** The conversion [(int) x] of a floating-point value: truncation
    toward zero; undefined ([None]) for NaN, infinities and values out of
    the range of [int]. *)
Definition float_to_int (x : spec_float) : option Z :=
  match x with
  | S754_zero _ => Some 0%Z
  | S754_finite sign m e =>
      let v := cond_Zopp sign (Z.shiftl (Zpos m) e) in
      if ((INT_MIN <=? v) && (v <=? INT_MAX))%Z then Some v else None
  | _ => None
  end.

(** The conversion of a [double] to [float]: rounding to nearest even. *)
Definition double_to_float (x : double) : float :=
  match x with
  | S754_finite sign m e => binary_round 24 128 sign m e
  | _ => x
  end.

(** [Eigen::Vector2i] and [Eigen::Vector2f]. *)
Definition Vector2i : Type := Z * Z.
Definition Vector2f : Type := float * float.

Definition Vector2i_sub (a b : Vector2i) : Vector2i :=
  (wrap_int (fst a - fst b), wrap_int (snd a - snd b)).

Definition Vector2i_eqb (a b : Vector2i) : bool :=
  ((fst a =? fst b) && (snd a =? snd b))%Z.

(** Integer division of one coefficient; undefined for a zero divisor
    and for [INT_MIN / -1]. *)
Definition int_div (a k : Z) : option Z :=
  if (k =? 0)%Z then None
  else if ((a =? INT_MIN) && (k =? -1))%Z then None
  else Some (Z.quot a k).

(** [v /= r] for a [Vector2i] [v] and a [float] [r]: the scalar of an
    integer vector is [int], so [r] is converted to [int] first. *)
Definition Vector2i_div (v : Vector2i) (r : float) : option Vector2i :=
  match float_to_int r with
  | None => None
  | Some k =>
      match int_div (fst v) k, int_div (snd v) k with
      | Some a, Some b => Some (a, b)
      | _, _ => None
      end
  end.

(** ** Exceptions

    What a callback or a handler can throw: something derived from
    [std::exception], with its [what()], or anything else. *)
Inductive exn : Type :=
| std_exception (what : string)
| other_exception.

(** ** The input routing registry: [WindowHandlerConstants]

    The seven callback lists have the same three operations; they differ
    in the argument tuple only.  A callback returns nothing: what it does
    is a change of the world [W] it closes over, unless it throws.  The
    world does not hold the registry itself: callbacks that add or remove
    callbacks while a handler iterates are left out. *)

Module Registry.

Inductive Result (W : Type) : Type :=
| Done (w : W)
| Raised (e : exn) (w : W).

Arguments Done {W} w.
Arguments Raised {W} e w.

Section Category.

Variable Args : Type.
Variable W : Type.

Definition Callback : Type := Args -> W -> Result W.

(** [std::vector<std::pair<int, std::function<void(Args...)>>>]. *)
Definition Callbacks : Type := list (Z * Callback).

(** [addXCallback]: [push_back(std::make_pair(id, callback))]. *)
Definition addCallback (id : Z) (callback : Callback) (l : Callbacks)
  : Callbacks :=
  l ++ [(id, callback)].

(** [removeXCallback]: [std::find_if] for the first element whose [first]
    is [id], erased when found. *)
Fixpoint removeCallback (id : Z) (l : Callbacks) : Callbacks :=
  match l with
  | [] => []
  | element :: rest =>
      if (fst element =? id)%Z then rest
      else element :: removeCallback id rest
  end.

(** [handleXEvent]: the range-[for] over the list, calling the entries
    whose [first] is [screenId].  Nothing is caught: an exception ends
    the loop and leaves the handler. *)
Fixpoint handleEvent (screenId : Z) (args : Args) (l : Callbacks) (w : W)
  : Result W :=
  match l with
  | [] => Done w
  | callback :: rest =>
      if (fst callback =? screenId)%Z then
        match snd callback args w with
        | Done w' => handleEvent screenId args rest w'
        | Raised e w' => Raised e w'
        end
      else handleEvent screenId args rest w
  end.

(** The callbacks stored under [id], in list order. *)
Definition under (id : Z) (l : Callbacks) : list Callback :=
  map snd (filter (fun e => (fst e =? id)%Z) l).

(** A registry operation. *)
Inductive Op : Type :=
| Add (id : Z) (callback : Callback)
| Remove (id : Z).

Definition apply_op (l : Callbacks) (op : Op) : Callbacks :=
  match op with
  | Add id callback => addCallback id callback l
  | Remove id => removeCallback id l
  end.

Definition apply_ops (ops : list Op) (l : Callbacks) : Callbacks :=
  fold_left apply_op ops l.

(** The specification's view, for one screen id on its own: the
    callbacks currently registered under [id], in insertion order.  An
    add under [id] appends; a remove under [id] drops the oldest one, if
    any; operations under other ids do not matter. *)
Definition registered_step (id : Z) (cbs : list Callback) (op : Op)
  : list Callback :=
  match op with
  | Add id' callback => if (id' =? id)%Z then cbs ++ [callback] else cbs
  | Remove id' => if (id' =? id)%Z then tl cbs else cbs
  end.

Definition registered (id : Z) (ops : list Op) : list Callback :=
  fold_left (registered_step id) ops [].

(** Calling a list of callbacks in order with the same arguments, up
    to the first one that throws. *)
Fixpoint invoke_all (args : Args) (cbs : list Callback) (w : W) : Result W :=
  match cbs with
  | [] => Done w
  | cb :: rest =>
      match cb args w with
      | Done w' => invoke_all args rest w'
      | Raised e w' => Raised e w'
      end
  end.

End Category.

Arguments addCallback {Args W} id callback l.
Arguments removeCallback {Args W} id l.
Arguments handleEvent {Args W} screenId args l w.
Arguments Add {Args W} id callback.
Arguments Remove {Args W} id.
Arguments apply_op {Args W} l op.
Arguments apply_ops {Args W} ops l.
Arguments registered {Args W} id ops.
Arguments registered_step {Args W} id cbs op.
Arguments invoke_all {Args W} args cbs w.
Arguments under {Args W} id l.

(** The categories whose handler has the parameter types of its
    callbacks pass the arguments on as they are. *)
Definition handleCursorPosEvent {W} (screenId : Z) (x y : double)
  : Callbacks (double * double) W -> W -> Result W :=
  handleEvent screenId (x, y).

Definition handleMouseButtonEvent {W} (screenId button action modifiers : Z)
  : Callbacks (Z * Z * Z) W -> W -> Result W :=
  handleEvent screenId (button, action, modifiers).

Definition handleKeyEvent {W} (screenId key scancode action mods : Z)
  : Callbacks (Z * Z * Z * Z) W -> W -> Result W :=
  handleEvent screenId (key, scancode, action, mods).

Definition handleUnicodeEvent {W} (screenId codepoint : Z)
  : Callbacks Z W -> W -> Result W :=
  handleEvent screenId codepoint.

Definition handleDropEvent {W} (screenId count : Z) (filenames : list string)
  : Callbacks (Z * list string) W -> W -> Result W :=
  handleEvent screenId (count, filenames).

Definition handleScrollEvent {W} (screenId : Z) (x y : double)
  : Callbacks (double * double) W -> W -> Result W :=
  handleEvent screenId (x, y).

(** [handleFramebufferSizeEvent] takes three [double]s while its
    callbacks take [(int, int, float)]: every call converts them.  The
    conversion to [int] is undefined out of range. *)
Definition handleFramebufferSizeEvent {W} (screenId : Z) (x y : double)
    (pixelRatio : double) (l : Callbacks (Z * Z * float) W) (w : W)
  : option (Result W) :=
  if existsb (fun callback => (fst callback =? screenId)%Z) l then
    match float_to_int x, float_to_int y with
    | Some ix, Some iy =>
        Some (handleEvent screenId (ix, iy, double_to_float pixelRatio) l w)
    | _, _ => None
    end
  else Some (Done w).

End Registry.


(** ** Window stacking: [Screen::moveWindowToFront] *)

Module Stacking.

(** [mChildren.erase(std::remove(begin, end, window), end)]: every
    occurrence of [window] is dropped, the rest keeps its order. *)
Definition erase (window : WidgetRef) (children : list WidgetRef)
  : list WidgetRef :=
  filter (fun x => negb (x =? window)) children.

(** The first [for] loop of the [do] body: the index of the last
    occurrence of [window], or the initial [0]. *)
Fixpoint find_baseIndex (window : WidgetRef) (children : list WidgetRef)
    (index baseIndex : nat) : nat :=
  match children with
  | [] => baseIndex
  | x :: rest =>
      find_baseIndex window rest (S index)
        (if x =? window then index else baseIndex)
  end.

(** [pw && pw->parentWindow() == window]. *)
Definition is_popup_of (h : Heap) (window x : WidgetRef) : bool :=
  match dynamic_cast_Popup h x with
  | Some (Some o) => o =? window
  | _ => false
  end.

(** The second [for] loop: the first child that is a popup of [window]
    and sits below [baseIndex]. *)
Fixpoint scan_popup (h : Heap) (window : WidgetRef) (baseIndex : nat)
    (children : list WidgetRef) (index : nat) : option WidgetRef :=
  match children with
  | [] => None
  | x :: rest =>
      if is_popup_of h window x && (index <? baseIndex)
      then Some x
      else scan_popup h window baseIndex rest (S index)
  end.

(** The [do ... while (changed)] loop.  [rec] is the recursive call
    [moveWindowToFront(pw)]; [n] bounds the number of iterations. *)
Fixpoint rescan (h : Heap)
    (rec : WidgetRef -> list WidgetRef -> option (list WidgetRef))
    (n : nat) (window : WidgetRef) (children : list WidgetRef)
  : option (list WidgetRef) :=
  match n with
  | 0 => None
  | S n' =>
      let baseIndex := find_baseIndex window children 0 0 in
      match scan_popup h window baseIndex children 0 with
      | None => Some children
      | Some pw =>
          match rec pw children with
          | None => None
          | Some children' => rescan h rec n' window children'
          end
      end
  end.

(** [Screen::moveWindowToFront].  The function recurses on popups and
    loops until a scan finds nothing to move; neither is bounded in the
    source, so the model takes fuel and answers [None] when it runs out. *)
Fixpoint moveWindowToFront (h : Heap) (fuel : nat) (window : WidgetRef)
    (children : list WidgetRef) : option (list WidgetRef) :=
  match fuel with
  | 0 => None
  | S f =>
      rescan h (moveWindowToFront h f) f window
        (erase window children ++ [window])
  end.

(** A sequence of calls, left to right. *)
Fixpoint moveWindowsToFront (h : Heap) (fuel : nat)
    (windows : list WidgetRef) (children : list WidgetRef)
  : option (list WidgetRef) :=
  match windows with
  | [] => Some children
  | w :: ws =>
      match moveWindowToFront h fuel w children with
      | None => None
      | Some children' => moveWindowsToFront h fuel ws children'
      end
  end.

(** Popups paint above their owner: whenever popup [p] sits at index [i]
    and its owner [o] at index [j], then [j < i]. *)
Definition popups_above_owner (h : Heap) (children : list WidgetRef) : Prop :=
  forall i j p o,
    nth_error children i = Some p ->
    nth_error children j = Some o ->
    popupOwner h p = Some o ->
    j < i.

(** [owned_by h w p]: [p] is a popup of [w], or a popup of a popup of
    [w], and so on. *)
Inductive owned_by (h : Heap) (w : WidgetRef) : WidgetRef -> Prop :=
| owned_direct : forall p, popupOwner h p = Some w -> owned_by h w p
| owned_nested : forall p o,
    popupOwner h p = Some o -> owned_by h w o -> owned_by h w p.

End Stacking.

(** ** The screen *)

(** The part of [WindowHandlerConstants] the screen reads: the four
    codes used by the mouse-button callback and the time callback.  The
    time callback is a [std::function<double()>]: it may be empty, and
    when it is called it returns a [double] or throws. *)
Record WindowHandlerConstants : Type := mkConstants {
  mPrimaryMouseButton : Z;
  mSecondaryMouseButton : Z;
  mMousePress : Z;
  mMouseRelease : Z;
  getTimeCallback : option (unit -> exn + double)
}.

(** [WindowHandlerConstants::getTime]: it throws when the callback is
    empty, and otherwise ends as the callback does. *)
Definition getTime (c : WindowHandlerConstants) : exn + double :=
  match getTimeCallback c with
  | None => inl (std_exception "getTimeCallback not initialized")
  | Some callback => callback tt
  end.

Record Screen : Type := mkScreen {
  this : WidgetRef;
  heap : Heap;
  mChildren : list WidgetRef;
  mFocusPath : list WidgetRef;
  mSize : Vector2i;
  mPixelRatio : float;
  mMousePos : Vector2i;
  mMouseState : Z;
  mModifiers : Z;
  mDragActive : bool;
  mDragWidget : option WidgetRef;
  mLastInteraction : double;
  mCursor : Cursor
}.

Definition set_heap (v : Heap) (s : Screen) : Screen :=
  mkScreen (this s) v (mChildren s) (mFocusPath s) (mSize s) (mPixelRatio s)
    (mMousePos s) (mMouseState s) (mModifiers s) (mDragActive s)
    (mDragWidget s) (mLastInteraction s) (mCursor s).
Definition set_mChildren (v : list WidgetRef) (s : Screen) : Screen :=
  mkScreen (this s) (heap s) v (mFocusPath s) (mSize s) (mPixelRatio s)
    (mMousePos s) (mMouseState s) (mModifiers s) (mDragActive s)
    (mDragWidget s) (mLastInteraction s) (mCursor s).
Definition set_mFocusPath (v : list WidgetRef) (s : Screen) : Screen :=
  mkScreen (this s) (heap s) (mChildren s) v (mSize s) (mPixelRatio s)
    (mMousePos s) (mMouseState s) (mModifiers s) (mDragActive s)
    (mDragWidget s) (mLastInteraction s) (mCursor s).
Definition set_mSize (v : Vector2i) (s : Screen) : Screen :=
  mkScreen (this s) (heap s) (mChildren s) (mFocusPath s) v (mPixelRatio s)
    (mMousePos s) (mMouseState s) (mModifiers s) (mDragActive s)
    (mDragWidget s) (mLastInteraction s) (mCursor s).
Definition set_mPixelRatio (v : float) (s : Screen) : Screen :=
  mkScreen (this s) (heap s) (mChildren s) (mFocusPath s) (mSize s) v
    (mMousePos s) (mMouseState s) (mModifiers s) (mDragActive s)
    (mDragWidget s) (mLastInteraction s) (mCursor s).
Definition set_mMousePos (v : Vector2i) (s : Screen) : Screen :=
  mkScreen (this s) (heap s) (mChildren s) (mFocusPath s) (mSize s)
    (mPixelRatio s) v (mMouseState s) (mModifiers s) (mDragActive s)
    (mDragWidget s) (mLastInteraction s) (mCursor s).
Definition set_mMouseState (v : Z) (s : Screen) : Screen :=
  mkScreen (this s) (heap s) (mChildren s) (mFocusPath s) (mSize s)
    (mPixelRatio s) (mMousePos s) v (mModifiers s) (mDragActive s)
    (mDragWidget s) (mLastInteraction s) (mCursor s).
Definition set_mModifiers (v : Z) (s : Screen) : Screen :=
  mkScreen (this s) (heap s) (mChildren s) (mFocusPath s) (mSize s)
    (mPixelRatio s) (mMousePos s) (mMouseState s) v (mDragActive s)
    (mDragWidget s) (mLastInteraction s) (mCursor s).
Definition set_mDragActive (v : bool) (s : Screen) : Screen :=
  mkScreen (this s) (heap s) (mChildren s) (mFocusPath s) (mSize s)
    (mPixelRatio s) (mMousePos s) (mMouseState s) (mModifiers s) v
    (mDragWidget s) (mLastInteraction s) (mCursor s).
Definition set_mDragWidget (v : option WidgetRef) (s : Screen) : Screen :=
  mkScreen (this s) (heap s) (mChildren s) (mFocusPath s) (mSize s)
    (mPixelRatio s) (mMousePos s) (mMouseState s) (mModifiers s)
    (mDragActive s) v (mLastInteraction s) (mCursor s).
Definition set_mLastInteraction (v : double) (s : Screen) : Screen :=
  mkScreen (this s) (heap s) (mChildren s) (mFocusPath s) (mSize s)
    (mPixelRatio s) (mMousePos s) (mMouseState s) (mModifiers s)
    (mDragActive s) (mDragWidget s) v (mCursor s).
Definition set_mCursor (v : Cursor) (s : Screen) : Screen :=
  mkScreen (this s) (heap s) (mChildren s) (mFocusPath s) (mSize s)
    (mPixelRatio s) (mMousePos s) (mMouseState s) (mModifiers s)
    (mDragActive s) (mDragWidget s) (mLastInteraction s) v.

(** An event handed to a widget's virtual handler, with its recipient
    and arguments.  Events without a recipient go to the screen's own
    base-class handler, which walks the widget tree. *)
Inductive Event : Type :=
| MouseDragEvent (w : WidgetRef) (p rel : Vector2i) (button modifiers : Z)
| MouseMotionEvent (p rel : Vector2i) (button modifiers : Z)
| MouseButtonEvent (w : WidgetRef) (p : Vector2i) (button : Z) (down : bool)
    (modifiers : Z)
| KeyboardEvent (w : WidgetRef) (key scancode action modifiers : Z)
| KeyboardCharacterEvent (w : WidgetRef) (codepoint : Z)
| DropEvent (filenames : list string)
| ScrollEvent (p : Vector2i) (rel : Vector2f)
| ResizeEvent (size : Vector2i)
| FocusEvent (w : WidgetRef) (focused : bool).

(** What a virtual handler does: it returns its [bool] or throws, and
    leaves the screen in some state. *)
Inductive HandlerResult : Type :=
| Returns (handled : bool) (s : Screen)
| Throws (e : exn) (s : Screen).

(** The widget tree as the screen sees it: the classes [Widget],
    [Window] and [Popup] are not part of [screen.cpp], so their queries
    and virtual handlers are taken as given. *)
Record WidgetTree : Type := mkWidgetTree {
  (** [Widget::findWidget] on the screen: a query on the widget objects,
      the screen's address, children and size. *)
  findWidget_at :
    Heap -> WidgetRef -> list WidgetRef -> Vector2i -> Vector2i ->
    option WidgetRef;
  (** [Widget::contains] and [Widget::absolutePosition]: queries on the
      widget objects. *)
  contains : Heap -> WidgetRef -> Vector2i -> bool;
  absolutePosition : Heap -> WidgetRef -> Vector2i;
  (** The virtual event handlers. *)
  deliver : Event -> Screen -> HandlerResult
}.

(** [findWidget(p)], called on the screen. *)
Definition findWidget (tr : WidgetTree) (s : Screen) (p : Vector2i)
  : option WidgetRef :=
  findWidget_at tr (heap s) (this s) (mChildren s) (mSize s) p.

(** The build and its collaborators.  [scaled] says whether the build is
    one for [_WIN32] or [__linux__], where coordinates are divided by the
    pixel ratio. *)
Record Env : Type := mkEnv {
  constants : WindowHandlerConstants;
  scaled : bool;
  tree : WidgetTree
}.

(** The log of deliveries: each event with the screen state its handler
    was entered with. *)
Definition Trace : Type := list (Event * Screen).

(** How a member function of the screen ends. *)
Inductive Outcome (A : Type) : Type :=
| Return (a : A) (s : Screen) (t : Trace)
| Propagate (e : exn) (s : Screen) (t : Trace)
| Abort (diagnostic : string) (s : Screen) (t : Trace)
| Undefined
| OutOfFuel.

Arguments Return {A} a s t.
Arguments Propagate {A} e s t.
Arguments Abort {A} diagnostic s t.
Arguments Undefined {A}.
Arguments OutOfFuel {A}.

Definition M (A : Type) : Type := Screen -> Trace -> Outcome A.

Definition ret {A} (a : A) : M A := fun s t => Return a s t.

Definition bind {A B} (m : M A) (k : A -> M B) : M B :=
  fun s t =>
    match m s t with
    | Return a s' t' => k a s' t'
    | Propagate e s' t' => Propagate e s' t'
    | Abort d s' t' => Abort d s' t'
    | Undefined => Undefined
    | OutOfFuel => OutOfFuel
    end.

Declare Scope screen_scope.
Delimit Scope screen_scope with screen.
Notation "x <- m ;; k" := (bind m (fun x => k))
  (at level 61, m at next level, right associativity) : screen_scope.
Notation "m ;; k" := (bind m (fun _ => k))
  (at level 61, right associativity) : screen_scope.

Definition get : M Screen := fun s t => Return s s t.
Definition modify (f : Screen -> Screen) : M unit :=
  fun s t => Return tt (f s) t.
Definition throw {A} (e : exn) : M A := fun s t => Propagate e s t.
Definition undefined {A} : M A := fun _ _ => Undefined.
Definition out_of_fuel {A} : M A := fun _ _ => OutOfFuel.

(** [try { body } catch (const std::exception &e) { std::cerr << ... ;
    abort(); }]: only exceptions derived from [std::exception] are
    caught. *)
Definition try_catch_abort {A} (body : M A) : M A :=
  fun s t =>
    match body s t with
    | Propagate (std_exception what) s' t' =>
        Abort ("Caught exception in event handler: " ++ what) s' t'
    | o => o
    end.

(** Calling a virtual handler: the delivery is logged, then the handler
    runs. *)
Definition call (env : Env) (ev : Event) : M bool :=
  fun s t =>
    match deliver (tree env) ev s with
    | Returns b s' => Return b s' (t ++ [(ev, s)])
    | Throws e s' => Propagate e s' (t ++ [(ev, s)])
    end.

(** [mLastInteraction = constants->getTime();] *)
Definition touch (env : Env) : M unit :=
  match getTime (constants env) with
  | inl e => throw e
  | inr now => modify (set_mLastInteraction now)
  end.

Module ScreenImpl.

Local Open Scope screen_scope.

(** Equality of two vectors of widget pointers, entry by entry. *)
Fixpoint path_eqb (a b : list WidgetRef) : bool :=
  match a, b with
  | [], [] => true
  | x :: a', y :: b' => (x =? y) && path_eqb a' b'
  | _, _ => false
  end.

(** The reverse-iterator loop shared by [keyboardEvent] and
    [keyboardCharacterEvent]: [it] runs from [rbegin() + 1] to [rend()]
    over the member [mFocusPath] itself, while the handlers run; [k] is
    the number of entries left, [*it] is entry [k - 1] of the vector.
    The iterators are valid for the vector they were taken from, [path]:
    an assignment to [mFocusPath] ([updateFocus] clears and refills it,
    [disposeWindow] clears it) invalidates them, and the loop's next
    [++it], [it != rend()] or [*it] is undefined.  A handler is given by
    the state it leaves, so one that leaves the focus path as it was
    counts as not having assigned it. *)
Fixpoint focus_loop (env : Env) (mk : WidgetRef -> Event)
    (path : list WidgetRef) (k : nat) : M bool :=
  s <- get ;;
  if negb (path_eqb (mFocusPath s) path) then undefined
  else
    match k with
    | 0 => ret false
    | S i =>
        match nth_error (mFocusPath s) i with
        | None => undefined
        | Some w =>
            if mFocused (heap s w) then
              handled <- call env (mk w) ;;
              if handled then ret true else focus_loop env mk path i
            else focus_loop env mk path i
        end
    end.

(** [Screen::keyboardEvent]. *)
Definition keyboardEvent (env : Env) (key scancode action modifiers : Z)
  : M bool :=
  s <- get ;;
  if 0 <? length (mFocusPath s) then
    focus_loop env (fun w => KeyboardEvent w key scancode action modifiers)
      (mFocusPath s) (length (mFocusPath s) - 1)
  else ret false.

(** [Screen::keyboardCharacterEvent]. *)
Definition keyboardCharacterEvent (env : Env) (codepoint : Z) : M bool :=
  s <- get ;;
  if 0 <? length (mFocusPath s) then
    focus_loop env (fun w => KeyboardCharacterEvent w codepoint)
      (mFocusPath s) (length (mFocusPath s) - 1)
  else ret false.

(** [Vector2i p((int) x, (int) y)], divided by the pixel ratio on the
    builds that scale. *)
Definition device_to_logical (env : Env) (x y : double) : M Vector2i :=
  match float_to_int x, float_to_int y with
  | Some ix, Some iy =>
      if scaled env then
        s <- get ;;
        match Vector2i_div (ix, iy) (mPixelRatio s) with
        | Some p => ret p
        | None => undefined
        end
      else ret (ix, iy)
  | _, _ => undefined
  end.

(** [mDragWidget->parent()->absolutePosition()]; [None] when a null
    pointer would be dereferenced. *)
Definition drag_origin (env : Env) (s : Screen) : option Vector2i :=
  match mDragWidget s with
  | None => None
  | Some w =>
      match mParent (heap s w) with
      | None => None
      | Some parent => Some (absolutePosition (tree env) (heap s) parent)
      end
  end.

(** [Screen::cursorPosCallbackEvent]. *)
Definition cursorPosCallbackEvent (env : Env) (x y : double) : M bool :=
  p0 <- device_to_logical env x y ;;
  touch env ;;
  try_catch_abort (
    let p := Vector2i_sub p0 (1, 2)%Z in
    s <- get ;;
    handled <-
      (if negb (mDragActive s) then
         match findWidget (tree env) s p with
         | Some widget =>
             (if Cursor_eqb (wCursor (heap s widget)) (mCursor s)
              then ret tt
              else modify (set_mCursor (wCursor (heap s widget)))) ;;
             ret false
         | None => ret false
         end
       else
         match mDragWidget s, drag_origin env s with
         | Some w, Some origin =>
             call env (MouseDragEvent w (Vector2i_sub p origin)
                         (Vector2i_sub p (mMousePos s))
                         (mMouseState s) (mModifiers s))
         | _, _ => undefined
         end) ;;
    handled' <-
      (if handled then ret true
       else
         s1 <- get ;;
         call env (MouseMotionEvent p (Vector2i_sub p (mMousePos s1))
                     (mMouseState s1) (mModifiers s1))) ;;
    modify (set_mMousePos p) ;;
    ret handled').

(** Modelled from the spec: [Widget::focusEvent] is not part of
    [screen.cpp]; a focus notification is recorded in the widget's
    [focused()] flag, which is what the focus path invariant of the data
    model (every entry of the path has its flag set) asks of it. *)
Definition set_focused (w : WidgetRef) (focused : bool) (h : Heap) : Heap :=
  fun r =>
    if r =? w
    then mkWidget (mParent (h r)) (wPos (h r)) (wSize (h r)) focused
           (wCursor (h r)) (wClass (h r))
    else h r.

Definition focusEvent (w : WidgetRef) (focused : bool) : M unit :=
  fun s t =>
    Return tt (set_heap (set_focused w focused (heap s)) s)
      (t ++ [(FocusEvent w focused, s)]).

(** The first loop of [updateFocus]: [for (auto w : mFocusPath) { if
    (!w->focused()) continue; w->focusEvent(false); }]. *)
Fixpoint lose_focus (path : list WidgetRef) : M unit :=
  match path with
  | [] => ret tt
  | w :: rest =>
      s <- get ;;
      (if mFocused (heap s w) then focusEvent w false else ret tt) ;;
      lose_focus rest
  end.

(** The [while (widget)] loop of [updateFocus]: each widget on the way
    up is pushed onto [mFocusPath]; [window] is overwritten at every
    [Window] met.  The loop follows parent pointers, hence the fuel. *)
Fixpoint collect_path (fuel : nat) (widget window : option WidgetRef)
  : M (option WidgetRef) :=
  match widget with
  | None => ret window
  | Some w =>
      match fuel with
      | 0 => out_of_fuel
      | S f =>
          modify (fun s => set_mFocusPath (mFocusPath s ++ [w]) s) ;;
          s <- get ;;
          collect_path f (mParent (heap s w))
            (match dynamic_cast_Window (heap s) w with
             | Some _ => Some w
             | None => window
             end)
      end
  end.

(** The last loop of [updateFocus]: [focusEvent(true)] from [rbegin()]
    to [rend()]. *)
Fixpoint gain_focus (reversed : list WidgetRef) : M unit :=
  match reversed with
  | [] => ret tt
  | w :: rest => focusEvent w true ;; gain_focus rest
  end.

(** [Screen::updateFocus]. *)
Definition updateFocus (fuel : nat) (widget : option WidgetRef) : M unit :=
  s <- get ;;
  lose_focus (mFocusPath s) ;;
  modify (set_mFocusPath []) ;;
  window <- collect_path fuel widget None ;;
  s1 <- get ;;
  gain_focus (rev (mFocusPath s1)) ;;
  match window with
  | None => ret tt
  | Some w =>
      s2 <- get ;;
      match Stacking.moveWindowToFront (heap s2) fuel w (mChildren s2) with
      | None => out_of_fuel
      | Some children => modify (set_mChildren children)
      end
  end.

(** Modelled from the spec: [Widget::removeChild] is not part of
    [screen.cpp]; it detaches the widget from the child sequence. *)
Definition removeChild (w : WidgetRef) : M unit :=
  modify (fun s => set_mChildren (Stacking.erase w (mChildren s)) s).

Definition WidgetRef_opt_eqb (a b : option WidgetRef) : bool :=
  match a, b with
  | Some x, Some y => x =? y
  | None, None => true
  | _, _ => false
  end.

(** [Screen::disposeWindow]. *)
Definition disposeWindow (window : WidgetRef) : M unit :=
  s <- get ;;
  (if existsb (Nat.eqb window) (mFocusPath s)
   then modify (set_mFocusPath [])
   else ret tt) ;;
  (if WidgetRef_opt_eqb (mDragWidget s) (Some window)
   then modify (set_mDragWidget None)
   else ret tt) ;;
  removeChild window.

(** The modal test of the mouse-button and scroll callbacks: the entry
    [mFocusPath[size - 2]] is a modal window that does not contain the
    mouse position. *)
Definition outside_modal (env : Env) (s : Screen) : bool :=
  if 1 <? length (mFocusPath s) then
    match nth_error (mFocusPath s) (length (mFocusPath s) - 2) with
    | Some w =>
        match dynamic_cast_Window (heap s) w with
        | Some true => negb (contains (tree env) (heap s) w (mMousePos s))
        | _ => false
        end
    | None => false
    end
  else false.

(** [1 << button]; undefined for a shift count outside [0, 31]. *)
Definition button_bit (button : Z) : option Z :=
  if ((0 <=? button) && (button <? 32))%Z
  then Some (wrap_int (Z.shiftl 1 button))
  else None.

(** [Screen::mouseButtonCallbackEvent]. *)
Definition mouseButtonCallbackEvent (env : Env) (button action modifiers : Z)
  : M bool :=
  let c := constants env in
  modify (set_mModifiers modifiers) ;;
  touch env ;;
  try_catch_abort (
    s <- get ;;
    if outside_modal env s then ret false
    else
      match button_bit button with
      | None => undefined
      | Some bit =>
          modify (set_mMouseState
                    (if (action =? mMousePress c)%Z
                     then Z.lor (mMouseState s) bit
                     else Z.land (mMouseState s) (Z.lnot bit))) ;;
          s1 <- get ;;
          let dropWidget := findWidget (tree env) s1 (mMousePos s1) in
          (if mDragActive s1 && (action =? mMouseRelease c)%Z &&
              negb (WidgetRef_opt_eqb dropWidget (mDragWidget s1))
           then
             match mDragWidget s1, drag_origin env s1 with
             | Some w, Some origin =>
                 call env (MouseButtonEvent w
                             (Vector2i_sub (mMousePos s1) origin)
                             button false (mModifiers s1)) ;;
                 ret tt
             | _, _ => undefined
             end
           else ret tt) ;;
          (if (action =? mMousePress c)%Z &&
              ((button =? mPrimaryMouseButton c)%Z ||
               (button =? mSecondaryMouseButton c)%Z)
           then
             s2 <- get ;;
             let found := findWidget (tree env) s2 (mMousePos s2) in
             let target :=
               if WidgetRef_opt_eqb found (Some (this s2)) then None
               else found in
             modify (set_mDragWidget target) ;;
             match target with
             | Some _ => modify (set_mDragActive true)
             | None =>
                 modify (set_mDragActive false) ;;
                 updateFocus 0 None
             end
           else
             modify (set_mDragActive false) ;;
             modify (set_mDragWidget None)) ;;
          s3 <- get ;;
          call env (MouseButtonEvent (this s3) (mMousePos s3) button
                      (action =? mMousePress c)%Z (mModifiers s3))
      end).

(** [Screen::keyCallbackEvent]. *)
Definition keyCallbackEvent (env : Env) (key scancode action mods : Z)
  : M bool :=
  touch env ;;
  try_catch_abort (keyboardEvent env key scancode action mods).

(** [Screen::charCallbackEvent]. *)
Definition charCallbackEvent (env : Env) (codepoint : Z) : M bool :=
  touch env ;;
  try_catch_abort (keyboardCharacterEvent env codepoint).

(** [Screen::dropCallbackEvent].  [filenames] is the array behind the
    [const char **]; the function reads its first [count] entries.  A
    negative [count] makes the vector constructor throw. *)
Definition dropCallbackEvent (env : Env) (count : Z)
    (filenames : list string) : M bool :=
  if (count <? 0)%Z then
    throw (std_exception "cannot create std::vector larger than max_size()")
  else if (Z.of_nat (length filenames) <? count)%Z then undefined
  else call env (DropEvent (firstn (Z.to_nat count) filenames)).

(** [Screen::scrollCallbackEvent]. *)
Definition scrollCallbackEvent (env : Env) (x y : double) : M bool :=
  touch env ;;
  try_catch_abort (
    s <- get ;;
    if outside_modal env s then ret false
    else call env (ScrollEvent (mMousePos s)
                     (double_to_float x, double_to_float y))).

(** [Screen::resizeCallbackEvent]. *)
Definition resizeCallbackEvent (env : Env) (w h : Z) (pixelRatio : float)
  : M bool :=
  modify (set_mSize (w, h)) ;;
  modify (set_mPixelRatio pixelRatio) ;;
  (if scaled env then
     s <- get ;;
     match Vector2i_div (mSize s) (mPixelRatio s) with
     | Some size => modify (set_mSize size)
     | None => undefined
     end
   else ret tt) ;;
  s <- get ;;
  if Vector2i_eqb (mSize s) (0, 0)%Z then ret false
  else
    touch env ;;
    try_catch_abort (
      s1 <- get ;;
      call env (ResizeEvent (mSize s1))).

End ScreenImpl.



(** ** More of the screen: [Screen::centerWindow] *)

Module ScreenMore.

Import ScreenImpl.
Local Open Scope screen_scope.





End ScreenMore.

(** The trace an outcome carries, when it carries one. *)
Definition trace_of {A : Type} (o : Outcome A) : option Trace :=
  match o with
  | Return _ _ t => Some t
  | Propagate _ _ t => Some t
  | Abort _ _ t => Some t
  | Undefined => None
  | OutOfFuel => None
  end.

(** What a [try] block of the callbacks makes of a handler's result,
    given the trace that holds the delivery. *)
Definition caught (r : HandlerResult) (t : Trace) : Outcome bool :=
  match r with
  | Returns handled s => Return handled s t
  | Throws (std_exception what) s =>
      Abort ("Caught exception in event handler: " ++ what) s t
  | Throws other_exception s => Propagate other_exception s t
  end.

(** ** Notions used to state and prove the properties *)

Definition memb (x : nat) (l : list nat) : bool := existsb (Nat.eqb x) l.

(** What stays behind when the block [T] is lifted out of [l]. *)
Definition unmoved (T l : list nat) : list nat :=
  filter (fun x => negb (memb x T)) l.

(** Every element of [l] is a popup whose owner was seen before it:
    earlier in [l], or in [seen]. *)
Fixpoint tree_order (h : Heap) (seen l : list WidgetRef) : Prop :=
  match l with
  | [] => True
  | x :: l' =>
      (exists o, popupOwner h x = Some o /\ In o seen) /\
      tree_order h (x :: seen) l'
  end.

(** The recursive form of [Stacking.popups_above_owner]. *)
Fixpoint stacked (h : Heap) (l : list WidgetRef) : Prop :=
  match l with
  | [] => True
  | x :: l' =>
      (forall o, popupOwner h x = Some o -> ~ In o (x :: l')) /\
      stacked h l'
  end.

(** The shape of the result of [moveWindowToFront].

    While [moveWindowToFront(w)] runs, the child sequence is what is left
    of the original one once a block [w :: T'] has been lifted out,
    followed by that block.  [T'] holds the popups moved so far. *)
Definition lifted (h : Heap) (w : WidgetRef)
    (ch T' c : list WidgetRef) : Prop :=
  c = unmoved (w :: T') ch ++ w :: T' /\
  NoDup (w :: T') /\
  tree_order h [w] T' /\
  incl T' ch /\
  (forall p o, In p ch -> popupOwner h p = Some o -> In o T' -> In p (w :: T')).

(** On return the block is closed under ownership. *)
Definition lifted_closed (h : Heap) (w : WidgetRef)
    (ch c : list WidgetRef) : Prop :=
  exists T',
    lifted h w ch T' c /\
    (forall p, In p ch -> popupOwner h p = Some w -> In p (w :: T')).

Section ScreenNotions.

Import ScreenImpl.
Local Open Scope screen_scope.

(** The walk-and-short-circuit policy over a visiting order: each
    widget in turn that has its [focused()] flag set gets the event; the
    walk stops at the first handler that reports the event handled. *)
Fixpoint walk_focused (env : Env) (mk : WidgetRef -> Event)
    (order : list WidgetRef) : M bool :=
  match order with
  | [] => ret false
  | w :: rest =>
      s <- get ;;
      if mFocused (heap s w) then
        handled <- call env (mk w) ;;
        if handled then ret true else walk_focused env mk rest
      else walk_focused env mk rest
  end.

(** The handlers that decline an event of the kind [mk] leave the focus
    path as it is. *)
Definition declining_keeps_path (env : Env) (mk : WidgetRef -> Event)
  : Prop :=
  forall w s s',
    deliver (tree env) (mk w) s = Returns false s' ->
    mFocusPath s' = mFocusPath s.

(** The policy in the specification's words: every widget of the order
    gets the event until one reports it handled. *)
Fixpoint walk_all (env : Env) (mk : WidgetRef -> Event)
    (order : list WidgetRef) : M bool :=
  match order with
  | [] => ret false
  | w :: rest =>
      handled <- call env (mk w) ;;
      if handled then ret true else walk_all env mk rest
  end.

(** Keyboard dispatch as the specification words it: from the leaf
    rootward, which is the stored order of the path, without the last
    entry. *)
Definition keyboardEvent_leaf_rootward (env : Env)
    (key scancode action modifiers : Z) : M bool :=
  s <- get ;;
  walk_all env (fun w => KeyboardEvent w key scancode action modifiers)
    (removelast (mFocusPath s)).


(** The ancestor chain of a widget: the widget, its parent, and so on
    up to and including the widget that has no parent (the screen). *)
Inductive ancestor_chain (h : Heap) : WidgetRef -> list WidgetRef -> Prop :=
| chain_root : forall w, mParent (h w) = None -> ancestor_chain h w [w]
| chain_step : forall w parent l,
    mParent (h w) = Some parent ->
    ancestor_chain h parent l ->
    ancestor_chain h w (w :: l).

(** The widgets whose handler is told that focus is lost, in order: the
    entries of the old path whose flag is set when their turn comes. *)
Fixpoint lost_list (h : Heap) (path : list WidgetRef) : list WidgetRef :=
  match path with
  | [] => []
  | w :: rest =>
      if mFocused (h w) then w :: lost_list (set_focused w false h) rest
      else lost_list h rest
  end.

Fixpoint unfocus (h : Heap) (path : list WidgetRef) : Heap :=
  match path with
  | [] => h
  | w :: rest =>
      if mFocused (h w) then unfocus (set_focused w false h) rest
      else unfocus h rest
  end.

Definition focus_all (h : Heap) (l : list WidgetRef) : Heap :=
  fold_left (fun h w => set_focused w true h) l h.

(** The window [updateFocus] brings to the front: the last [Window] met
    on the way up. *)
Definition last_window (h : Heap) (l : list WidgetRef)
    (window : option WidgetRef) : option WidgetRef :=
  fold_left (fun acc w => match dynamic_cast_Window h w with
                          | Some _ => Some w
                          | None => acc
                          end) l window.

(** The widgets notified of a loss, and of a gain, of focus in a trace. *)
Definition lost_notifications (t : Trace) : list WidgetRef :=
  flat_map (fun e => match fst e with
                     | FocusEvent w false => [w]
                     | _ => []
                     end) t.

Definition gained_notifications (t : Trace) : list WidgetRef :=
  flat_map (fun e => match fst e with
                     | FocusEvent w true => [w]
                     | _ => []
                     end) t.

(** Two heaps with the same parent links and dynamic types. *)
Definition same_shape (h h' : Heap) : Prop :=
  forall r, mParent (h' r) = mParent (h r) /\ wClass (h' r) = wClass (h r).

End ScreenNotions.

(** ** Concrete widget trees for examples *)
Definition plain : Widget :=
  mkWidget None (0, 0)%Z (0, 0)%Z false Arrow PlainWidget.
Definition window_obj (parent : WidgetRef) : Widget :=
  mkWidget (Some parent) (0, 0)%Z (0, 0)%Z false Arrow (WindowWidget false).
Definition popup_obj (parent owner : WidgetRef) : Widget :=
  mkWidget (Some parent) (0, 0)%Z (0, 0)%Z false Arrow
    (PopupWidget false (Some owner)).

Definition heap_of (l : list (WidgetRef * Widget)) : Heap :=
  fun r =>
    match find (fun e => fst e =? r) l with
    | Some e => snd e
    | None => plain
    end.


(** A screen [0] with a window [1], its popup [2] and a second window
    [3]. *)
Definition heap_popup : Heap :=
  heap_of [(1, window_obj 0); (2, popup_obj 0 1); (3, window_obj 0)].

(** Two popups that name each other as parent window. *)
Definition heap_cycle : Heap :=
  heap_of [(1, popup_obj 0 2); (2, popup_obj 0 1)].

Definition rank_popup (w : WidgetRef) : nat := if w =? 2 then 0 else 1.

(** A screen [0] with a focused window [1] that holds a focused button
    [2]; [modal] is the window's flag. *)
Definition heap_focus (modal : bool) : Heap :=
  heap_of
    [(0, mkWidget None (0, 0)%Z (800, 600)%Z true Arrow PlainWidget);
     (1, mkWidget (Some 0) (10, 10)%Z (100, 100)%Z true Arrow
           (WindowWidget modal));
     (2, mkWidget (Some 1) (5, 5)%Z (20, 10)%Z true Arrow PlainWidget)].

(** 800.5, 800, 600 and 1 as [double]s; 1 and 2 as [float]s. *)
Definition d800_5 : double := S754_finite false 7041272464277504 (-43).
Definition d800 : double := S754_finite false 7036874417766400 (-43).
Definition d600 : double := S754_finite false 5277655813324800 (-43).
Definition d1 : double := S754_finite false 4503599627370496 (-52).
Definition f1 : float := S754_finite false 8388608 (-23).
Definition f2 : float := S754_finite false 8388608 (-22).

(** GLFW's codes, and a time callback that returns 600. *)
Definition test_constants : WindowHandlerConstants :=
  mkConstants 0 1 1 0 (Some (fun _ => inr d600)).

(** A widget tree whose handlers all answer [answer] and change
    nothing; hit-testing finds [hit]; a widget contains the points of its
    [wPos]/[wSize] box. *)
Definition box_contains (h : Heap) (w : WidgetRef) (p : Vector2i) : bool :=
  ((fst (wPos (h w)) <=? fst p)
   && (fst p <? fst (wPos (h w)) + fst (wSize (h w)))
   && (snd (wPos (h w)) <=? snd p)
   && (snd p <? snd (wPos (h w)) + snd (wSize (h w))))%Z.

Definition test_tree (hit : option WidgetRef) (answer : bool) : WidgetTree :=
  mkWidgetTree (fun _ _ _ _ _ => hit) box_contains
    (fun h w => wPos (h w)) (fun _ s => Returns answer s).

(** A widget tree whose handlers all throw [e]. *)
Definition throwing_tree (e : exn) : WidgetTree :=
  mkWidgetTree (fun _ _ _ _ _ => None) box_contains
    (fun h w => wPos (h w)) (fun _ s => Throws e s).

Definition test_env (hit : option WidgetRef) (answer : bool) : Env :=
  mkEnv test_constants true (test_tree hit answer).

(** The screen of [heap_focus] with the button focused. *)
Definition screen_focus (modal : bool) : Screen :=
  mkScreen 0 (heap_focus modal) [1] [2; 1; 0] (800, 600)%Z f1 (500, 500)%Z
    0 0 false None d1 Arrow.

(** The screen of [heap_focus] while the button [2] is being dragged. *)
Definition screen_drag : Screen :=
  set_mDragWidget (Some 2) (set_mDragActive true (screen_focus false)).

(** The screen of [heap_focus] while the window [1] is being dragged. *)
Definition screen_drag_window : Screen :=
  set_mDragWidget (Some 1) (set_mDragActive true (screen_focus false)).

(** A window [1] that holds a window [2] (a nested panel) that holds a
    button [3]; the screen's children are [1] and a second widget [4]. *)
Definition heap_nested : Heap :=
  heap_of [(1, window_obj 0); (2, window_obj 1);
           (3, mkWidget (Some 2) (0, 0)%Z (0, 0)%Z false Arrow PlainWidget)].

Definition screen_nested : Screen :=
  set_mChildren [1; 4]
    (set_mFocusPath [] (set_heap heap_nested (screen_focus false))).

(** An environment whose handlers all throw
    [std::runtime_error("boom")]. *)
Definition throwing_env : Env :=
  mkEnv test_constants true (throwing_tree (std_exception "boom")).

(** An environment whose handlers all decline and move the focus: they
    leave the focus path [5; 6; 0]. *)
Definition refocusing_env : Env :=
  mkEnv test_constants true
    (mkWidgetTree (fun _ _ _ _ _ => None) box_contains
       (fun h w => wPos (h w))
       (fun _ s => Returns false (set_mFocusPath [5; 6; 0] s))).

(** A callback that appends its arguments to a log. *)
Definition log_args {Args : Type} : Registry.Callback Args (list Args) :=
  fun args log => Registry.Done (log ++ [args]).

(* ===================================================================== *)
(** * Part II. Properties                                                 *)
(* ===================================================================== *)

(** ** Generic list facts *)

Section ListFacts.


Lemma memb_In : forall x l, memb x l = true <-> In x l.
Proof.
  intros x l. unfold memb. rewrite existsb_exists. split.
  - intros [y [Hy Heq]]. apply Nat.eqb_eq in Heq. now subst.
  - intros H. exists x. split; [assumption | apply Nat.eqb_refl].
Qed.

Lemma memb_false : forall x l, memb x l = false <-> ~ In x l.
Proof.
  intros x l. rewrite <- memb_In. destruct (memb x l); split; congruence.
Qed.


Lemma unmoved_In : forall T l x, In x (unmoved T l) <-> In x l /\ ~ In x T.
Proof.
  intros T l x. unfold unmoved. rewrite filter_In, negb_true_iff, memb_false.
  tauto.
Qed.

Lemma unmoved_app : forall T l1 l2,
  unmoved T (l1 ++ l2) = unmoved T l1 ++ unmoved T l2.
Proof. intros. unfold unmoved. apply filter_app. Qed.

Lemma unmoved_id : forall T l,
  (forall x, In x l -> ~ In x T) -> unmoved T l = l.
Proof.
  intros T l. induction l as [|a l IH]; intros H; simpl; [reflexivity|].
  assert (Ha : memb a T = false) by (apply memb_false, H; now left).
  rewrite Ha. simpl. f_equal. apply IH. intros x Hx. apply H. now right.
Qed.

Lemma unmoved_nil : forall T l,
  (forall x, In x l -> In x T) -> unmoved T l = [].
Proof.
  intros T l. induction l as [|a l IH]; intros H; simpl; [reflexivity|].
  assert (Ha : memb a T = true) by (apply memb_In, H; now left).
  rewrite Ha. simpl. apply IH. intros x Hx. apply H. now right.
Qed.

Lemma unmoved_unmoved : forall T1 T2 l,
  unmoved T2 (unmoved T1 l) = unmoved (T1 ++ T2) l.
Proof.
  intros T1 T2 l. induction l as [|a l IH]; simpl; [reflexivity|].
  unfold memb at 2. rewrite existsb_app. fold (memb a T1) (memb a T2).
  destruct (memb a T1) eqn:E1; simpl.
  - exact IH.
  - destruct (memb a T2) eqn:E2; simpl; [exact IH | now rewrite IH].
Qed.

Lemma unmoved_ext : forall T1 T2 l,
  (forall x, In x T1 <-> In x T2) -> unmoved T1 l = unmoved T2 l.
Proof.
  intros T1 T2 l H. unfold unmoved. apply filter_ext. intros a.
  f_equal. destruct (memb a T1) eqn:E1, (memb a T2) eqn:E2; try reflexivity.
  - apply memb_In in E1. apply memb_false in E2. now apply H in E1.
  - apply memb_In in E2. apply memb_false in E1. now apply H in E2.
Qed.

Lemma unmoved_length_le : forall T l, length (unmoved T l) <= length l.
Proof. intros. unfold unmoved. apply filter_length_le. Qed.

(** Lifting out one more element that was still there shortens the rest. *)
Lemma unmoved_shrink : forall T1 T2 l x,
  In x l -> ~ In x T1 -> In x T2 ->
  length (unmoved (T1 ++ T2) l) < length (unmoved T1 l).
Proof.
  intros T1 T2 l x. induction l as [|a l IH]; intros Hin H1 H2; [easy|].
  simpl. unfold memb at 1. rewrite existsb_app. fold (memb a T1) (memb a T2).
  destruct Hin as [-> | Hin].
  - apply memb_false in H1. apply memb_In in H2. rewrite H1, H2. simpl.
    rewrite <- unmoved_unmoved.
    apply Nat.lt_succ_r, unmoved_length_le.
  - specialize (IH Hin H1 H2).
    destruct (memb a T1); simpl; [exact IH|].
    destruct (memb a T2); simpl; lia.
Qed.

Lemma unmoved_length_lt : forall T l x,
  In x l -> In x T -> length (unmoved T l) < length l.
Proof.
  intros T l x Hl HT.
  pose proof (unmoved_shrink [] T l x Hl (fun H => H) HT) as Hlt.
  pose proof (unmoved_length_le [] l). simpl in Hlt. lia.
Qed.

(** A duplicate-free block drawn from [l] is no longer than what it
    leaves behind is short. *)
Lemma unmoved_block_length : forall T l,
  NoDup T -> incl T l -> length (unmoved T l) + length T <= length l.
Proof.
  intros T l Hnd Hincl.
  pose proof (filter_length (fun x => memb x T) l) as Hlen.
  assert (length T <= length (filter (fun x => memb x T) l)).
  { apply NoDup_incl_length; [assumption|].
    intros x Hx. apply filter_In.
    split; [now apply Hincl | now apply memb_In]. }
  unfold unmoved. lia.
Qed.

Lemma unmoved_block_Permutation : forall T l,
  NoDup T -> NoDup l -> incl T l -> Permutation l (unmoved T l ++ T).
Proof.
  intros T l HT Hl Hincl.
  apply NoDup_Permutation; [assumption| |].
  - apply NoDup_app; [now apply NoDup_filter | assumption |].
    intros x Hx. apply unmoved_In in Hx. tauto.
  - intros x. rewrite in_app_iff, unmoved_In. split.
    + intros Hx. destruct (in_dec Nat.eq_dec x T); tauto.
    + intros [[Hx _] | Hx]; [assumption | now apply Hincl].
Qed.

(** An element left of position [length U] of [U ++ R] lies in [U]. *)
Lemma split_left_In : forall (U R A B : list nat) x,
  U ++ R = A ++ x :: B -> length A < length U -> In x U.
Proof.
  intros U R A B x Heq Hlt.
  assert (H : nth_error (U ++ R) (length A) = Some x).
  { rewrite Heq, nth_error_app2, Nat.sub_diag by lia. reflexivity. }
  rewrite nth_error_app1 in H by assumption.
  eapply nth_error_In; eassumption.
Qed.

End ListFacts.

(** ** Window stacking *)

Section StackingProofs.

Import Stacking.

Variable h : Heap.

Local Abbreviation owner := (popupOwner h).
Local Abbreviation tree_order := (tree_order h).
Local Abbreviation stacked := (stacked h).
Local Abbreviation lifted := (lifted h).
Local Abbreviation lifted_closed := (lifted_closed h).

Lemma is_popup_of_owner : forall w x,
  is_popup_of h w x = true <-> owner x = Some w.
Proof.
  intros w x. unfold is_popup_of, popupOwner.
  destruct (dynamic_cast_Popup h x) as [[o|]|]; split; intros H;
    try discriminate.
  - apply Nat.eqb_eq in H. now subst.
  - injection H as ->. apply Nat.eqb_refl.
Qed.

Lemma erase_unmoved : forall w l, erase w l = unmoved [w] l.
Proof.
  intros w l. unfold erase, unmoved. apply filter_ext. intros a.
  unfold memb. simpl. now rewrite orb_false_r.
Qed.

Lemma find_baseIndex_absent : forall w l i b,
  ~ In w l -> find_baseIndex w l i b = b.
Proof.
  intros w l. induction l as [|x l IH]; intros i b Hnin; simpl; [reflexivity|].
  destruct (Nat.eqb_spec x w) as [-> | Hne].
  - exfalso. apply Hnin. now left.
  - apply IH. intros Hin. apply Hnin. now right.
Qed.

Lemma find_baseIndex_last : forall w A B i b,
  ~ In w B -> find_baseIndex w (A ++ w :: B) i b = i + length A.
Proof.
  intros w A. induction A as [|a A IH]; intros B i b Hnin; simpl.
  - rewrite Nat.eqb_refl, find_baseIndex_absent by assumption. lia.
  - rewrite IH by assumption. lia.
Qed.

Lemma scan_popup_Some : forall w base l i x,
  scan_popup h w base l i = Some x ->
  exists A B, l = A ++ x :: B /\ i + length A < base /\ owner x = Some w.
Proof.
  intros w base l. induction l as [|a l IH]; intros i x H; simpl in H;
    [discriminate|].
  destruct (is_popup_of h w a && (i <? base)) eqn:E.
  - injection H as ->. apply andb_true_iff in E as [E1 E2].
    exists [], l. simpl. apply Nat.ltb_lt in E2.
    apply is_popup_of_owner in E1. repeat split; [lia | assumption].
  - destruct (IH _ _ H) as (A & B & -> & Hlt & Ho).
    exists (a :: A), B. simpl. repeat split; [lia | assumption].
Qed.

Lemma scan_popup_None : forall w base l i,
  scan_popup h w base l i = None ->
  forall A x B, l = A ++ x :: B -> i + length A < base -> owner x <> Some w.
Proof.
  intros w base l. induction l as [|a l IH]; intros i H A x B Heq Hlt.
  - now destruct A.
  - simpl in H.
    destruct (is_popup_of h w a && (i <? base)) eqn:E; [discriminate|].
    destruct A as [|a' A]; simpl in Heq; injection Heq as -> ->.
    + simpl in Hlt. apply andb_false_iff in E as [E | E].
      * intros Ho. apply is_popup_of_owner in Ho. congruence.
      * apply Nat.ltb_ge in E. lia.
    + apply (IH (S i) H A x B eq_refl). simpl in Hlt. lia.
Qed.


Lemma tree_order_incl : forall l seen seen',
  incl seen seen' -> tree_order seen l -> tree_order seen' l.
Proof.
  induction l as [|x l IH]; intros seen seen' Hincl H; simpl in *; [exact I|].
  destruct H as [(o & Ho & Hin) Hl]. split.
  - exists o. split; [assumption | now apply Hincl].
  - apply (IH (x :: seen)); [|assumption].
    intros y [-> | Hy]; [now left | right; now apply Hincl].
Qed.

Lemma tree_order_app : forall l1 seen l2,
  tree_order seen l1 -> tree_order (rev l1 ++ seen) l2 ->
  tree_order seen (l1 ++ l2).
Proof.
  induction l1 as [|x l1 IH]; intros seen l2 H1 H2; simpl in *; [assumption|].
  destruct H1 as [Hx H1]. split; [assumption|].
  apply IH; [assumption|]. now rewrite <- app_assoc in H2.
Qed.

Lemma tree_order_owner : forall l seen x,
  tree_order seen l -> In x l ->
  exists o, owner x = Some o /\ In o (seen ++ l).
Proof.
  induction l as [|a l IH]; intros seen x H Hin; [easy|].
  simpl in H. destruct H as [(o & Ho & Hos) Hl]. destruct Hin as [-> | Hin].
  - exists o. split; [assumption|]. apply in_or_app. now left.
  - destruct (IH _ _ Hl Hin) as (o' & Ho' & Hin').
    exists o'. split; [assumption|].
    apply in_app_or in Hin'. apply in_or_app. simpl in *. tauto.
Qed.

Lemma tree_order_all (P Q : WidgetRef -> Prop) :
  (forall x, Q x -> P x) ->
  forall l seen,
    tree_order seen l ->
    (forall s, In s seen -> P s) ->
    (forall x o, In x l -> owner x = Some o -> P o -> Q x) ->
    forall x, In x l -> Q x.
Proof.
  intros HQP. induction l as [|a l IH]; intros seen H Hseen Hstep x Hin;
    [easy|].
  simpl in H. destruct H as [(o & Ho & Hos) Hl].
  assert (Ha : Q a) by (apply (Hstep a o); [now left | assumption | auto]).
  destruct Hin as [-> | Hin]; [assumption|].
  apply (IH (a :: seen)); try assumption.
  - intros s [-> | Hs]; auto.
  - intros y o' Hy. apply Hstep. now right.
Qed.


Lemma stacked_iff : forall l, popups_above_owner h l <-> stacked l.
Proof.
  induction l as [|x l IH]; simpl.
  - split; [trivial|]. intros _ i j p o Hi. now destruct i.
  - split.
    + intros H. split.
      * intros o Ho Hin.
        apply (In_nth_error (x :: l)) in Hin as [j Hj].
        specialize (H 0 j x o eq_refl Hj Ho). lia.
      * apply IH. intros i j p o Hi Hj Ho.
        specialize (H (S i) (S j) p o Hi Hj Ho). lia.
    + intros [Hx Hl] i j p o Hi Hj Ho.
      destruct i as [|i].
      * injection Hi as ->. exfalso. apply (Hx o Ho).
        exact (nth_error_In (p :: l) j Hj).
      * destruct j as [|j]; [lia|].
        apply IH in Hl. specialize (Hl i j p o Hi Hj Ho). lia.
Qed.

Lemma stacked_app : forall X Y,
  stacked (X ++ Y) <->
  stacked X /\ stacked Y /\
  (forall x o, In x X -> owner x = Some o -> ~ In o Y).
Proof.
  induction X as [|a X IH]; intros Y; simpl.
  - split; [intros H; repeat split; [assumption | tauto] | tauto].
  - rewrite IH. split.
    + intros (Ha & HX & HY & Hc). repeat split; try assumption.
      * intros o Ho Hin. apply (Ha o Ho).
        destruct Hin as [-> | Hin]; [now left | right].
        apply in_or_app. now left.
      * intros x o [-> | Hx] Ho Hin.
        -- apply (Ha o Ho). right. apply in_or_app. now right.
        -- now apply (Hc x o).
    + intros ((Ha & HX) & HY & Hc). repeat split; try assumption.
      * intros o Ho [-> | Hin]; [apply (Ha o Ho); now left|].
        apply in_app_or in Hin as [Hin | Hin].
        -- apply (Ha o Ho). now right.
        -- apply (Hc a o); auto.
      * intros x o Hx. apply Hc. now right.
Qed.

Lemma stacked_filter : forall f l, stacked l -> stacked (filter f l).
Proof.
  intros f l. induction l as [|a l IH]; intros H; simpl in *; [exact I|].
  destruct H as [Ha Hl]. destruct (f a); [|auto].
  simpl. split; [|auto].
  intros o Ho [-> | Hin]; [apply (Ha o Ho); now left|].
  apply filter_In in Hin as [Hin _]. apply (Ha o Ho). now right.
Qed.

Lemma tree_order_stacked : forall l seen,
  tree_order seen l -> NoDup l -> (forall s, In s seen -> ~ In s l) ->
  stacked l.
Proof.
  induction l as [|x l IH]; intros seen H Hnd Hdis; simpl in *; [exact I|].
  destruct H as [(o & Ho & Hos) Hl]. inversion Hnd as [|? ? Hx Hnd']; subst.
  split.
  - intros o' Ho' Hin. assert (o' = o) by congruence. subst o'.
    apply (Hdis o Hos). exact Hin.
  - apply (IH (x :: seen)); try assumption.
    intros s [-> | Hs] Hin; [contradiction|].
    apply (Hdis s Hs). now right.
Qed.


Lemma lifted_In : forall w ch T' c,
  lifted w ch T' c -> forall x, In x c <-> x = w \/ In x ch.
Proof.
  intros w ch T' c (-> & Hnd & Htree & Hincl & Hclo) x.
  rewrite in_app_iff, unmoved_In. simpl. split.
  - intros [[Hx _] | [<- | Hx]]; auto.
  - intros [-> | Hx]; [auto|].
    destruct (in_dec Nat.eq_dec x (w :: T')) as [Hin | Hnin]; simpl in *; tauto.
Qed.

Lemma lifted_length : forall w ch T' c,
  lifted w ch T' c -> In w ch -> length c <= length ch.
Proof.
  intros w ch T' c (-> & Hnd & Htree & Hincl & Hclo) Hw.
  rewrite length_app.
  apply unmoved_block_length; [assumption|].
  intros x [<- | Hx]; [assumption | now apply Hincl].
Qed.

Lemma lifted_owned : forall w ch T' c,
  lifted w ch T' c -> forall x, In x T' -> owned_by h w x.
Proof.
  intros w ch T' c (_ & Hnd & Htree & Hincl & Hclo).
  apply (tree_order_all (fun x => x = w \/ owned_by h w x)
           (fun x => owned_by h w x)) with (seen := [w]);
    [tauto | assumption | |].
  - intros s [<- | []]. now left.
  - intros x o _ Ho [-> | Hob].
    + now apply owned_direct.
    + now apply owned_nested with o.
Qed.

Lemma erase_In : forall w l x, In x (erase w l) <-> In x l /\ x <> w.
Proof.
  intros w l x. unfold erase. rewrite filter_In, negb_true_iff, Nat.eqb_neq.
  tauto.
Qed.

Lemma erase_front_length : forall w l,
  In w l -> length (erase w l ++ [w]) <= length l.
Proof.
  intros w l Hin. rewrite length_app. simpl.
  rewrite erase_unmoved.
  pose proof (unmoved_length_lt [w] l w Hin (or_introl eq_refl)). lia.
Qed.

(** Moving [w] to the end is the initial state of the scan. *)
Lemma lifted_front : forall w ch,
  lifted w (erase w ch ++ [w]) [] (erase w ch ++ [w]).
Proof.
  intros w ch. unfold lifted. repeat split.
  - f_equal. rewrite unmoved_app.
    rewrite (unmoved_nil [w] [w]) by auto. rewrite app_nil_r.
    symmetry. apply unmoved_id. intros x Hx [<- | []].
    apply erase_In in Hx. tauto.
  - constructor; [easy | constructor].
  - easy.
  - intros p o _ _ [].
Qed.

(** A result described against [erase w ch ++ [w]] is described against
    [ch] as well. *)
Lemma lifted_closed_front : forall w ch c,
  lifted_closed w (erase w ch ++ [w]) c -> lifted_closed w ch c.
Proof.
  intros w ch c (T' & (Hc & Hnd & Htree & Hincl & Hclo) & Hw).
  assert (Hin : forall x, In x ch -> In x (erase w ch ++ [w])).
  { intros x Hx. apply in_or_app. destruct (Nat.eq_dec x w) as [-> | Hne].
    - right. now left.
    - left. now apply erase_In. }
  exists T'. split; [repeat split|].
  - rewrite Hc. f_equal. rewrite unmoved_app.
    rewrite (unmoved_nil (w :: T') [w]) by (intros x [<- | []]; now left).
    rewrite app_nil_r, erase_unmoved, unmoved_unmoved.
    apply unmoved_ext. intros x. simpl. tauto.
  - assumption.
  - assumption.
  - intros x Hx. specialize (Hincl x Hx).
    apply in_app_or in Hincl as [Hx' | [<- | []]].
    + now apply erase_In in Hx'.
    + inversion Hnd; contradiction.
  - intros p o Hp. apply Hclo. auto.
  - intros p Hp. apply Hw. auto.
Qed.

End StackingProofs.

(** ** Total correctness of [moveWindowToFront] under acyclic ownership

    The source calls the loop a topological sort; it ends when popup
    ownership among the widgets involved has no cycle.  Acyclicity is
    given by a rank that drops from an owner to its popups. *)

Section StackingAcyclic.

Import Stacking.

Variable h : Heap.
Variable rank : WidgetRef -> nat.
Variable dom : list WidgetRef.

Hypothesis rank_owner :
  forall p o, In p dom -> popupOwner h p = Some o -> rank p < rank o.

Lemma lifted_rank : forall w ch T' c,
  incl ch dom -> lifted h w ch T' c ->
  forall x, In x T' -> rank x < rank w.
Proof.
  intros w ch T' c Hdom (_ & Hnd & Htree & Hincl & Hclo).
  apply (tree_order_all h (fun x => rank x <= rank w)
           (fun x => rank x < rank w)) with (seen := [w]);
    [lia | assumption | |].
  - intros s [<- | []]. lia.
  - intros x o Hx Ho Hle.
    assert (rank x < rank o) by (apply rank_owner; auto). lia.
Qed.

(** One more popup subtree joins the block. *)
Lemma lifted_extend : forall w ch T' c pw T2 c1,
  incl (w :: ch) dom ->
  lifted h w ch T' c ->
  In pw ch -> ~ In pw (w :: T') -> popupOwner h pw = Some w ->
  lifted h pw c T2 c1 ->
  (forall p, In p c -> popupOwner h p = Some pw -> In p (pw :: T2)) ->
  lifted h w ch (T' ++ pw :: T2) c1.
Proof.
  intros w ch T' c pw T2 c1 Hdom Hl Hpw Hpwn Hown Hl2 Hclo2.
  pose proof (lifted_In _ _ _ _ _ Hl) as HinC.
  destruct Hl as (Hc & Hnd & Htree & Hincl & Hclo).
  destruct Hl2 as (Hc1 & Hnd2 & Htree2 & Hincl2 & Hclo2').
  assert (Hrank_pw : rank pw < rank w).
  { apply rank_owner; [apply Hdom; now right | assumption]. }
  (* the two blocks are disjoint *)
  assert (Hdis2 : forall x, In x T2 ->
            ~ In x (w :: T') /\ rank x <= rank pw).
  { apply (tree_order_all h (fun x => ~ In x (w :: T') /\ rank x <= rank pw)
             (fun x => ~ In x (w :: T') /\ rank x <= rank pw))
      with (seen := [pw]); [tauto | assumption | |].
    - intros s [<- | []]. split; [assumption | lia].
    - intros x o Hx Ho [Hon Hor].
      assert (Hxd : In x dom).
      { apply Hdom. apply Hincl2, HinC in Hx.
        destruct Hx as [-> | Hx]; [now left | now right]. }
      pose proof (rank_owner x o Hxd Ho) as Hlt.
      split; [|lia].
      intros [<- | HxT]; [lia|].
      destruct (tree_order_owner h _ _ x Htree HxT) as (o' & Ho' & Hin').
      apply Hon. assert (o' = o) by congruence. subst o'. exact Hin'. }
  assert (Hdis : forall x, In x (pw :: T2) -> ~ In x (w :: T')).
  { intros x [<- | Hx]; [assumption | now apply Hdis2]. }
  unfold lifted. repeat split.
  - rewrite Hc1, Hc, unmoved_app, unmoved_unmoved.
    rewrite (unmoved_id (pw :: T2) (w :: T')).
    + rewrite <- app_assoc. reflexivity.
    + intros x Hx Hx2. now apply (Hdis x).
  - change (NoDup ((w :: T') ++ pw :: T2)).
    apply NoDup_app; try assumption.
    intros x Hx Hx2. now apply (Hdis x).
  - apply tree_order_app; [assumption|]. simpl. split.
    + exists w. split; [assumption|]. apply in_or_app. right. now left.
    + apply tree_order_incl with (seen := [pw]); [|assumption].
      intros y [<- | []]. now left.
  - intros x Hx. apply in_app_or in Hx as [Hx | [<- | Hx]];
      [now apply Hincl | assumption |].
    pose proof (Hdis x (or_intror Hx)) as Hn.
    apply Hincl2, HinC in Hx. destruct Hx as [-> | Hx]; [|assumption].
    exfalso. apply Hn. now left.
  - intros p o Hp Ho Hin.
    change (In p ((w :: T') ++ pw :: T2)). apply in_or_app.
    apply in_app_or in Hin as [Hin | Hin].
    + left. now apply (Hclo p o).
    + destruct (in_dec Nat.eq_dec p (w :: T')) as [Hy | Hn]; [now left|].
      right. assert (Hpc : In p c) by (apply HinC; now right).
      destruct Hin as [<- | Hin].
      * now apply Hclo2.
      * now apply (Hclo2' p o).
Qed.

(** The [do ... while] loop ends within [length (unmoved ...)] rounds. *)
Lemma rescan_total :
  forall rec w ch,
    In w ch -> incl ch dom ->
    (forall pw c, In pw c -> incl c dom -> rank pw < rank w ->
                  length c <= length ch ->
                  exists c', rec pw c = Some c' /\ lifted_closed h pw c c') ->
    forall n T' c,
      lifted h w ch T' c ->
      length (unmoved (w :: T') ch) < n ->
      exists c', rescan h rec n w c = Some c' /\ lifted_closed h w ch c'.
Proof.
  intros rec w ch Hw Hdom Hrec.
  induction n as [|n IH]; intros T' c Hl Hlen; [lia|].
  pose proof (lifted_In _ _ _ _ _ Hl) as HinC.
  pose proof (lifted_length _ _ _ _ _ Hl Hw) as HlenC.
  pose proof Hl as (Hc & Hnd & Htree & Hincl & Hclo).
  simpl.
  assert (Hbase : find_baseIndex w c 0 0 = length (unmoved (w :: T') ch)).
  { rewrite Hc, find_baseIndex_last; [reflexivity|].
    now inversion Hnd. }
  rewrite Hbase.
  destruct (scan_popup h w (length (unmoved (w :: T') ch)) c 0) as [pw|]
    eqn:Escan.
  - apply scan_popup_Some in Escan as (A & B & HAB & Hlt & Hown).
    assert (HpwU : In pw (unmoved (w :: T') ch)).
    { rewrite Hc in HAB. apply (split_left_In _ _ _ _ _ HAB).
      simpl in Hlt. lia. }
    apply unmoved_In in HpwU as [Hpw Hpwn].
    assert (Hrank_pw : rank pw < rank w) by (apply rank_owner; auto).
    destruct (Hrec pw c) as (c1 & Hc1 & T2 & Hl2 & Hclo2); try assumption.
    + apply HinC. now right.
    + intros x Hx. apply HinC in Hx as [-> | Hx]; auto.
    + rewrite Hc1.
      apply (IH (T' ++ pw :: T2) c1).
      * apply lifted_extend with (c := c); try assumption.
        intros x [<- | Hx]; auto.
      * assert (length (unmoved ((w :: T') ++ pw :: T2) ch)
                < length (unmoved (w :: T') ch)).
        { apply unmoved_shrink with (x := pw); try assumption. now left. }
        simpl in *. lia.
  - exists c. split; [reflexivity|]. exists T'. split; [assumption|].
    intros p Hp Ho.
    destruct (in_dec Nat.eq_dec p (w :: T')) as [Hy | Hn]; [assumption|].
    exfalso.
    assert (HpU : In p (unmoved (w :: T') ch)) by (apply unmoved_In; auto).
    apply in_split in HpU as (A & B & HU).
    apply (scan_popup_None h _ _ _ _ Escan A p (B ++ w :: T')).
    + rewrite Hc, HU, <- app_assoc. reflexivity.
    + rewrite HU, length_app. simpl. lia.
    + assumption.
Qed.

(** Enough fuel gives a result, and the result has the block shape. *)
Lemma moveWindowToFront_total : forall fuel w ch,
  incl (w :: ch) dom ->
  rank w + length (erase w ch ++ [w]) < fuel ->
  exists c', moveWindowToFront h fuel w ch = Some c' /\
             lifted_closed h w ch c'.
Proof.
  induction fuel as [|f IH]; intros w ch Hdom Hfuel; [lia|].
  simpl.
  set (ch0 := erase w ch ++ [w]) in *.
  assert (Hw0 : In w ch0) by (apply in_or_app; right; now left).
  assert (Hdom0 : incl ch0 dom).
  { intros x Hx. apply Hdom. apply in_app_or in Hx as [Hx | [<- | []]].
    - right. now apply erase_In in Hx.
    - now left. }
  destruct (rescan_total (moveWindowToFront h f) w ch0 Hw0 Hdom0) with
    (n := f) (T' := @nil nat) (c := ch0) as (c' & Hc' & Hpost).
  - intros pw c Hpw Hc Hrank Hlen.
    apply IH.
    + intros x [<- | Hx]; auto.
    + pose proof (erase_front_length pw c Hpw). lia.
  - apply lifted_front.
  - pose proof (unmoved_length_lt [w] ch0 w Hw0 (or_introl eq_refl)). lia.
  - exists c'. split; [assumption|]. now apply lifted_closed_front.
Qed.

(** The block shape keeps popups above their owners. *)
Lemma lifted_closed_stacked : forall w ch c',
  incl (w :: ch) dom ->
  stacked h ch -> lifted_closed h w ch c' -> stacked h c'.
Proof.
  intros w ch c' Hdom Hst (T' & Hl & Hclo_w).
  assert (Hdom' : incl ch dom) by (intros x Hx; apply Hdom; now right).
  pose proof (lifted_rank _ _ _ _ Hdom' Hl) as Hrank.
  destruct Hl as (-> & Hnd & Htree & Hincl & Hclo).
  apply stacked_app. split; [now apply stacked_filter|]. split.
  - simpl. split.
    + intros o Ho Hin.
      assert (rank w < rank o)
        by (apply rank_owner; [apply Hdom; now left | assumption]).
      destruct Hin as [<- | Hin]; [lia|].
      specialize (Hrank o Hin). lia.
    + inversion Hnd as [|? ? Hw Hnd']; subst.
      apply tree_order_stacked with (seen := [w]); try assumption.
      intros s [<- | []]. assumption.
  - intros x o Hx Ho Hin. apply unmoved_In in Hx as [Hx Hxn].
    apply Hxn. destruct Hin as [<- | Hin].
    + now apply Hclo_w.
    + now apply (Hclo x o).
Qed.

End StackingAcyclic.

Section StackingFuel.

Import Stacking.

Variable h : Heap.

Lemma rescan_mono : forall rec rec',
  (forall w c r, rec w c = Some r -> rec' w c = Some r) ->
  forall n n' w c r,
    n <= n' -> rescan h rec n w c = Some r -> rescan h rec' n' w c = Some r.
Proof.
  intros rec rec' Hrec. induction n as [|n IH]; intros n' w c r Hle H;
    [discriminate|].
  destruct n' as [|n']; [lia|]. simpl in *.
  destruct (scan_popup h w (find_baseIndex w c 0 0) c 0) as [pw|];
    [|assumption].
  destruct (rec pw c) as [c1|] eqn:E; [|discriminate].
  rewrite (Hrec _ _ _ E). apply IH; [lia | assumption].
Qed.

(** More fuel never changes an answer. *)
Lemma moveWindowToFront_mono : forall f f' w c r,
  f <= f' ->
  moveWindowToFront h f w c = Some r -> moveWindowToFront h f' w c = Some r.
Proof.
  induction f as [|f IH]; intros f' w c r Hle H; [discriminate|].
  destruct f' as [|f']; [lia|]. simpl in *.
  apply rescan_mono with (rec := moveWindowToFront h f) (n := f);
    [|lia|assumption].
  intros w' c' r'. apply IH. lia.
Qed.

Lemma moveWindowsToFront_mono : forall ws f f' c r,
  f <= f' ->
  moveWindowsToFront h f ws c = Some r ->
  moveWindowsToFront h f' ws c = Some r.
Proof.
  induction ws as [|w ws IH]; intros f f' c r Hle H; simpl in *;
    [assumption|].
  destruct (moveWindowToFront h f w c) as [c1|] eqn:E; [|discriminate].
  rewrite (moveWindowToFront_mono f f' w c c1 Hle E). now apply IH with f.
Qed.

End StackingFuel.

(** ** Claims about window stacking *)

Section StackingClaims.

Import Stacking.

Lemma rank_popup_ok : forall p o,
  popupOwner heap_popup p = Some o -> rank_popup p < rank_popup o.
Proof.
  intros p o.
  destruct p as [|[|[|[|p]]]]; vm_compute; intros H; try discriminate.
  injection H as <-. lia.
Defined.

Lemma heap_cycle_diverges : forall fuel,
  moveWindowToFront heap_cycle fuel 1 [2; 1] = None /\
  moveWindowToFront heap_cycle fuel 2 [2; 1] = None /\
  moveWindowToFront heap_cycle fuel 1 [1; 2] = None /\
  moveWindowToFront heap_cycle fuel 2 [1; 2] = None.
Proof.
  induction fuel as [|f (H1 & H2 & H3 & H4)]; [repeat split|].
  destruct f as [|f]; [repeat split|].
  repeat split.
  - change (moveWindowToFront heap_cycle (S (S f)) 1 [2; 1])
      with (match moveWindowToFront heap_cycle (S f) 2 [2; 1] with
            | None => None
            | Some c => rescan heap_cycle (moveWindowToFront heap_cycle (S f))
                          f 1 c
            end).
    now rewrite H2.
  - change (moveWindowToFront heap_cycle (S (S f)) 2 [2; 1])
      with (match moveWindowToFront heap_cycle (S f) 1 [1; 2] with
            | None => None
            | Some c => rescan heap_cycle (moveWindowToFront heap_cycle (S f))
                          f 2 c
            end).
    now rewrite H3.
  - change (moveWindowToFront heap_cycle (S (S f)) 1 [1; 2])
      with (match moveWindowToFront heap_cycle (S f) 2 [2; 1] with
            | None => None
            | Some c => rescan heap_cycle (moveWindowToFront heap_cycle (S f))
                          f 1 c
            end).
    now rewrite H2.
  - change (moveWindowToFront heap_cycle (S (S f)) 2 [1; 2])
      with (match moveWindowToFront heap_cycle (S f) 1 [1; 2] with
            | None => None
            | Some c => rescan heap_cycle (moveWindowToFront heap_cycle (S f))
                          f 2 c
            end).
    now rewrite H3.
Qed.

(** C1, as stated, fails: with the child sequence [popup 2; window 1;
    window 3], where popup [2] is owned by window [1], bringing window
    [3] to the front returns the sequence unchanged, and popup [2] still
    sits below its owner.  With two popups that own each other the call
    never returns, whatever the fuel. *)
Lemma C1_popup_left_below_owner :
  moveWindowsToFront heap_popup 2 [3] [2; 1; 3] = Some [2; 1; 3] /\
  ~ popups_above_owner heap_popup [2; 1; 3] /\
  (forall fuel, moveWindowToFront heap_cycle fuel 1 [2; 1] = None).
Proof.
  split; [reflexivity|]. split.
  - intros H. specialize (H 0 1 2 1 eq_refl eq_refl eq_refl). lia.
  - intros fuel. apply heap_cycle_diverges.
Qed.

(** C1 (amended): when popup ownership among the widgets involved is
    acyclic and every popup of the child sequence already lies above its
    owner, every call of a sequence of [moveWindowToFront] calls returns
    (with enough fuel, and more fuel gives the same answer), and in the
    resulting child sequence every popup whose owner is present has a
    greater index than its owner, nested popups included. *)
Theorem moveWindowsToFront_popups_above_owner :
  forall (h : Heap) (rank : WidgetRef -> nat)
         (windows children : list WidgetRef),
    (forall p o, In p (windows ++ children) ->
                 popupOwner h p = Some o -> rank p < rank o) ->
    popups_above_owner h children ->
    exists fuel children',
      (forall f, fuel <= f ->
         moveWindowsToFront h f windows children = Some children') /\
      popups_above_owner h children'.
Proof.
  intros h rank windows.
  induction windows as [|w ws IH]; intros children Hrank Hst.
  - exists 0, children. split; [reflexivity | assumption].
  - set (fuel1 := S (rank w + length (erase w children ++ [w]))).
    destruct (moveWindowToFront_total h rank ((w :: ws) ++ children) Hrank
                fuel1 w children) as (c1 & Hc1 & Hpost).
    + intros x [<- | Hx]; [now left | right; apply in_or_app; now right].
    + unfold fuel1. lia.
    + assert (Hin1 : forall x, In x c1 -> x = w \/ In x children).
      { destruct Hpost as (T' & Hl & _). apply (lifted_In _ _ _ _ _ Hl). }
      assert (Hst1 : popups_above_owner h c1).
      { apply stacked_iff.
        apply (lifted_closed_stacked h rank ((w :: ws) ++ children) Hrank
                 w children c1); [| now apply stacked_iff | assumption].
        intros x [<- | Hx]; [now left | right; apply in_or_app; now right]. }
      destruct (IH c1) as (fuel2 & c2 & Hrun & Hst2); [|assumption|].
      * intros p o Hp. apply Hrank.
        apply in_app_or in Hp as [Hp | Hp].
        -- right. apply in_or_app. now left.
        -- apply Hin1 in Hp as [-> | Hp]; [now left|].
           right. apply in_or_app. now right.
      * exists (Nat.max fuel1 fuel2), c2. split; [|assumption].
        intros f Hf. simpl.
        rewrite (moveWindowToFront_mono h fuel1 f w children c1) by
          (assumption || lia).
        apply Hrun. lia.
Qed.

Lemma moveWindowsToFront_popups_above_owner_witness :
  exists fuel children',
    (forall f, fuel <= f ->
       moveWindowsToFront heap_popup f [1; 3] [1; 2; 3] = Some children') /\
    popups_above_owner heap_popup children'.
Proof.
  apply (moveWindowsToFront_popups_above_owner heap_popup rank_popup
           [1; 3] [1; 2; 3]).
  - intros p o _. apply rank_popup_ok.
  - intros i j p o Hi Hj.
    destruct i as [|[|[|i]]]; simpl in Hi; try (now destruct i);
      injection Hi as <-; vm_compute; intros Ho; try discriminate.
    injection Ho as <-.
    destruct j as [|[|[|j]]]; simpl in Hj; try (now destruct j);
      try discriminate; lia.
Defined.

(** C10, as stated, fails: in the duplicate-free child sequence
    [popup 2; window 1], where popup [2] is owned by window [1], bringing
    window [1] to the front yields [window 1; popup 2]: the target moves
    from index 1 down to index 0.  On the same sequence with two popups
    that own each other the call returns nothing at all. *)
Lemma C10_target_index_decreases :
  NoDup [2; 1] /\ count_occ Nat.eq_dec [2; 1] 1 = 1 /\
  moveWindowToFront heap_popup 3 1 [2; 1] = Some [1; 2] /\
  ~ (forall i j, nth_error [2; 1] i = Some 1 ->
                 nth_error [1; 2] j = Some 1 -> i <= j) /\
  (forall fuel, moveWindowToFront heap_cycle fuel 1 [2; 1] = None).
Proof.
  split; [|split; [reflexivity | split; [reflexivity | split]]].
  - repeat constructor; simpl; intuition discriminate.
  - intros H. specialize (H 1 0 eq_refl eq_refl). lia.
  - intros fuel. apply heap_cycle_diverges.
Qed.

(** C10 (amended): for a duplicate-free child sequence that contains the
    target, and with acyclic popup ownership among its widgets,
    [moveWindowToFront] returns a permutation of the sequence (nothing is
    added, removed or duplicated).  The target's index does not decrease
    provided no widget before it is a popup owned by the target, directly
    or through nested popups. *)
Theorem moveWindowToFront_permutation :
  forall (h : Heap) (rank : WidgetRef -> nat) (window : WidgetRef)
         (children : list WidgetRef),
    NoDup children ->
    In window children ->
    (forall p o, In p children ->
                 popupOwner h p = Some o -> rank p < rank o) ->
    exists fuel children',
      (forall f, fuel <= f ->
         moveWindowToFront h f window children = Some children') /\
      Permutation children children' /\
      (forall i,
         nth_error children i = Some window ->
         (forall k x, k < i -> nth_error children k = Some x ->
                      ~ owned_by h window x) ->
         exists j, nth_error children' j = Some window /\ i <= j).
Proof.
  intros h rank w ch Hnd Hw Hrank.
  set (fuel := S (rank w + length (erase w ch ++ [w]))).
  destruct (moveWindowToFront_total h rank ch Hrank fuel w ch)
    as (c' & Hc' & T' & Hl & Hclo).
  - intros x [<- | Hx]; assumption.
  - unfold fuel. lia.
  - exists fuel, c'. split; [|split].
    + intros f Hf. now apply moveWindowToFront_mono with fuel.
    + pose proof Hl as (-> & HndT & _ & Hincl & _).
      apply unmoved_block_Permutation; try assumption.
      intros x [<- | Hx]; [assumption | now apply Hincl].
    + intros i Hi Hbefore.
      pose proof (lifted_owned h _ _ _ _ Hl) as Howned.
      destruct Hl as (-> & HndT & _ & Hincl & _).
      apply nth_error_split in Hi as (A & B & -> & <-).
      assert (HwA : ~ In w A).
      { apply NoDup_remove_2 in Hnd. intros HA. apply Hnd.
        apply in_or_app. now left. }
      assert (HA : unmoved (w :: T') A = A).
      { apply unmoved_id. intros x Hx [<- | HxT]; [contradiction|].
        apply In_nth_error in Hx as (k & Hk).
        apply (Hbefore k x).
        - apply nth_error_Some. congruence.
        - rewrite nth_error_app1; [assumption|].
          apply nth_error_Some. congruence.
        - now apply Howned. }
      exists (length A + length (unmoved (w :: T') B)). split; [|lia].
      rewrite unmoved_app, HA.
      change (w :: B) with ([w] ++ B). rewrite unmoved_app.
      rewrite (unmoved_nil (w :: T') [w]) by (intros x [<- | []]; now left).
      simpl. rewrite <- app_assoc, nth_error_app2 by lia.
      rewrite nth_error_app2 by lia.
      replace (length A + length (unmoved (w :: T') B) - length A
               - length (unmoved (w :: T') B)) with 0 by lia.
      reflexivity.
Qed.

Lemma moveWindowToFront_permutation_witness :
  exists fuel children',
    (forall f, fuel <= f ->
       moveWindowToFront heap_popup f 1 [1; 2; 3] = Some children') /\
    Permutation [1; 2; 3] children' /\
    (forall i,
       nth_error [1; 2; 3] i = Some 1 ->
       (forall k x, k < i -> nth_error [1; 2; 3] k = Some x ->
                    ~ owned_by heap_popup 1 x) ->
       exists j, nth_error children' j = Some 1 /\ i <= j).
Proof.
  apply (moveWindowToFront_permutation heap_popup rank_popup 1 [1; 2; 3]).
  - repeat constructor; simpl; intuition discriminate.
  - simpl. auto.
  - intros p o _. apply rank_popup_ok.
Defined.

End StackingClaims.

(** ** The input routing registry *)

Section RegistryProofs.

Import Registry.

Variable Args : Type.
Variable W : Type.

Lemma handleEvent_under : forall id (args : Args) (l : Callbacks Args W) w,
  handleEvent id args l w = invoke_all args (under id l) w.
Proof.
  intros id args l. induction l as [|e l IH]; intros w; [reflexivity|].
  simpl. unfold under. simpl.
  destruct (fst e =? id)%Z; simpl.
  - destruct (snd e args w); [apply IH | reflexivity].
  - apply IH.
Qed.

Lemma under_app : forall id (l1 l2 : Callbacks Args W),
  under id (l1 ++ l2) = under id l1 ++ under id l2.
Proof. intros. unfold under. now rewrite filter_app, map_app. Qed.

Lemma under_add : forall id id' cb (l : Callbacks Args W),
  under id (addCallback id' cb l) =
  if (id' =? id)%Z then under id l ++ [cb] else under id l.
Proof.
  intros id id' cb l. unfold addCallback. rewrite under_app.
  unfold under at 2. simpl.
  destruct (id' =? id)%Z; [reflexivity | apply app_nil_r].
Qed.

Lemma under_remove : forall id id' (l : Callbacks Args W),
  under id (removeCallback id' l) =
  if (id' =? id)%Z then tl (under id l) else under id l.
Proof.
  intros id id' l. induction l as [|e l IH]; simpl.
  - now destruct (id' =? id)%Z.
  - destruct (Z.eqb_spec (fst e) id') as [He | He].
    + unfold under. simpl. rewrite He.
      destruct (id' =? id)%Z; reflexivity.
    + unfold under in *. simpl.
      destruct (Z.eqb_spec (fst e) id) as [He' | He']; simpl.
      * rewrite IH. destruct (Z.eqb_spec id' id); [congruence | reflexivity].
      * exact IH.
Qed.

Lemma under_apply_ops : forall id ops (l : Callbacks Args W),
  under id (apply_ops ops l) = fold_left (registered_step id) ops (under id l).
Proof.
  intros id ops. unfold apply_ops.
  induction ops as [|op ops IH]; intros l; [reflexivity|].
  simpl. rewrite IH. f_equal.
  destruct op as [id' cb | id']; simpl.
  - apply under_add.
  - apply under_remove.
Qed.

Lemma under_none : forall id (l : Callbacks Args W),
  existsb (fun e => (fst e =? id)%Z) l = false -> under id l = [].
Proof.
  intros id l. induction l as [|e l IH]; intros H; [reflexivity|].
  simpl in H. apply orb_false_iff in H as [He Hl].
  unfold under in *. simpl. rewrite He. now apply IH.
Qed.

Lemma removeCallback_absent : forall id (l : Callbacks Args W),
  (forall e, In e l -> fst e <> id) -> removeCallback id l = l.
Proof.
  intros id l. induction l as [|e l IH]; intros H; [reflexivity|].
  simpl. destruct (Z.eqb_spec (fst e) id) as [He | He].
  - exfalso. apply (H e); [now left | assumption].
  - f_equal. apply IH. intros e' He'. apply H. now right.
Qed.

Lemma removeCallback_first : forall id (l1 : Callbacks Args W) cb l2,
  (forall e, In e l1 -> fst e <> id) ->
  removeCallback id (l1 ++ (id, cb) :: l2) = l1 ++ l2.
Proof.
  intros id l1 cb l2. induction l1 as [|e l1 IH]; intros H; simpl.
  - now rewrite Z.eqb_refl.
  - destruct (Z.eqb_spec (fst e) id) as [He | He].
    + exfalso. apply (H e); [now left | assumption].
    + f_equal. apply IH. intros e' He'. apply H. now right.
Qed.

End RegistryProofs.

Section RegistryClaims.

Import Registry.


(** C7, as stated, fails for one category: [handleFramebufferSizeEvent]
    does not pass its arguments on unchanged.  A callback registered for
    framebuffer sizes receives [800] for the argument [800.5], the same
    as for the argument [800]. *)
Lemma C7_framebuffer_arguments_converted :
  handleFramebufferSizeEvent 1 d800_5 d600 d1 (addCallback 1 log_args []) []
  = handleFramebufferSizeEvent 1 d800 d600 d1 (addCallback 1 log_args []) []
  /\ handleFramebufferSizeEvent 1 d800_5 d600 d1
       (addCallback 1 log_args []) []
     = Some (Done [(800%Z, 600%Z, double_to_float d1)])
  /\ d800_5 <> d800.
Proof.
  split; [reflexivity|]. split; [reflexivity | discriminate].
Qed.

(** C7 (amended): in every category, after any sequence of add and
    remove operations, the handler calls exactly the callbacks currently
    registered under the given screen id, in insertion order and all with
    the same arguments, and none registered under another id (a callback
    that throws ends the calls: nothing is caught here); a remove drops
    only the first entry with the given id and changes nothing when there
    is none.  The handlers of six categories pass their arguments on as
    they are; [handleFramebufferSizeEvent] converts its [(double, double,
    double)] to the callbacks' [(int, int, float)] first. *)
Theorem registry_dispatch :
  forall (Args W : Type) (ops : list (Op Args W)) (id : Z) (args : Args)
         (w : W),
    handleEvent id args (apply_ops ops []) w
    = invoke_all args (registered id ops) w
    /\ (forall l : Callbacks Args W,
          (forall e, In e l -> fst e <> id) -> removeCallback id l = l)
    /\ (forall (l1 : Callbacks Args W) cb l2,
          (forall e, In e l1 -> fst e <> id) ->
          removeCallback id (l1 ++ (id, cb) :: l2) = l1 ++ l2)
    /\ (forall (fops : list (Op (Z * Z * float) W)) x y pixelRatio ix iy,
          float_to_int x = Some ix -> float_to_int y = Some iy ->
          handleFramebufferSizeEvent id x y pixelRatio (apply_ops fops []) w
          = Some (invoke_all (ix, iy, double_to_float pixelRatio)
                    (registered id fops) w)).
Proof.
  intros Args W ops id args w. repeat split.
  - rewrite handleEvent_under, under_apply_ops. reflexivity.
  - apply removeCallback_absent.
  - intros l1 cb l2. apply removeCallback_first.
  - intros fops x y pixelRatio ix iy Hx Hy.
    unfold handleFramebufferSizeEvent. rewrite Hx, Hy.
    destruct (existsb _ _) eqn:E.
    + rewrite handleEvent_under, under_apply_ops. reflexivity.
    + apply under_none in E.
      rewrite under_apply_ops in E.
      change (registered id fops = []) in E. rewrite E. reflexivity.
Qed.

Lemma registry_dispatch_witness :
  removeCallback 2 (addCallback 1 (@log_args Z) []) =
  addCallback 1 (@log_args Z) [].
Proof.
  apply (registry_dispatch Z (list Z) [Add 1 (@log_args Z)] 2 0%Z []).
  intros e [<- | []]. simpl. discriminate.
Defined.

End RegistryClaims.

(** ** Keyboard dispatch along the focus path *)

Section KeyboardProofs.

Import ScreenImpl.
Local Open Scope screen_scope.


Lemma firstn_snoc : forall (l : list WidgetRef) i w,
  nth_error l i = Some w -> firstn (S i) l = firstn i l ++ [w].
Proof.
  induction l as [|a l IH]; intros i w H; [now destruct i|].
  destruct i as [|i]; simpl in *.
  - now injection H as ->.
  - f_equal. now apply IH.
Qed.

Lemma path_eqb_eq : forall a b, path_eqb a b = true <-> a = b.
Proof.
  induction a as [|x a IH]; intros [|y b]; simpl; split; intros H;
    try reflexivity; try discriminate.
  - apply andb_true_iff in H as [Hx Ha]. apply Nat.eqb_eq in Hx.
    apply IH in Ha. now subst.
  - injection H as -> ->. rewrite Nat.eqb_refl. now apply IH.
Qed.

Lemma path_eqb_refl : forall a, path_eqb a a = true.
Proof. intros a. now apply path_eqb_eq. Qed.

Lemma focus_loop_changed : forall env mk path k s t,
  mFocusPath s <> path -> focus_loop env mk path k s t = Undefined.
Proof.
  intros env mk path k s t H.
  destruct k; simpl; unfold bind, get;
    (destruct (path_eqb (mFocusPath s) path) eqn:E;
     [apply path_eqb_eq in E; contradiction | reflexivity]).
Qed.

Lemma focus_loop_step : forall env mk path i s t w,
  mFocusPath s = path ->
  nth_error path i = Some w ->
  focus_loop env mk path (S i) s t
  = if mFocused (heap s w) then
      match deliver (tree env) (mk w) s with
      | Returns true s1 => Return true s1 (t ++ [(mk w, s)])
      | Returns false s1 => focus_loop env mk path i s1 (t ++ [(mk w, s)])
      | Throws e s1 => Propagate e s1 (t ++ [(mk w, s)])
      end
    else focus_loop env mk path i s t.
Proof.
  intros env mk path i s t w Hs E.
  simpl focus_loop. unfold bind at 1. unfold get at 1.
  rewrite Hs, path_eqb_refl, E. cbn [negb].
  destruct (mFocused (heap s w)); [|reflexivity].
  unfold bind, call.
  destruct (deliver (tree env) (mk w) s) as [[|] s1 | e s1]; reflexivity.
Qed.

Lemma focus_loop_walk : forall env mk path,
  declining_keeps_path env mk ->
  forall k s t,
    mFocusPath s = path ->
    k <= length path ->
    focus_loop env mk path k s t
    = walk_focused env mk (rev (firstn k path)) s t.
Proof.
  intros env mk path Hkeep. induction k as [|i IH]; intros s t Hs Hk.
  - simpl. unfold bind, get. now rewrite Hs, path_eqb_refl.
  - simpl focus_loop. unfold bind at 1. unfold get at 1.
    rewrite Hs, path_eqb_refl. cbn [negb].
    destruct (nth_error path i) as [w|] eqn:E.
    + rewrite (firstn_snoc _ _ _ E), rev_app_distr. simpl.
      unfold bind, get. destruct (mFocused (heap s w)).
      * unfold call.
        destruct (deliver (tree env) (mk w) s) as [[|] s' | e s'] eqn:Ed;
          try reflexivity.
        apply IH; [|lia]. rewrite <- Hs. now apply (Hkeep w).
      * apply IH; [assumption | lia].
    + apply nth_error_None in E. lia.
Qed.

(** C3, as stated, fails: with the focus path [button 2; window 1;
    screen 0] and handlers that all report the event handled, the window
    gets the key event and the button, the leaf, gets none; a walk from
    the leaf rootward would hand it to the button. *)
Lemma C3_window_before_leaf :
  keyboardEvent (test_env None true) 65 0 1 0 (screen_focus false) []
  = Return true (screen_focus false)
      [(KeyboardEvent 1 65 0 1 0, screen_focus false)]
  /\ keyboardEvent_leaf_rootward (test_env None true) 65 0 1 0
       (screen_focus false) []
     = Return true (screen_focus false)
         [(KeyboardEvent 2 65 0 1 0, screen_focus false)]
  /\ keyboardEvent (test_env None true) 65 0 1 0 (screen_focus false) []
     <> keyboardEvent_leaf_rootward (test_env None true) 65 0 1 0
          (screen_focus false) [].
Proof.
  split; [reflexivity|]. split; [reflexivity|].
  intros H. cbv in H. discriminate H.
Qed.

(** C3 (amended): a keyboard event, and likewise a character event, is
    offered to the entries of the focus path other than the last one (the
    screen itself), in the reverse of their stored order, that is from
    the entry next to the screen down to the leaf; entries whose
    [focused()] flag is not set are skipped; the walk stops at the first
    handler that reports the event handled.  This holds provided the
    handlers that decline the event leave the focus path as it is: the
    loop iterates the member vector itself, so a change of the path
    under it invalidates its iterator.  With an empty focus path nothing
    is delivered and the event is unhandled, whatever the handlers
    are. *)
Theorem keyboard_dispatch_root_to_leaf :
  forall (env : Env) (key scancode action modifiers codepoint : Z)
         (s : Screen) (t : Trace),
    (declining_keeps_path env
       (fun w => KeyboardEvent w key scancode action modifiers) ->
     keyboardEvent env key scancode action modifiers s t
     = walk_focused env
         (fun w => KeyboardEvent w key scancode action modifiers)
         (rev (removelast (mFocusPath s))) s t)
    /\ (declining_keeps_path env
          (fun w => KeyboardCharacterEvent w codepoint) ->
        keyboardCharacterEvent env codepoint s t
        = walk_focused env (fun w => KeyboardCharacterEvent w codepoint)
            (rev (removelast (mFocusPath s))) s t)
    /\ (mFocusPath s = [] ->
        keyboardEvent env key scancode action modifiers s t
        = Return false s t
        /\ keyboardCharacterEvent env codepoint s t = Return false s t).
Proof.
  intros env key scancode action modifiers codepoint s t.
  split; [|split;
    [|intros E; unfold keyboardEvent, keyboardCharacterEvent, bind, get;
      rewrite E; split; reflexivity]].
  - intros Hkeep. unfold keyboardEvent, bind, get.
    destruct (mFocusPath s) as [|a l] eqn:E; [reflexivity|].
    rewrite <- E. replace (0 <? length (mFocusPath s)) with true
      by (rewrite E; reflexivity).
    rewrite (focus_loop_walk env _ (mFocusPath s) Hkeep)
      by (reflexivity || lia).
    rewrite removelast_firstn_len. now rewrite Nat.sub_1_r.
  - intros Hkeep. unfold keyboardCharacterEvent, bind, get.
    destruct (mFocusPath s) as [|a l] eqn:E; [reflexivity|].
    rewrite <- E. replace (0 <? length (mFocusPath s)) with true
      by (rewrite E; reflexivity).
    rewrite (focus_loop_walk env _ (mFocusPath s) Hkeep)
      by (reflexivity || lia).
    rewrite removelast_firstn_len. now rewrite Nat.sub_1_r.
Qed.

(** On the path [button 2; window 1; screen 0] with handlers that
    decline and change nothing, the window gets the event, then the
    button, and the event is unhandled; on the empty path nothing is
    delivered. *)
Lemma keyboard_dispatch_root_to_leaf_witness :
  (keyboardEvent (test_env None false) 65 0 1 0 (screen_focus false) []
   = walk_focused (test_env None false)
       (fun w => KeyboardEvent w 65 0 1 0) [1; 2] (screen_focus false) []
   /\ keyboardEvent (test_env None false) 65 0 1 0 (screen_focus false) []
      = Return false (screen_focus false)
          [(KeyboardEvent 1 65 0 1 0, screen_focus false);
           (KeyboardEvent 2 65 0 1 0, screen_focus false)])
  /\ keyboardCharacterEvent (test_env None false) 97 (screen_focus false) []
     = Return false (screen_focus false)
         [(KeyboardCharacterEvent 1 97, screen_focus false);
          (KeyboardCharacterEvent 2 97, screen_focus false)]
  /\ keyboardEvent (test_env None true) 65 0 1 0
       (set_mFocusPath [] (screen_focus false)) []
     = Return false (set_mFocusPath [] (screen_focus false)) [].
Proof.
  assert (Hkeep : forall mk, declining_keeps_path (test_env None false) mk).
  { intros mk w s s' H. simpl in H. now injection H as <-. }
  destruct (keyboard_dispatch_root_to_leaf (test_env None false) 65 0 1 0 97
              (screen_focus false) []) as (Hkey & Hchar & _).
  destruct (keyboard_dispatch_root_to_leaf (test_env None true) 65 0 1 0 97
              (set_mFocusPath [] (screen_focus false)) [])
    as (_ & _ & Hempty).
  split; [split|split].
  - exact (Hkey (Hkeep _)).
  - rewrite (Hkey (Hkeep _)). reflexivity.
  - rewrite (Hchar (Hkeep _)). reflexivity.
  - exact (proj1 (Hempty eq_refl)).
Defined.

End KeyboardProofs.

(** ** The event callbacks *)

Section CallbackProofs.

Import ScreenImpl.
Local Open Scope screen_scope.

(** C4, as stated, fails: a resize to width 0 and height 0 arriving at
    a screen of logical size 800 x 600 leaves the screen with the logical
    size 0 x 0 (and with the new pixel ratio): the size is overwritten
    before it is tested. *)
Lemma C4_resize_overwrites_size :
  resizeCallbackEvent (test_env None true) 0 0 f2 (screen_focus false) []
  = Return false
      (set_mPixelRatio f2 (set_mSize (0, 0)%Z (screen_focus false))) []
  /\ mSize (screen_focus false) = (800, 600)%Z
  /\ mSize (set_mPixelRatio f2 (set_mSize (0, 0)%Z (screen_focus false)))
     <> mSize (screen_focus false).
Proof.
  split; [reflexivity|]. split; [reflexivity | discriminate].
Qed.

(** C4 (amended): a resize event with width 0 and height 0 is not
    forwarded to the widget tree, returns [false] and leaves the
    [lastInteraction] timestamp unchanged; it does overwrite the logical
    size, with (0, 0), and the pixel ratio, with the new one.  On the
    builds that divide by the pixel ratio this holds whenever the pixel
    ratio converts to a non-zero [int]. *)
Theorem resize_degenerate :
  forall (env : Env) (pixelRatio : float) (s : Screen) (t : Trace),
    (scaled env = true ->
     exists k, float_to_int pixelRatio = Some k /\ k <> 0%Z) ->
    exists s',
      resizeCallbackEvent env 0 0 pixelRatio s t = Return false s' t
      /\ mLastInteraction s' = mLastInteraction s
      /\ mSize s' = (0, 0)%Z
      /\ mPixelRatio s' = pixelRatio
      /\ s' = set_mPixelRatio pixelRatio (set_mSize (0, 0)%Z s).
Proof.
  intros env pixelRatio s t Hk.
  exists (set_mPixelRatio pixelRatio (set_mSize (0, 0)%Z s)).
  split; [|repeat split].
  unfold resizeCallbackEvent, bind, modify, get, ret.
  destruct (scaled env); [|reflexivity].
  destruct (Hk eq_refl) as (k & Hconv & Hnz).
  simpl. unfold Vector2i_div. rewrite Hconv. simpl.
  unfold int_div. apply Z.eqb_neq in Hnz. rewrite Hnz. simpl.
  reflexivity.
Qed.

Lemma resize_degenerate_witness :
  exists s',
    resizeCallbackEvent (test_env None true) 0 0 f2 (screen_focus false) []
    = Return false s' []
    /\ mLastInteraction s' = mLastInteraction (screen_focus false)
    /\ mSize s' = (0, 0)%Z
    /\ mPixelRatio s' = f2
    /\ s' = set_mPixelRatio f2 (set_mSize (0, 0)%Z (screen_focus false)).
Proof.
  apply (resize_degenerate (test_env None true) f2 (screen_focus false) []).
  intros _. exists 2%Z. split; [reflexivity | discriminate].
Defined.

(** C5: while the entry [mFocusPath[size - 2]] is a modal window that
    does not contain the mouse position, a mouse-button event is dropped:
    the callback returns [false] (or, when [getTime] throws, because no
    time callback is installed or because the installed one throws, it
    lets that exception out) without delivering any event, and the drag
    flag, the drag widget and the focus path are as before. *)
Theorem mouseButton_modal_gate :
  forall (env : Env) (button action modifiers : Z) (s : Screen) (t : Trace)
         (w : WidgetRef),
    1 < length (mFocusPath s) ->
    nth_error (mFocusPath s) (length (mFocusPath s) - 2) = Some w ->
    dynamic_cast_Window (heap s) w = Some true ->
    contains (tree env) (heap s) w (mMousePos s) = false ->
    exists s',
      (mouseButtonCallbackEvent env button action modifiers s t
       = Return false s' t
       \/ (exists e,
             getTime (constants env) = inl e /\
             mouseButtonCallbackEvent env button action modifiers s t
             = Propagate e s' t))
      /\ mDragActive s' = mDragActive s
      /\ mDragWidget s' = mDragWidget s
      /\ mFocusPath s' = mFocusPath s.
Proof.
  intros env button action modifiers s t w Hlen Hnth Hwin Hout.
  unfold mouseButtonCallbackEvent, touch.
  destruct (getTime (constants env)) as [e|ticks] eqn:Eclock.
  - exists (set_mModifiers modifiers s).
    split; [right | repeat split].
    exists e. split; reflexivity.
  - exists (set_mLastInteraction ticks (set_mModifiers modifiers s)).
    split; [left | repeat split].
    unfold bind, modify, try_catch_abort, get, ret, outside_modal. simpl.
    apply Nat.ltb_lt in Hlen. rewrite Hlen, Hnth, Hwin, Hout. reflexivity.
Qed.

Lemma mouseButton_modal_gate_witness :
  exists s',
    (mouseButtonCallbackEvent (test_env (Some 1) true) 0 1 0
       (screen_focus true) []
     = Return false s' []
     \/ (exists e,
           getTime (constants (test_env (Some 1) true)) = inl e /\
           mouseButtonCallbackEvent (test_env (Some 1) true) 0 1 0
             (screen_focus true) []
           = Propagate e s' []))
    /\ mDragActive s' = mDragActive (screen_focus true)
    /\ mDragWidget s' = mDragWidget (screen_focus true)
    /\ mFocusPath s' = mFocusPath (screen_focus true).
Proof.
  apply (mouseButton_modal_gate (test_env (Some 1) true) 0 1 0
           (screen_focus true) [] 1).
  - simpl. lia.
  - reflexivity.
  - reflexivity.
  - reflexivity.
Defined.


(** C6, as stated, fails: not every cursor move that arrives while a
    drag is active hands the drag widget a drag event.  With the button
    [2] captured and no time callback installed, [getTime] throws before
    the [try] block: nothing is delivered and the recorded mouse position
    stays.  With the drag flag set and the drag widget null (the state
    [disposeWindow] leaves behind), the call goes through the null
    pointer. *)
Lemma C6_no_drag_event_delivered :
  (mDragActive screen_drag = true
   /\ mDragWidget screen_drag = Some 2
   /\ cursorPosCallbackEvent
        (mkEnv (mkConstants 0 1 1 0 None) true (test_tree None false))
        d800 d600 screen_drag []
      = Propagate (std_exception "getTimeCallback not initialized")
          screen_drag [])
  /\ mDragActive (set_mDragWidget None screen_drag) = true
  /\ mDragWidget (set_mDragWidget None screen_drag) = None
  /\ cursorPosCallbackEvent (test_env None false) d800 d600
       (set_mDragWidget None screen_drag) []
     = Undefined.
Proof. repeat split. Qed.

(** C6 (amended): let a cursor move arrive while a drag is active on a
    drag widget that is not null and has a parent, with coordinate
    conversions that are defined and a time callback that returns.  The
    drag widget is first handed a drag event whose position is the new
    position [p] relative to the absolute position of the drag widget's
    parent and whose delta is [p] minus the recorded mouse position,
    which is still the previous one when the handler is entered.  The
    generic motion event follows exactly when the drag handler returns
    [false]; it is entered with the state the drag handler left.  When
    the last handler called returns, the recorded mouse position becomes
    [p] and nothing else of the state it left is changed; when a handler
    throws, the recorded position is not written, and a
    [std::exception] aborts the process. *)
Theorem cursorPos_drag :
  forall (env : Env) (x y : double) (s : Screen) (t : Trace)
         (w parent : WidgetRef) (p0 : Vector2i) (ticks : double),
    mDragActive s = true ->
    mDragWidget s = Some w ->
    mParent (heap s w) = Some parent ->
    device_to_logical env x y s t = Return p0 s t ->
    getTime (constants env) = inr ticks ->
    let p := Vector2i_sub p0 (1, 2)%Z in
    let s0 := set_mLastInteraction ticks s in
    let drag :=
      MouseDragEvent w
        (Vector2i_sub p (absolutePosition (tree env) (heap s) parent))
        (Vector2i_sub p (mMousePos s)) (mMouseState s) (mModifiers s) in
    let moved := fun s1 : Screen =>
      mkScreen (this s1) (heap s1) (mChildren s1) (mFocusPath s1)
        (mSize s1) (mPixelRatio s1) p (mMouseState s1) (mModifiers s1)
        (mDragActive s1) (mDragWidget s1) (mLastInteraction s1)
        (mCursor s1) in
    mMousePos s0 = mMousePos s /\
    match deliver (tree env) drag s0 with
    | Returns true s1 =>
        cursorPosCallbackEvent env x y s t
        = Return true (moved s1) (t ++ [(drag, s0)])
    | Returns false s1 =>
        let motion :=
          MouseMotionEvent p (Vector2i_sub p (mMousePos s1))
            (mMouseState s1) (mModifiers s1) in
        match deliver (tree env) motion s1 with
        | Returns handled s2 =>
            cursorPosCallbackEvent env x y s t
            = Return handled (moved s2)
                (t ++ [(drag, s0); (motion, s1)])
        | Throws (std_exception what) s2 =>
            cursorPosCallbackEvent env x y s t
            = Abort ("Caught exception in event handler: " ++ what) s2
                (t ++ [(drag, s0); (motion, s1)])
        | Throws other_exception s2 =>
            cursorPosCallbackEvent env x y s t
            = Propagate other_exception s2 (t ++ [(drag, s0); (motion, s1)])
        end
    | Throws (std_exception what) s1 =>
        cursorPosCallbackEvent env x y s t
        = Abort ("Caught exception in event handler: " ++ what) s1
            (t ++ [(drag, s0)])
    | Throws other_exception s1 =>
        cursorPosCallbackEvent env x y s t
        = Propagate other_exception s1 (t ++ [(drag, s0)])
    end.
Proof.
  intros env x y s t w parent p0 ticks Hactive Hdrag Hparent Hconv Hclock
         p s0 drag moved.
  split; [reflexivity|].
  assert (Hrun : forall o,
            match deliver (tree env) drag s0 with
            | Returns true s1 => Return true (moved s1) (t ++ [(drag, s0)])
            | Returns false s1 =>
                match deliver (tree env)
                        (MouseMotionEvent p (Vector2i_sub p (mMousePos s1))
                           (mMouseState s1) (mModifiers s1)) s1 with
                | Returns handled s2 =>
                    Return handled (moved s2)
                      ((t ++ [(drag, s0)]) ++
                       [(MouseMotionEvent p (Vector2i_sub p (mMousePos s1))
                           (mMouseState s1) (mModifiers s1), s1)])
                | Throws (std_exception what) s2 =>
                    Abort ("Caught exception in event handler: " ++ what) s2
                      ((t ++ [(drag, s0)]) ++
                       [(MouseMotionEvent p (Vector2i_sub p (mMousePos s1))
                           (mMouseState s1) (mModifiers s1), s1)])
                | Throws other_exception s2 =>
                    Propagate other_exception s2
                      ((t ++ [(drag, s0)]) ++
                       [(MouseMotionEvent p (Vector2i_sub p (mMousePos s1))
                           (mMouseState s1) (mModifiers s1), s1)])
                end
            | Throws (std_exception what) s1 =>
                Abort ("Caught exception in event handler: " ++ what) s1
                  (t ++ [(drag, s0)])
            | Throws other_exception s1 =>
                Propagate other_exception s1 (t ++ [(drag, s0)])
            end = o ->
            cursorPosCallbackEvent env x y s t = o).
  { intros o <-.
    unfold cursorPosCallbackEvent.
    unfold bind at 1. rewrite Hconv.
    unfold touch. rewrite Hclock.
    unfold bind at 1. unfold modify at 1.
    fold p. fold s0.
    unfold try_catch_abort, bind, get, drag_origin. simpl.
    rewrite Hactive, Hdrag. simpl. rewrite Hparent.
    unfold call. fold drag.
    destruct (deliver (tree env) drag s0) as [[|] s1 | [what|] s1];
      try reflexivity.
    simpl.
    destruct (deliver (tree env) _ s1) as [handled s2 | [what|] s2];
      reflexivity. }
  destruct (deliver (tree env) drag s0) as [[|] s1 | [what|] s1];
    try (apply Hrun; reflexivity).
  simpl.
  destruct (deliver (tree env) _ s1) as [handled s2 | [what|] s2];
    apply Hrun; now rewrite <- app_assoc.
Qed.

Lemma cursorPos_drag_witness :
  mMousePos (set_mLastInteraction d600 screen_drag) = mMousePos screen_drag /\
  cursorPosCallbackEvent (test_env None false) d800 d600 screen_drag []
  = Return false
      (mkScreen 0 (heap_focus false) [1] [2; 1; 0] (800, 600)%Z f1
         (799, 598)%Z 0 0 true (Some 2) d600 Arrow)
      [(MouseDragEvent 2 (789, 588)%Z (299, 98)%Z 0 0,
        set_mLastInteraction d600 screen_drag);
       (MouseMotionEvent (799, 598)%Z (299, 98)%Z 0 0,
        set_mLastInteraction d600 screen_drag)].
Proof.
  exact (cursorPos_drag (test_env None false) d800 d600 screen_drag [] 2 1
           (800, 600)%Z d600
           eq_refl eq_refl eq_refl eq_refl eq_refl).
Defined.

(** *** Disposal of a window *)

(** What [disposeWindow] does, field by field.  The drag-active flag is
    not among the fields it writes. *)
Lemma disposeWindow_effect : forall (window : WidgetRef) (s : Screen)
    (t : Trace),
  exists s',
    disposeWindow window s t = Return tt s' t
    /\ mFocusPath s' = (if existsb (Nat.eqb window) (mFocusPath s)
                        then [] else mFocusPath s)
    /\ mDragWidget s' = (if WidgetRef_opt_eqb (mDragWidget s) (Some window)
                         then None else mDragWidget s)
    /\ mDragActive s' = mDragActive s
    /\ mChildren s' = Stacking.erase window (mChildren s)
    /\ ~ In window (mChildren s').
Proof.
  intros window s t.
  unfold disposeWindow, removeChild, bind, get, modify, ret.
  destruct (existsb (Nat.eqb window) (mFocusPath s));
    destruct (WidgetRef_opt_eqb (mDragWidget s) (Some window));
    eexists; (split; [reflexivity|]); simpl; repeat split;
    intros Hin; apply erase_In in Hin; tauto.
Qed.


(** C8 at the failing input: disposing of the window that is being
    dragged clears the focus path, detaches the window and resets the
    drag widget, but leaves the drag-active flag set; the next cursor
    move then calls [mouseDragEvent] through the null drag widget. *)
Theorem disposeWindow_keeps_drag_active :
  exists s',
    disposeWindow 1 screen_drag_window [] = Return tt s' []
    /\ mFocusPath s' = []
    /\ mChildren s' = []
    /\ mDragWidget s' = None
    /\ mDragActive s' = true
    /\ cursorPosCallbackEvent (test_env None false) d800 d600 s' []
       = Undefined.
Proof.
  eexists. split; [reflexivity|]. repeat split.
Qed.

(** *** Exceptions raised by handlers *)

(** No [std::exception] leaves a [try] block of the callbacks. *)
Lemma try_catch_abort_catches : forall (A : Type) (body : M A)
    (s : Screen) (t : Trace) (what : string) (s' : Screen) (t' : Trace),
  try_catch_abort body s t <> Propagate (std_exception what) s' t'.
Proof.
  intros A body s t what s' t'. unfold try_catch_abort.
  destruct (body s t) as [a s1 t1 | [what1|] s1 t1 | d s1 t1 | |];
    discriminate.
Qed.


(** C9 at the failing input: [dropCallbackEvent] has no [try] block, so
    an exception thrown by the drop handler reaches the caller, with no
    diagnostic and no abort; the scroll callback, like the other five, on
    the same widget tree reports the exception and aborts. *)
Theorem dropCallbackEvent_propagates :
  dropCallbackEvent throwing_env 1 ["a.txt"%string] (screen_focus false) []
  = Propagate (std_exception "boom") (screen_focus false)
      [(DropEvent ["a.txt"%string], screen_focus false)]
  /\ scrollCallbackEvent throwing_env d1 d1 (screen_focus false) []
     = Abort "Caught exception in event handler: boom"
         (set_mLastInteraction d600 (screen_focus false))
         [(ScrollEvent (500, 500)%Z (f1, f1),
           set_mLastInteraction d600 (screen_focus false))].
Proof.
  split; reflexivity.
Qed.

(** Whatever the drop handler throws leaves [dropCallbackEvent]. *)
Lemma dropCallbackEvent_no_catch : forall (env : Env) (count : Z)
    (filenames : list string) (s : Screen) (t : Trace) (e : exn)
    (s' : Screen),
  (0 <= count <= Z.of_nat (length filenames))%Z ->
  deliver (tree env) (DropEvent (firstn (Z.to_nat count) filenames)) s
  = Throws e s' ->
  dropCallbackEvent env count filenames s t
  = Propagate e s'
      (t ++ [(DropEvent (firstn (Z.to_nat count) filenames), s)]).
Proof.
  intros env count filenames s t e s' Hcount Hthrow.
  unfold dropCallbackEvent.
  replace (count <? 0)%Z with false by (symmetry; apply Z.ltb_ge; lia).
  replace (Z.of_nat (length filenames) <? count)%Z with false
    by (symmetry; apply Z.ltb_ge; lia).
  unfold call. now rewrite Hthrow.
Qed.

End CallbackProofs.

(** ** Focus update *)

Section FocusProofs.

Import ScreenImpl.
Local Open Scope screen_scope.


Lemma same_shape_refl : forall h, same_shape h h.
Proof. intros h r. split; reflexivity. Qed.

Lemma same_shape_trans : forall h1 h2 h3,
  same_shape h1 h2 -> same_shape h2 h3 -> same_shape h1 h3.
Proof.
  intros h1 h2 h3 H12 H23 r. destruct (H12 r), (H23 r). split; congruence.
Qed.

Lemma set_focused_shape : forall w b h, same_shape h (set_focused w b h).
Proof.
  intros w b h r. unfold set_focused. destruct (r =? w); split; reflexivity.
Qed.

Lemma unfocus_shape : forall path h, same_shape h (unfocus h path).
Proof.
  induction path as [|w rest IH]; intros h; simpl; [apply same_shape_refl|].
  destruct (mFocused (h w)); [|apply IH].
  eapply same_shape_trans; [apply set_focused_shape | apply IH].
Qed.

Lemma focus_all_shape : forall l h, same_shape h (focus_all h l).
Proof.
  induction l as [|w rest IH]; intros h; simpl; [apply same_shape_refl|].
  eapply same_shape_trans; [apply set_focused_shape | apply IH].
Qed.

Lemma same_shape_popupOwner : forall h h' r,
  same_shape h h' -> popupOwner h' r = popupOwner h r.
Proof.
  intros h h' r H. unfold popupOwner, dynamic_cast_Popup.
  destruct (H r) as [_ ->]. reflexivity.
Qed.

Lemma same_shape_Window : forall h h' r,
  same_shape h h' -> dynamic_cast_Window h' r = dynamic_cast_Window h r.
Proof.
  intros h h' r H. unfold dynamic_cast_Window.
  destruct (H r) as [_ ->]. reflexivity.
Qed.

Lemma same_shape_chain : forall h h' w l,
  same_shape h h' -> ancestor_chain h w l -> ancestor_chain h' w l.
Proof.
  intros h h' w l H Hc. induction Hc as [w Hw | w parent l Hw Hc IH].
  - apply chain_root. destruct (H w) as [-> _]. assumption.
  - apply chain_step with parent; [|assumption].
    destruct (H w) as [-> _]. assumption.
Qed.

Lemma same_shape_last_window : forall h h' l window,
  same_shape h h' -> last_window h' l window = last_window h l window.
Proof.
  intros h h' l. induction l as [|w l IH]; intros window H; [reflexivity|].
  simpl. rewrite (same_shape_Window h h' w H). now apply IH.
Qed.

(** *** The ancestor chain has no repetition *)

Lemma chain_functional : forall h w l1,
  ancestor_chain h w l1 -> forall l2, ancestor_chain h w l2 -> l1 = l2.
Proof.
  intros h w l1 H1. induction H1 as [w Hw | w parent l Hw H1 IH];
    intros l2 H2; inversion H2; subst; try congruence.
  f_equal. apply IH. congruence.
Qed.

Lemma chain_suffix : forall h w l,
  ancestor_chain h w l ->
  forall l1 x l2, l = l1 ++ x :: l2 -> ancestor_chain h x (x :: l2).
Proof.
  intros h w l H. induction H as [w Hw | w parent l Hw H IH];
    intros l1 x l2 Heq.
  - destruct l1 as [|a l1]; simpl in Heq.
    + injection Heq as <- <-. now apply chain_root.
    + injection Heq as _ Heq. now destruct l1.
  - destruct l1 as [|a l1]; simpl in Heq.
    + injection Heq as <- <-. now apply chain_step with parent.
    + injection Heq as _ Heq. now apply (IH l1).
Qed.

Lemma chain_NoDup : forall h w l, ancestor_chain h w l -> NoDup l.
Proof.
  intros h w l H. pose proof H as H0.
  induction H as [w Hw | w parent l Hw H IH].
  - constructor; [easy | constructor].
  - constructor; [|now apply IH].
    intros Hin. apply in_split in Hin as (l1 & l2 & Heq).
    pose proof (chain_suffix h parent l H l1 w l2 Heq) as Hs.
    pose proof (chain_functional h w _ H0 _ Hs) as Hl.
    injection Hl as Hl. rewrite Heq in Hl.
    apply (f_equal (@length nat)) in Hl. rewrite length_app in Hl.
    simpl in Hl. lia.
Qed.

(** *** The three loops of [updateFocus] *)

Lemma set_heap_same : forall s, set_heap (heap s) s = s.
Proof. intros s. now destruct s. Qed.

Lemma lose_focus_run : forall path s t,
  exists tl,
    lose_focus path s t
    = Return tt (set_heap (unfocus (heap s) path) s) (t ++ tl)
    /\ lost_notifications tl = lost_list (heap s) path
    /\ gained_notifications tl = []
    /\ Forall (fun e => exists w b, fst e = FocusEvent w b) tl.
Proof.
  induction path as [|w rest IH]; intros s t.
  - exists []. simpl. unfold ret. rewrite set_heap_same, app_nil_r.
    repeat split. constructor.
  - simpl. unfold bind at 1. unfold get at 1.
    destruct (mFocused (heap s w)) eqn:E.
    + unfold bind at 1. unfold focusEvent at 1.
      destruct (IH (set_heap (set_focused w false (heap s)) s)
                  (t ++ [(FocusEvent w false, s)]))
        as (tl & Hrun & Hlost & Hgain & Hall).
      exists ((FocusEvent w false, s) :: tl).
      rewrite Hrun. simpl. rewrite Hlost, Hgain, <- app_assoc. simpl.
      repeat split. constructor; [now exists w, false | assumption].
    + unfold bind at 1. unfold ret at 1.
      destruct (IH s t) as (tl & Hrun & Hlost & Hgain & Hall).
      exists tl. rewrite Hrun. repeat split; assumption.
Qed.

Lemma lost_list_count : forall path h w,
  count_occ Nat.eq_dec (lost_list h path) w
  = if existsb (Nat.eqb w) path && mFocused (h w) then 1 else 0.
Proof.
  induction path as [|w0 rest IH]; intros h w; [reflexivity|].
  simpl. destruct (mFocused (h w0)) eqn:E0.
  - simpl. rewrite IH. unfold set_focused.
    destruct (Nat.eq_dec w0 w) as [-> | Hne].
    + rewrite !Nat.eqb_refl. simpl. rewrite E0, andb_false_r. reflexivity.
    + assert (Hb : (w =? w0) = false) by (apply Nat.eqb_neq; congruence).
      rewrite Hb. reflexivity.
  - rewrite IH. destruct (Nat.eqb_spec w w0) as [-> | Hne]; [|reflexivity].
    rewrite E0, !andb_false_r. reflexivity.
Qed.

Lemma gain_focus_run : forall l s t,
  exists tg,
    gain_focus l s t
    = Return tt (set_heap (focus_all (heap s) l) s) (t ++ tg)
    /\ gained_notifications tg = l
    /\ lost_notifications tg = []
    /\ Forall (fun e => exists w b, fst e = FocusEvent w b) tg.
Proof.
  induction l as [|w rest IH]; intros s t.
  - exists []. simpl. unfold ret. rewrite set_heap_same, app_nil_r.
    repeat split. constructor.
  - simpl. unfold bind at 1. unfold focusEvent at 1.
    destruct (IH (set_heap (set_focused w true (heap s)) s)
                (t ++ [(FocusEvent w true, s)]))
      as (tg & Hrun & Hgain & Hlost & Hall).
    exists ((FocusEvent w true, s) :: tg).
    rewrite Hrun. simpl. rewrite Hlost, Hgain, <- app_assoc. simpl.
    repeat split. constructor; [now exists w, true | assumption].
Qed.

Lemma focus_all_keeps : forall l h w,
  mFocused (h w) = true -> mFocused (focus_all h l w) = true.
Proof.
  induction l as [|a l IH]; intros h w H; simpl; [assumption|].
  apply IH. unfold set_focused. destruct (w =? a); [reflexivity | assumption].
Qed.

Lemma focus_all_focused : forall l h w,
  In w l -> mFocused (focus_all h l w) = true.
Proof.
  induction l as [|a l IH]; intros h w Hin; [easy|].
  simpl. destruct Hin as [-> | Hin]; [|now apply IH].
  apply focus_all_keeps. unfold set_focused. now rewrite Nat.eqb_refl.
Qed.

Lemma collect_path_run : forall h W chain,
  ancestor_chain h W chain ->
  forall fuel s t window,
    heap s = h -> length chain <= fuel ->
    collect_path fuel (Some W) window s t
    = Return (last_window h chain window)
        (set_mFocusPath (mFocusPath s ++ chain) s) t.
Proof.
  intros h W chain H.
  induction H as [w Hw | w parent l Hw H IH]; intros fuel s t window Hh Hf;
    (destruct fuel as [|f]; [simpl in Hf; lia|]); simpl in *.
  - unfold bind, modify, get. simpl. rewrite Hh, Hw.
    now destruct f.
  - unfold bind at 1. unfold modify at 1.
    unfold bind at 1. unfold get at 1. simpl. rewrite Hh, Hw.
    rewrite IH by (simpl; (assumption || lia)).
    simpl. rewrite <- app_assoc. reflexivity.
Qed.

Lemma last_window_In : forall h l window w,
  last_window h l window = Some w -> In w l \/ window = Some w.
Proof.
  intros h l. induction l as [|a l IH]; intros window w H; simpl in *;
    [now right|].
  apply IH in H as [H | H]; [left; now right|].
  destruct (dynamic_cast_Window h a); [|now right].
  injection H as ->. left. now left.
Qed.

(** *** The claim *)

(** C2, as stated, fails: after [updateFocus(button 2)] on the tree
    [screen 0 > window 1 > button 2] the focus path is [2; 1; 0]: it ends
    with the screen root, which is told that it gained focus too, while
    the ancestor chain without the root is [2; 1]. *)
Lemma C2_focus_path_includes_root :
  ancestor_chain (heap (screen_focus false)) 2 [2; 1; 0]
  /\ match updateFocus 5 (Some 2) (screen_focus false) [] with
     | Return _ s' t' =>
         mFocusPath s' = [2; 1; 0] /\ gained_notifications t' = [0; 1; 2]
     | _ => False
     end
  /\ [2; 1; 0] <> removelast [2; 1; 0].
Proof.
  split; [|split].
  - apply chain_step with 1; [reflexivity|].
    apply chain_step with 0; [reflexivity|].
    now apply chain_root.
  - vm_compute. split; reflexivity.
  - discriminate.
Qed.

(** C2 (amended): let [W] have a finite ancestor chain and let popup
    ownership among the chain and the screen's children be acyclic.  Then
    [updateFocus(W)] returns, and afterwards the focus path is the
    ancestor chain of [W], from [W] up to and including the screen root.
    Every widget of the old path whose [focused()] flag was set has been
    told exactly once that it lost focus, whether or not it is on the new
    path, and no other widget has; then every widget of the new path, the
    root included, has been told exactly once that it gained focus, in
    root-to-leaf order, and has its flag set. *)
Theorem updateFocus_focus_path :
  forall (s : Screen) (t : Trace) (W : WidgetRef) (chain : list WidgetRef)
         (rank : WidgetRef -> nat),
    ancestor_chain (heap s) W chain ->
    (forall p o, In p (chain ++ mChildren s) ->
                 popupOwner (heap s) p = Some o -> rank p < rank o) ->
    exists fuel s' t_lost t_gained,
      (forall f, fuel <= f ->
         updateFocus f (Some W) s t
         = Return tt s' (t ++ t_lost ++ t_gained))
      /\ mFocusPath s' = chain
      /\ (forall w, In w chain -> mFocused (heap s' w) = true)
      /\ Forall (fun e => exists w b, fst e = FocusEvent w b)
           (t_lost ++ t_gained)
      /\ gained_notifications t_lost = []
      /\ (forall w, In w (mFocusPath s) -> mFocused (heap s w) = true ->
            count_occ Nat.eq_dec (lost_notifications t_lost) w = 1)
      /\ (forall w, In w (lost_notifications t_lost) ->
            In w (mFocusPath s) /\ mFocused (heap s w) = true)
      /\ lost_notifications t_gained = []
      /\ gained_notifications t_gained = rev chain
      /\ (forall w, In w chain ->
            count_occ Nat.eq_dec (gained_notifications t_gained) w = 1).
Proof.
  intros s t W chain rank Hchain Hrank.
  set (hA := unfocus (heap s) (mFocusPath s)).
  set (sA := set_heap hA s).
  set (sC := set_mFocusPath chain (set_mFocusPath [] sA)).
  set (hD := focus_all hA (rev chain)).
  set (sD := set_heap hD sC).
  assert (HshapeA : same_shape (heap s) hA) by apply unfocus_shape.
  assert (HshapeD : same_shape (heap s) hD).
  { eapply same_shape_trans; [exact HshapeA | apply focus_all_shape]. }
  destruct (lose_focus_run (mFocusPath s) s t)
    as (tl & Hlose & Hlost & Hlgain & Hlall).
  destruct (gain_focus_run (rev chain) sC (t ++ tl))
    as (tg & Hgain & Hggain & Hglost & Hgall).
  pose proof (same_shape_chain _ _ _ _ HshapeA Hchain) as HchainA.
  (* the run up to the call of moveWindowToFront *)
  assert (Hprefix : forall f (k : option WidgetRef -> M unit),
            length chain <= f ->
            (s0 <- get ;;
             lose_focus (mFocusPath s0) ;;
             modify (set_mFocusPath []) ;;
             window <- collect_path f (Some W) None ;;
             s1 <- get ;;
             gain_focus (rev (mFocusPath s1)) ;;
             k window) s t
            = k (last_window hA chain None) sD ((t ++ tl) ++ tg)).
  { intros f k Hf.
    unfold bind at 1. unfold get at 1.
    unfold bind at 1. rewrite Hlose.
    unfold bind at 1. unfold modify at 1.
    unfold bind at 1.
    rewrite (collect_path_run hA W chain HchainA) by (reflexivity || exact Hf).
    unfold bind at 1. unfold get at 1.
    unfold bind at 1.
    change (mFocusPath (set_mFocusPath
              (mFocusPath (set_mFocusPath [] (set_heap
                 (unfocus (heap s) (mFocusPath s)) s)) ++ chain)
              (set_mFocusPath [] (set_heap
                 (unfocus (heap s) (mFocusPath s)) s))))
      with chain.
    change (set_mFocusPath
              (mFocusPath (set_mFocusPath [] (set_heap
                 (unfocus (heap s) (mFocusPath s)) s)) ++ chain)
              (set_mFocusPath [] (set_heap
                 (unfocus (heap s) (mFocusPath s)) s)))
      with sC.
    rewrite Hgain. reflexivity. }
  (* what holds of the traces and of the flags *)
  assert (Hfacts :
      Forall (fun e => exists w b, fst e = FocusEvent w b) (tl ++ tg)
      /\ gained_notifications tl = []
      /\ (forall w, In w (mFocusPath s) -> mFocused (heap s w) = true ->
            count_occ Nat.eq_dec (lost_notifications tl) w = 1)
      /\ (forall w, In w (lost_notifications tl) ->
            In w (mFocusPath s) /\ mFocused (heap s w) = true)
      /\ lost_notifications tg = []
      /\ gained_notifications tg = rev chain
      /\ (forall w, In w chain ->
            count_occ Nat.eq_dec (gained_notifications tg) w = 1)).
  { split; [apply Forall_app; now split|].
    split; [assumption|]. split; [|split; [|split; [|split]]];
      try assumption.
    - intros w Hin Hf. rewrite Hlost, lost_list_count, Hf, andb_true_r.
      assert (Hex : existsb (Nat.eqb w) (mFocusPath s) = true).
      { apply existsb_exists. exists w. split; [assumption|].
        apply Nat.eqb_refl. }
      now rewrite Hex.
    - intros w Hin. rewrite Hlost in Hin.
      apply (count_occ_In Nat.eq_dec) in Hin.
      rewrite lost_list_count in Hin.
      destruct (existsb (Nat.eqb w) (mFocusPath s)) eqn:Hex;
        [|simpl in Hin; lia].
      destruct (mFocused (heap s w)); [|simpl in Hin; lia].
      split; [|reflexivity].
      apply existsb_exists in Hex as (x & Hx & Heq).
      apply Nat.eqb_eq in Heq. now subst.
    - intros w Hin. rewrite Hggain.
      apply NoDup_count_occ'.
      + apply NoDup_rev. eapply chain_NoDup. exact Hchain.
      + now apply in_rev in Hin. }
  assert (Hflags : forall w, In w chain -> mFocused (hD w) = true).
  { intros w Hin. apply focus_all_focused. now apply in_rev in Hin. }
  destruct (last_window hA chain None) as [win|] eqn:Ewin.
  - (* a window is brought to the front *)
    assert (Hwin : In win chain).
    { apply last_window_In in Ewin as [H | H]; [assumption | discriminate]. }
    assert (HrankD : forall p o, In p (chain ++ mChildren s) ->
              popupOwner hD p = Some o -> rank p < rank o).
    { intros p o Hp Ho. apply (Hrank p o Hp).
      now rewrite <- (same_shape_popupOwner _ _ p HshapeD). }
    set (fuel1 := S (rank win
                     + length (Stacking.erase win (mChildren s) ++ [win]))).
    destruct (moveWindowToFront_total hD rank (chain ++ mChildren s) HrankD
                fuel1 win (mChildren s)) as (c' & Hc' & _).
    { intros x [<- | Hx]; apply in_or_app; [now left | now right]. }
    { unfold fuel1. lia. }
    exists (Nat.max (length chain) fuel1), (set_mChildren c' sD), tl, tg.
    split; [|split; [reflexivity | split; [exact Hflags | exact Hfacts]]].
    intros f Hf. unfold updateFocus.
    rewrite Hprefix by lia.
    unfold bind, get. simpl.
    rewrite (moveWindowToFront_mono hD fuel1 f win (mChildren s) c')
      by (assumption || lia).
    unfold modify. now rewrite <- app_assoc.
  - exists (length chain), sD, tl, tg.
    split; [|split; [reflexivity | split; [exact Hflags | exact Hfacts]]].
    intros f Hf. unfold updateFocus.
    rewrite Hprefix by lia.
    unfold ret. now rewrite <- app_assoc.
Qed.

Lemma updateFocus_focus_path_witness :
  exists fuel s' t_lost t_gained,
    (forall f, fuel <= f ->
       updateFocus f (Some 2) (screen_focus false) []
       = Return tt s' ([] ++ t_lost ++ t_gained))
    /\ mFocusPath s' = [2; 1; 0]
    /\ (forall w, In w [2; 1; 0] -> mFocused (heap s' w) = true)
    /\ Forall (fun e => exists w b, fst e = FocusEvent w b)
         (t_lost ++ t_gained)
    /\ gained_notifications t_lost = []
    /\ (forall w, In w (mFocusPath (screen_focus false)) ->
          mFocused (heap (screen_focus false) w) = true ->
          count_occ Nat.eq_dec (lost_notifications t_lost) w = 1)
    /\ (forall w, In w (lost_notifications t_lost) ->
          In w (mFocusPath (screen_focus false)) /\
          mFocused (heap (screen_focus false) w) = true)
    /\ lost_notifications t_gained = []
    /\ gained_notifications t_gained = rev [2; 1; 0]
    /\ (forall w, In w [2; 1; 0] ->
          count_occ Nat.eq_dec (gained_notifications t_gained) w = 1).
Proof.
  apply (updateFocus_focus_path (screen_focus false) [] 2 [2; 1; 0]
           (fun _ => 0)).
  - apply chain_step with 1; [reflexivity|].
    apply chain_step with 0; [reflexivity|].
    now apply chain_root.
  - intros p o Hin.
    simpl in Hin.
    destruct Hin as [<- | [<- | [<- | [<- | []]]]]; vm_compute; discriminate.
Defined.

End FocusProofs.

(* ===================================================================== *)
(** * Part III. Further properties                                        *)
(* ===================================================================== *)

(** ** More on window stacking *)

Section StackingMore.

Import Stacking.

Variable h : Heap.
Variable rank : WidgetRef -> nat.
Variable dom : list WidgetRef.

Hypothesis rank_owner :
  forall p o, In p dom -> popupOwner h p = Some o -> rank p < rank o.

(** Inside the moved block every popup follows its owner. *)
Lemma lifted_block_stacked : forall w ch T' c,
  incl (w :: ch) dom -> lifted h w ch T' c -> stacked h (w :: T').
Proof.
  intros w ch T' c Hdom Hl.
  assert (Hdom' : incl ch dom) by (intros x Hx; apply Hdom; now right).
  pose proof (lifted_rank h rank dom rank_owner _ _ _ _ Hdom' Hl) as Hrank.
  destruct Hl as (_ & Hnd & Htree & Hincl & Hclo).
  simpl. split.
  - intros o Ho Hin.
    assert (rank w < rank o)
      by (apply rank_owner; [apply Hdom; now left | assumption]).
    destruct Hin as [<- | Hin]; [lia|].
    specialize (Hrank o Hin). lia.
  - inversion Hnd as [|? ? Hw Hnd']; subst.
    apply tree_order_stacked with (seen := [w]); try assumption.
    intros s [<- | []]. assumption.
Qed.

End StackingMore.

Section StackingExtras.

Import Stacking.

Lemma scan_popup_no_popup : forall h w base l i,
  (forall x, In x l -> popupOwner h x <> Some w) ->
  scan_popup h w base l i = None.
Proof.
  intros h w base l. induction l as [|a l IH]; intros i H; [reflexivity|].
  simpl.
  destruct (is_popup_of h w a) eqn:E.
  - apply is_popup_of_owner in E. exfalso. apply (H a); [now left | exact E].
  - simpl. apply IH. intros x Hx. apply H. now right.
Qed.

(** X1.  The result of [moveWindowToFront] is a stable partition of the child
    sequence: with acyclic ownership the call returns the children that
    are not moved, in their old order, then the target, then the moved
    popups.  The target occurs once, whether it was absent, present or
    repeated before; each moved widget is a child owned by the target,
    directly or through nested popups; every child that is a popup of the
    target or of a moved widget is moved. *)
Theorem moveWindowToFront_stable_partition :
  forall (h : Heap) (rank : WidgetRef -> nat) (window : WidgetRef)
         (children : list WidgetRef),
    (forall p o, In p (window :: children) ->
                 popupOwner h p = Some o -> rank p < rank o) ->
    exists fuel moved,
      (forall f, fuel <= f ->
         moveWindowToFront h f window children
         = Some (filter (fun x => negb (memb x (window :: moved))) children
                 ++ window :: moved))
      /\ NoDup (window :: moved)
      /\ (forall x, In x moved -> In x children /\ owned_by h window x)
      /\ (forall p o, In p children -> popupOwner h p = Some o ->
                      In o (window :: moved) -> In p (window :: moved)).
Proof.
  intros h rank w ch Hrank.
  set (fuel := S (rank w + length (erase w ch ++ [w]))).
  destruct (moveWindowToFront_total h rank (w :: ch) Hrank fuel w ch)
    as (c' & Hc' & T' & Hl & Hclo_w).
  - intros x Hx. exact Hx.
  - unfold fuel. lia.
  - exists fuel, T'.
    pose proof (lifted_owned h _ _ _ _ Hl) as Howned.
    destruct Hl as (Hc & Hnd & Htree & Hincl & Hclo).
    split; [|split; [assumption | split]].
    + intros f Hf.
      change (moveWindowToFront h f w ch
              = Some (unmoved (w :: T') ch ++ w :: T')).
      rewrite <- Hc. now apply moveWindowToFront_mono with fuel.
    + intros x Hx. split; [now apply Hincl | now apply Howned].
    + intros p o Hp Ho [<- | Hin]; [now apply Hclo_w | now apply (Hclo p o)].
Qed.

Lemma moveWindowToFront_stable_partition_witness :
  exists fuel moved,
    (forall f, fuel <= f ->
       moveWindowToFront heap_popup f 1 [2; 1; 3]
       = Some (filter (fun x => negb (memb x (1 :: moved))) [2; 1; 3]
               ++ 1 :: moved))
    /\ NoDup (1 :: moved)
    /\ (forall x, In x moved -> In x [2; 1; 3] /\ owned_by heap_popup 1 x)
    /\ (forall p o, In p [2; 1; 3] -> popupOwner heap_popup p = Some o ->
                    In o (1 :: moved) -> In p (1 :: moved)).
Proof.
  apply (moveWindowToFront_stable_partition heap_popup rank_popup 1
           [2; 1; 3]).
  intros p o _. apply rank_popup_ok.
Defined.

(** X2.  After [moveWindowToFront] the target sits at one index [k], and
    every widget at index [k] or above has all its popups above itself:
    the popups of the target, and the popups of those popups, end above
    their owners whatever the order was before. *)
Theorem moveWindowToFront_sorts_block :
  forall (h : Heap) (rank : WidgetRef -> nat) (window : WidgetRef)
         (children : list WidgetRef),
    (forall p o, In p (window :: children) ->
                 popupOwner h p = Some o -> rank p < rank o) ->
    exists fuel children' k,
      (forall f, fuel <= f ->
         moveWindowToFront h f window children = Some children')
      /\ nth_error children' k = Some window
      /\ (forall k', nth_error children' k' = Some window -> k' = k)
      /\ (forall i j p o,
            k <= j ->
            nth_error children' j = Some o ->
            nth_error children' i = Some p ->
            popupOwner h p = Some o ->
            j < i).
Proof.
  intros h rank w ch Hrank.
  set (fuel := S (rank w + length (erase w ch ++ [w]))).
  destruct (moveWindowToFront_total h rank (w :: ch) Hrank fuel w ch)
    as (c' & Hc' & T' & Hl & Hclo_w).
  { intros x Hx. exact Hx. }
  { unfold fuel. lia. }
  pose proof (lifted_block_stacked h rank (w :: ch) Hrank w ch T' c'
                (fun x Hx => Hx) Hl) as Hblock.
  pose proof (lifted_rank h rank (w :: ch) Hrank w ch T' c'
                (fun x Hx => or_intror Hx) Hl) as HrankT.
  pose proof (lifted_In h _ _ _ _ Hl) as HinC.
  destruct Hl as (Hc & Hnd & Htree & Hincl & Hclo).
  set (U := unmoved (w :: T') ch) in *.
  assert (HwU : ~ In w U).
  { intros Hin. apply unmoved_In in Hin as [_ Hn]. apply Hn. now left. }
  assert (Hblock_at : forall j o, length U <= j ->
            nth_error c' j = Some o -> In o (w :: T')).
  { intros j o Hj Ho. rewrite Hc, nth_error_app2 in Ho by exact Hj.
    exact (nth_error_In (w :: T') _ Ho). }
  exists fuel, c', (length U).
  split; [|split; [|split]].
  - intros f Hf. now apply moveWindowToFront_mono with fuel.
  - rewrite Hc, nth_error_app2, Nat.sub_diag by lia. reflexivity.
  - intros k' Hk'. rewrite Hc in Hk'.
    destruct (Nat.lt_ge_cases k' (length U)) as [Hlt | Hge].
    + rewrite nth_error_app1 in Hk' by exact Hlt.
      exfalso. apply HwU. exact (nth_error_In U _ Hk').
    + rewrite nth_error_app2 in Hk' by exact Hge.
      destruct (k' - length U) as [|n] eqn:E; [lia|].
      simpl in Hk'. exfalso. inversion Hnd as [|? ? Hw _]; subst.
      apply Hw. exact (nth_error_In T' _ Hk').
  - intros i j p o Hj Ho Hp Hown.
    pose proof (Hblock_at j o Hj Ho) as HoB.
    assert (HpB : In p (w :: T')).
    { assert (Hpc : In p c') by exact (nth_error_In c' _ Hp).
      apply HinC in Hpc as [-> | Hpch].
      - now left.
      - destruct HoB as [<- | HoT]; [now apply Hclo_w | now apply (Hclo p o)]. }
    assert (Hi : length U <= i).
    { destruct (Nat.lt_ge_cases i (length U)) as [Hlt | Hge]; [|exact Hge].
      exfalso. rewrite Hc, nth_error_app1 in Hp by exact Hlt.
      apply nth_error_In in Hp. apply unmoved_In in Hp as [_ Hn].
      now apply Hn. }
    rewrite Hc, nth_error_app2 in Ho by exact Hj.
    rewrite Hc, nth_error_app2 in Hp by exact Hi.
    apply stacked_iff in Hblock.
    specialize (Hblock _ _ _ _ Hp Ho Hown). lia.
Qed.

Lemma moveWindowToFront_sorts_block_witness :
  exists fuel children' k,
    (forall f, fuel <= f ->
       moveWindowToFront heap_popup f 1 [2; 1; 3] = Some children')
    /\ nth_error children' k = Some 1
    /\ (forall k', nth_error children' k' = Some 1 -> k' = k)
    /\ (forall i j p o,
          k <= j ->
          nth_error children' j = Some o ->
          nth_error children' i = Some p ->
          popupOwner heap_popup p = Some o ->
          j < i).
Proof.
  apply (moveWindowToFront_sorts_block heap_popup rank_popup 1 [2; 1; 3]).
  intros p o _. apply rank_popup_ok.
Defined.

(** X3.  A window that owns no popup among the children is moved to the end
    (appended when it was no child yet, reduced to one occurrence when it
    was repeated), and all other children keep their relative order; two
    units of fuel are enough. *)
Theorem moveWindowToFront_no_popup :
  forall (h : Heap) (window : WidgetRef) (children : list WidgetRef)
         (fuel : nat),
    (forall x, In x (window :: children) -> popupOwner h x <> Some window) ->
    2 <= fuel ->
    moveWindowToFront h fuel window children
    = Some (filter (fun x => negb (x =? window)) children ++ [window]).
Proof.
  intros h w ch fuel Hno Hfuel.
  destruct fuel as [|[|f]]; try lia.
  change (moveWindowToFront h (S (S f)) w ch)
    with (rescan h (moveWindowToFront h (S f)) (S f) w (erase w ch ++ [w])).
  simpl rescan. rewrite scan_popup_no_popup; [reflexivity|].
  intros x Hx. apply Hno.
  apply in_app_or in Hx as [Hx | [<- | []]].
  - right. now apply erase_In in Hx.
  - now left.
Qed.

Lemma moveWindowToFront_no_popup_witness :
  moveWindowToFront heap_popup 2 3 [3; 1; 3; 2]
  = Some (filter (fun x => negb (x =? 3)) [3; 1; 3; 2] ++ [3]).
Proof.
  apply (moveWindowToFront_no_popup heap_popup 3 [3; 1; 3; 2] 2).
  - intros x _. destruct x as [|[|[|[|x]]]]; vm_compute; discriminate.
  - lia.
Defined.

End StackingExtras.

(** ** More on the registry *)

Section RegistryExtras.

Import Registry.

Variable Args : Type.
Variable W : Type.

Lemma handleEvent_app : forall id (args : Args) (l1 l2 : Callbacks Args W) w,
  handleEvent id args (l1 ++ l2) w
  = match handleEvent id args l1 w with
    | Done w1 => handleEvent id args l2 w1
    | Raised e w1 => Raised e w1
    end.
Proof.
  intros id args l1 l2. induction l1 as [|c l1 IH]; intros w; [reflexivity|].
  simpl. destruct (fst c =? id)%Z; [|apply IH].
  destruct (snd c args w); [apply IH | reflexivity].
Qed.

(** X4.  Registering a callback and then removing by the same id gives
    the list back when the id was not registered before.  When it was,
    the remove takes the oldest entry of that id away and the new
    callback stays, at the end of the list: the result is the list
    without its oldest entry of that id, followed by the new entry. *)
Theorem removeCallback_after_addCallback :
  forall (id : Z) (cb : Callback Args W) (l : Callbacks Args W),
    (existsb (fun e => (fst e =? id)%Z) l = false ->
     removeCallback id (addCallback id cb l) = l)
    /\ (existsb (fun e => (fst e =? id)%Z) l = true ->
        removeCallback id (addCallback id cb l)
        = addCallback id cb (removeCallback id l)).
Proof.
  intros id cb l. unfold addCallback. induction l as [|e l [IH1 IH2]]; simpl.
  - rewrite Z.eqb_refl. split; [reflexivity | discriminate].
  - destruct (fst e =? id)%Z; simpl; split; intros H;
      try discriminate; try reflexivity.
    + f_equal. now apply IH1.
    + f_equal. now apply IH2.
Qed.

(** X5.  Nothing is caught while dispatching: when a callback registered
    under the screen id throws, the handler ends with that exception and
    the callbacks behind it are not called, whatever they are. *)
Theorem handleEvent_stops_at_throw :
  forall (id : Z) (args : Args) (l1 l2 l2' : Callbacks Args W)
         (cb : Callback Args W) (w w1 w2 : W) (e : exn),
    handleEvent id args l1 w = Done w1 ->
    cb args w1 = Raised e w2 ->
    handleEvent id args (l1 ++ (id, cb) :: l2) w = Raised e w2
    /\ handleEvent id args (l1 ++ (id, cb) :: l2) w
       = handleEvent id args (l1 ++ (id, cb) :: l2') w.
Proof.
  intros id args l1 l2 l2' cb w w1 w2 e H1 Hcb.
  rewrite !handleEvent_app, H1. simpl. rewrite Z.eqb_refl, Hcb.
  split; reflexivity.
Qed.

End RegistryExtras.

Section RegistryExtrasWitness.

Import Registry.

Lemma removeCallback_after_addCallback_witness :
  removeCallback 7 (addCallback 7 (@log_args Z) [(3%Z, @log_args Z)])
  = [(3%Z, @log_args Z)]
  /\ removeCallback 7
       (addCallback 7 (@log_args Z)
          [(7%Z, fun _ w => Done w); (3%Z, @log_args Z)])
     = [(3%Z, @log_args Z); (7%Z, @log_args Z)].
Proof.
  split.
  - apply (proj1 (removeCallback_after_addCallback Z (list Z) 7
                    (@log_args Z) [(3%Z, @log_args Z)])).
    reflexivity.
  - apply (proj2 (removeCallback_after_addCallback Z (list Z) 7
                    (@log_args Z)
                    [(7%Z, fun _ w => Done w); (3%Z, @log_args Z)])).
    reflexivity.
Defined.

Lemma handleEvent_stops_at_throw_witness :
  handleEvent 1 5%Z
    ([(1%Z, @log_args Z)]
     ++ (1%Z, fun _ w => Raised (std_exception "boom") w)
     :: [(1%Z, @log_args Z)]) []
  = Raised (std_exception "boom") [5%Z]
  /\ handleEvent 1 5%Z
       ([(1%Z, @log_args Z)]
        ++ (1%Z, fun _ w => Raised (std_exception "boom") w)
        :: [(1%Z, @log_args Z)]) []
     = handleEvent 1 5%Z
         ([(1%Z, @log_args Z)]
          ++ (1%Z, fun _ w => Raised (std_exception "boom") w) :: []) [].
Proof.
  apply (handleEvent_stops_at_throw Z (list Z) 1 5%Z [(1%Z, @log_args Z)]
           [(1%Z, @log_args Z)] []
           (fun _ w => Raised (std_exception "boom") w) [] [5%Z] [5%Z]
           (std_exception "boom")).
  - reflexivity.
  - reflexivity.
Defined.

End RegistryExtrasWitness.

(** ** More on keyboard dispatch *)

Section KeyboardExtras.

Import ScreenImpl.
Local Open Scope screen_scope.

Lemma focus_loop_deliveries : forall env mk path k s t,
  mFocusPath s = path ->
  k <= length path ->
  (focus_loop env mk path k s t = Undefined
   /\ exists w s0 s1,
        deliver (tree env) (mk w) s0 = Returns false s1
        /\ In w (firstn k path)
        /\ mFocusPath s0 = path
        /\ mFocusPath s1 <> path)
  \/ exists tn,
       trace_of (focus_loop env mk path k s t) = Some (t ++ tn)
       /\ Forall (fun e => exists w,
                    fst e = mk w /\ In w (firstn k path) /\
                    mFocused (heap (snd e) w) = true /\
                    mFocusPath (snd e) = path) tn
       /\ length tn <= k.
Proof.
  intros env mk path. induction k as [|i IH]; intros s t Hs Hk.
  - right. exists []. simpl. unfold bind, get.
    rewrite Hs, path_eqb_refl. simpl. rewrite app_nil_r.
    repeat split; [constructor | lia].
  - destruct (nth_error path i) as [w|] eqn:E;
      [|apply nth_error_None in E; lia].
    rewrite (focus_loop_step env mk path i s t w Hs E).
    rewrite (firstn_snoc _ _ _ E).
    assert (Hmono : forall x, In x (firstn i path) ->
                              In x (firstn i path ++ [w])).
    { intros x Hx. apply in_or_app. now left. }
    assert (Hw : In w (firstn i path ++ [w])).
    { apply in_or_app. right. now left. }
    destruct (mFocused (heap s w)) eqn:Ef.
    + destruct (deliver (tree env) (mk w) s) as [[|] s1 | e s1] eqn:Ed.
      * right. exists [(mk w, s)]. simpl. repeat split; [|lia].
        constructor; [|constructor]. exists w. simpl. auto.
      * destruct (list_eq_dec Nat.eq_dec (mFocusPath s1) path) as [H1 | H1].
        -- destruct (IH s1 (t ++ [(mk w, s)]) H1 ltac:(lia))
             as [(Hu & x & s0 & s2 & Hd & Hin & H0 & H2)
                | (tn & Htr & Hall & Hlen)].
           ++ left. split; [exact Hu|]. exists x, s0, s2. auto.
           ++ right. exists ((mk w, s) :: tn).
              rewrite Htr, <- app_assoc. simpl.
              repeat split; [|lia].
              constructor.
              ** exists w. simpl. auto.
              ** eapply Forall_impl; [|exact Hall].
                 intros a (w' & Ha1 & Ha2 & Ha3 & Ha4). exists w'. auto.
        -- left. split.
           ++ now apply focus_loop_changed.
           ++ exists w, s, s1. auto.
      * right. exists [(mk w, s)]. simpl. repeat split; [|lia].
        constructor; [|constructor]. exists w. simpl. auto.
    + destruct (IH s t Hs ltac:(lia))
        as [(Hu & x & s0 & s2 & Hd & Hin & H0 & H2)
           | (tn & Htr & Hall & Hlen)].
      * left. split; [exact Hu|]. exists x, s0, s2. auto.
      * right. exists tn. rewrite Htr. repeat split; [|lia].
        eapply Forall_impl; [|exact Hall].
        intros a (w' & Ha1 & Ha2 & Ha3 & Ha4). exists w'. auto.
Qed.

(** X6.  [keyboardEvent] iterates the focus path itself while the
    handlers run.  The call is undefined only when a handler of a widget
    on the path, entered with the focus path the call started with,
    declines the event and leaves another focus path: the loop's
    iterator is then invalid.  In every other case the call delivers
    key events only, with the key, scancode, action and modifiers it was
    called with, to widgets that are on the focus path at a position
    other than the last one and that have their [focused()] flag set
    when their handler is entered; every handler is entered with the
    focus path the call started with, and there are no more deliveries
    than the path has entries below the last. *)
Theorem keyboardEvent_deliveries :
  forall (env : Env) (key scancode action modifiers : Z) (s : Screen)
         (t : Trace),
    (keyboardEvent env key scancode action modifiers s t = Undefined
     /\ exists w s0 s1,
          deliver (tree env)
            (KeyboardEvent w key scancode action modifiers) s0
          = Returns false s1
          /\ In w (removelast (mFocusPath s))
          /\ mFocusPath s0 = mFocusPath s
          /\ mFocusPath s1 <> mFocusPath s)
    \/ exists tn,
         trace_of (keyboardEvent env key scancode action modifiers s t)
         = Some (t ++ tn)
         /\ Forall (fun e => exists w,
                      fst e = KeyboardEvent w key scancode action modifiers
                      /\ In w (removelast (mFocusPath s))
                      /\ mFocused (heap (snd e) w) = true
                      /\ mFocusPath (snd e) = mFocusPath s) tn
         /\ length tn <= length (mFocusPath s) - 1.
Proof.
  intros env key scancode action modifiers s t.
  unfold keyboardEvent, bind, get.
  destruct (mFocusPath s) as [|a l] eqn:E.
  - right. exists []. simpl. rewrite app_nil_r.
    repeat split; [constructor | lia].
  - rewrite <- E.
    replace (0 <? length (mFocusPath s)) with true
      by (rewrite E; reflexivity).
    rewrite removelast_firstn_len, <- Nat.sub_1_r.
    apply focus_loop_deliveries; [reflexivity | lia].
Qed.

(** With handlers that decline and move the focus, the window [1] gets
    the key, and the loop is then left with an iterator into a vector
    that has been cleared and refilled. *)
Lemma keyboardEvent_refocus_undefined :
  keyboardEvent refocusing_env 65 0 1 0 (screen_focus false) [] = Undefined.
Proof. reflexivity. Qed.

End KeyboardExtras.

(** ** More on focus updates *)

Section FocusExtras.

Import ScreenImpl.
Local Open Scope screen_scope.

Lemma unfocus_keeps_false : forall path h w,
  mFocused (h w) = false -> mFocused (unfocus h path w) = false.
Proof.
  induction path as [|a rest IH]; intros h w H; simpl; [assumption|].
  destruct (mFocused (h a)); [|now apply IH].
  apply IH. unfold set_focused. destruct (w =? a); [reflexivity | assumption].
Qed.

Lemma unfocus_clears : forall path h w,
  In w path -> mFocused (unfocus h path w) = false.
Proof.
  induction path as [|a rest IH]; intros h w Hin; [easy|].
  simpl. destruct Hin as [-> | Hin].
  - destruct (mFocused (h w)) eqn:E.
    + apply unfocus_keeps_false. unfold set_focused.
      now rewrite Nat.eqb_refl.
    + now apply unfocus_keeps_false.
  - destruct (mFocused (h a)); now apply IH.
Qed.

(** The run of [updateFocus(nullptr)]. *)
Lemma updateFocus_null_run : forall fuel s t,
  exists tl,
    updateFocus fuel None s t
    = Return tt
        (set_mFocusPath [] (set_heap (unfocus (heap s) (mFocusPath s)) s))
        (t ++ tl)
    /\ lost_notifications tl = lost_list (heap s) (mFocusPath s)
    /\ gained_notifications tl = []
    /\ Forall (fun e => exists w b, fst e = FocusEvent w b) tl.
Proof.
  intros fuel s t.
  destruct (lose_focus_run (mFocusPath s) s t)
    as (tl & Hlose & Hlost & Hgain & Hall).
  exists tl. split; [|repeat split; assumption].
  unfold updateFocus.
  unfold bind at 1. unfold get at 1.
  unfold bind at 1. rewrite Hlose.
  destruct fuel; reflexivity.
Qed.

(** X7.  [updateFocus(nullptr)] needs no fuel: it empties the focus path,
    tells every widget of the old path whose [focused()] flag was set
    exactly once that it lost focus and nobody that it gained focus,
    leaves every widget of the old path with its flag cleared, and does
    not touch the child sequence or the drag state. *)
Theorem updateFocus_null :
  forall (fuel : nat) (s : Screen) (t : Trace),
    exists s' tl,
      updateFocus fuel None s t = Return tt s' (t ++ tl)
      /\ mFocusPath s' = []
      /\ mChildren s' = mChildren s
      /\ mDragActive s' = mDragActive s
      /\ mDragWidget s' = mDragWidget s
      /\ (forall w, In w (mFocusPath s) -> mFocused (heap s' w) = false)
      /\ gained_notifications tl = []
      /\ Forall (fun e => exists w b, fst e = FocusEvent w b) tl
      /\ (forall w,
            count_occ Nat.eq_dec (lost_notifications tl) w
            = if existsb (Nat.eqb w) (mFocusPath s) && mFocused (heap s w)
              then 1 else 0).
Proof.
  intros fuel s t.
  destruct (updateFocus_null_run fuel s t)
    as (tl & Hrun & Hlost & Hgain & Hall).
  eexists. exists tl. split; [exact Hrun|].
  repeat split; try assumption.
  - intros w Hin. simpl. now apply unfocus_clears.
  - intros w. rewrite Hlost. apply lost_list_count.
Qed.

End FocusExtras.

(** ** More on the event callbacks *)

Section CallbackExtras.

Import ScreenImpl.
Local Open Scope screen_scope.

Ltac fields :=
  cbn [this heap mChildren mFocusPath mSize mPixelRatio mMousePos mMouseState
       mModifiers mDragActive mDragWidget mLastInteraction mCursor
       set_heap set_mChildren set_mFocusPath set_mSize set_mPixelRatio
       set_mMousePos set_mMouseState set_mModifiers set_mDragActive
       set_mDragWidget set_mLastInteraction set_mCursor] in *.

Lemma caught_call : forall env ev s t,
  match call env ev s t with
  | Propagate (std_exception what) s' t' =>
      Abort ("Caught exception in event handler: " ++ what) s' t'
  | o => o
  end
  = caught (deliver (tree env) ev s) (t ++ [(ev, s)]).
Proof.
  intros env ev s t. unfold call, caught.
  destruct (deliver (tree env) ev s) as [b s1 | [what|] s1]; reflexivity.
Qed.

(** X8.  Let the modal gate not apply (the entry [mFocusPath[size - 2]]
    is not a modal window that excludes the recorded mouse position),
    let the time callback be installed and return, let the button be one
    of 0 to 31, and let the press code differ from the release code.
    Then a press of the primary or secondary button where hit-testing
    finds no widget, or the screen itself, clears the focus: the focus
    path is emptied with one lost-focus notification per focused entry
    and none gained, the drag flag and the drag widget are cleared, the
    modifiers and the time are recorded and the button's bit is set,
    before the button event is handed to the widget tree at the recorded
    mouse position; the callback ends as the [try] block makes that
    handler end. *)
Theorem mouseButton_press_on_empty_area :
  forall (env : Env) (button action modifiers : Z) (s : Screen)
         (t : Trace) (ticks : double) (bit : Z),
    getTime (constants env) = inr ticks ->
    outside_modal env s = false ->
    button_bit button = Some bit ->
    action = mMousePress (constants env) ->
    mMousePress (constants env) <> mMouseRelease (constants env) ->
    (button = mPrimaryMouseButton (constants env) \/
     button = mSecondaryMouseButton (constants env)) ->
    (findWidget (tree env) s (mMousePos s) = None \/
     findWidget (tree env) s (mMousePos s) = Some (this s)) ->
    exists tl s3,
      let ev := MouseButtonEvent (this s) (mMousePos s) button true
                  modifiers in
      mouseButtonCallbackEvent env button action modifiers s t
      = caught (deliver (tree env) ev s3) (t ++ tl ++ [(ev, s3)])
      /\ mFocusPath s3 = []
      /\ mDragActive s3 = false
      /\ mDragWidget s3 = None
      /\ mMouseState s3 = Z.lor (mMouseState s) bit
      /\ mModifiers s3 = modifiers
      /\ mLastInteraction s3 = ticks
      /\ (forall w, In w (mFocusPath s) -> mFocused (heap s3 w) = false)
      /\ gained_notifications tl = []
      /\ Forall (fun e => exists w b, fst e = FocusEvent w b) tl
      /\ (forall w,
            count_occ Nat.eq_dec (lost_notifications tl) w
            = if existsb (Nat.eqb w) (mFocusPath s) && mFocused (heap s w)
              then 1 else 0).
Proof.
  intros env button action modifiers s t ticks bit Hclock Hgate Hbit Hact
         Hne Hbtn Hhit.
  assert (Hrel : (action =? mMouseRelease (constants env))%Z = false)
    by (apply Z.eqb_neq; congruence).
  assert (Hpress : (action =? mMousePress (constants env))%Z = true)
    by (apply Z.eqb_eq; congruence).
  assert (Hb : ((button =? mPrimaryMouseButton (constants env))%Z
                || (button =? mSecondaryMouseButton (constants env))%Z)
               = true).
  { apply orb_true_iff. destruct Hbtn as [-> | ->];
      [left | right]; apply Z.eqb_refl. }
  set (s2 := set_mDragActive false
               (set_mDragWidget None
                  (set_mMouseState (Z.lor (mMouseState s) bit)
                     (set_mLastInteraction ticks
                        (set_mModifiers modifiers s))))).
  destruct (updateFocus_null_run 0 s2 t) as (tl & Hrun & Hlost & Hgain & Hall).
  exists tl.
  exists (set_mFocusPath []
            (set_heap (unfocus (heap s2) (mFocusPath s2)) s2)).
  cbv zeta.
  split; [|repeat split; try assumption].
  - unfold mouseButtonCallbackEvent, touch. rewrite Hclock.
    unfold bind at 1. unfold modify at 1.
    unfold bind at 1. unfold modify at 1.
    unfold try_catch_abort.
    unfold bind at 1. unfold get at 1.
    change (outside_modal env
              (set_mLastInteraction ticks (set_mModifiers modifiers s)))
      with (outside_modal env s).
    rewrite Hgate, Hbit.
    unfold bind at 1. unfold modify at 1.
    unfold bind at 1. unfold get at 1.
    unfold findWidget in *. fields.
    rewrite Hrel, Hpress, Hb, andb_false_r. cbn [andb].
    unfold bind at 1. unfold ret at 1.
    unfold bind at 1. unfold bind at 1. unfold get at 1.
    fields.
    assert (Htarget :
      (if WidgetRef_opt_eqb
            (findWidget_at (tree env) (heap s) (this s) (mChildren s)
               (mSize s) (mMousePos s)) (Some (this s))
       then None
       else findWidget_at (tree env) (heap s) (this s) (mChildren s)
              (mSize s) (mMousePos s)) = None).
    { destruct Hhit as [-> | ->]; [reflexivity|].
      simpl. now rewrite Nat.eqb_refl. }
    rewrite Htarget.
    unfold bind at 1. unfold modify at 1.
    unfold bind at 1. unfold modify at 1.
    fold s2. rewrite Hrun.
    unfold bind at 1. unfold get at 1. fields.
    rewrite caught_call. rewrite <- app_assoc. reflexivity.
  - intros w Hin. simpl. now apply unfocus_clears.
  - intros w. rewrite Hlost. apply lost_list_count.
Qed.

(** X9.  Let the modal gate not apply (the entry [mFocusPath[size - 2]]
    is not a modal window that excludes the recorded mouse position),
    let the time callback be installed and return, let the button be one
    of 0 to 31, and let the press code differ from the release code.
    Then a press of the primary or secondary button over a widget other
    than the screen captures that widget for dragging: the drag widget
    is the widget hit-testing finds at the recorded mouse position and
    the drag is active when the button event is handed to the widget
    tree.  Up to that delivery the callback changes neither the focus
    path nor the widget objects nor the child sequence. *)
Theorem mouseButton_press_captures_widget :
  forall (env : Env) (button action modifiers : Z) (s : Screen)
         (t : Trace) (ticks : double) (bit : Z) (w : WidgetRef),
    getTime (constants env) = inr ticks ->
    outside_modal env s = false ->
    button_bit button = Some bit ->
    action = mMousePress (constants env) ->
    mMousePress (constants env) <> mMouseRelease (constants env) ->
    (button = mPrimaryMouseButton (constants env) \/
     button = mSecondaryMouseButton (constants env)) ->
    findWidget (tree env) s (mMousePos s) = Some w ->
    w <> this s ->
    exists s3,
      let ev := MouseButtonEvent (this s) (mMousePos s) button true
                  modifiers in
      mouseButtonCallbackEvent env button action modifiers s t
      = caught (deliver (tree env) ev s3) (t ++ [(ev, s3)])
      /\ mDragWidget s3 = Some w
      /\ mDragActive s3 = true
      /\ mMouseState s3 = Z.lor (mMouseState s) bit
      /\ mModifiers s3 = modifiers
      /\ mLastInteraction s3 = ticks
      /\ mFocusPath s3 = mFocusPath s
      /\ heap s3 = heap s
      /\ mChildren s3 = mChildren s.
Proof.
  intros env button action modifiers s t ticks bit w Hclock Hgate Hbit Hact
         Hne Hbtn Hhit Hw.
  assert (Hrel : (action =? mMouseRelease (constants env))%Z = false)
    by (apply Z.eqb_neq; congruence).
  assert (Hpress : (action =? mMousePress (constants env))%Z = true)
    by (apply Z.eqb_eq; congruence).
  assert (Hb : ((button =? mPrimaryMouseButton (constants env))%Z
                || (button =? mSecondaryMouseButton (constants env))%Z)
               = true).
  { apply orb_true_iff. destruct Hbtn as [-> | ->];
      [left | right]; apply Z.eqb_refl. }
  exists (set_mDragActive true
            (set_mDragWidget (Some w)
               (set_mMouseState (Z.lor (mMouseState s) bit)
                  (set_mLastInteraction ticks
                     (set_mModifiers modifiers s))))).
  cbv zeta. split; [|repeat split].
  unfold mouseButtonCallbackEvent, touch. rewrite Hclock.
  unfold bind at 1. unfold modify at 1.
  unfold bind at 1. unfold modify at 1.
  unfold try_catch_abort.
  unfold bind at 1. unfold get at 1.
  change (outside_modal env
            (set_mLastInteraction ticks (set_mModifiers modifiers s)))
    with (outside_modal env s).
  rewrite Hgate, Hbit.
  unfold bind at 1. unfold modify at 1.
  unfold bind at 1. unfold get at 1.
  unfold findWidget in *. fields.
  rewrite Hrel, Hpress, Hb, andb_false_r. cbn [andb].
  unfold bind at 1. unfold ret at 1.
  unfold bind at 1. unfold bind at 1. unfold get at 1.
  fields. rewrite Hhit.
  assert (Heq : WidgetRef_opt_eqb (Some w) (Some (this s)) = false)
    by (simpl; now apply Nat.eqb_neq).
  rewrite Heq.
  unfold bind at 1. unfold modify at 1. unfold modify at 1.
  unfold bind at 1. unfold get at 1. fields.
  apply caught_call.
Qed.

(** X10.  Let the modal gate not apply (the entry [mFocusPath[size - 2]]
    is not a modal window that excludes the recorded mouse position),
    let the time callback be installed and return, and let the button be
    one of 0 to 31.  Then an action other than a press of the primary or
    secondary button that makes no synthetic delivery, because no drag
    is active, or the action is not the release code, or hit-testing
    gives the very pointer the drag widget holds, ends the drag: the
    drag flag and the drag widget are cleared, and the button's bit is
    set or cleared according to the action, before the button event is
    handed to the widget tree; the focus path is left as it is. *)
Theorem mouseButton_other_action_clears_drag :
  forall (env : Env) (button action modifiers : Z) (s : Screen)
         (t : Trace) (ticks : double) (bit : Z),
    getTime (constants env) = inr ticks ->
    outside_modal env s = false ->
    button_bit button = Some bit ->
    ((action =? mMousePress (constants env))%Z &&
     ((button =? mPrimaryMouseButton (constants env))%Z ||
      (button =? mSecondaryMouseButton (constants env))%Z)) = false ->
    (mDragActive s && (action =? mMouseRelease (constants env))%Z &&
     negb (WidgetRef_opt_eqb (findWidget (tree env) s (mMousePos s))
             (mDragWidget s))) = false ->
    exists s3,
      let ev := MouseButtonEvent (this s) (mMousePos s) button
                  (action =? mMousePress (constants env))%Z modifiers in
      mouseButtonCallbackEvent env button action modifiers s t
      = caught (deliver (tree env) ev s3) (t ++ [(ev, s3)])
      /\ mDragWidget s3 = None
      /\ mDragActive s3 = false
      /\ mMouseState s3
         = (if (action =? mMousePress (constants env))%Z
            then Z.lor (mMouseState s) bit
            else Z.land (mMouseState s) (Z.lnot bit))
      /\ mFocusPath s3 = mFocusPath s.
Proof.
  intros env button action modifiers s t ticks bit Hclock Hgate Hbit Hnot
         Hsyn.
  exists (set_mDragWidget None
            (set_mDragActive false
               (set_mMouseState
                  (if (action =? mMousePress (constants env))%Z
                   then Z.lor (mMouseState s) bit
                   else Z.land (mMouseState s) (Z.lnot bit))
                  (set_mLastInteraction ticks
                     (set_mModifiers modifiers s))))).
  cbv zeta. split; [|repeat split].
  unfold mouseButtonCallbackEvent, touch. rewrite Hclock.
  unfold bind at 1. unfold modify at 1.
  unfold bind at 1. unfold modify at 1.
  unfold try_catch_abort.
  unfold bind at 1. unfold get at 1.
  change (outside_modal env
            (set_mLastInteraction ticks (set_mModifiers modifiers s)))
    with (outside_modal env s).
  rewrite Hgate, Hbit.
  unfold bind at 1. unfold modify at 1.
  unfold bind at 1. unfold get at 1.
  unfold findWidget in *. fields.
  rewrite Hsyn, Hnot.
  unfold bind at 1. unfold ret at 1.
  unfold bind at 1. unfold bind at 1.
  unfold modify at 1. unfold modify at 1.
  unfold bind at 1. unfold get at 1. fields.
  apply caught_call.
Qed.

(** X11.  Let the modal gate not apply (the entry [mFocusPath[size - 2]]
    is not a modal window that excludes the recorded mouse position),
    let the time callback be installed and return, let the button be one
    of 0 to 31, and let the press code differ from the release code.
    Let a drag be active on a drag widget that is not null and has a
    parent, and let the release arrive while hit-testing finds something
    other than the drag widget.  Then the release is shown to the drag
    widget first: it gets a button event with [down = false] at the
    mouse position relative to its parent's absolute position; if its
    handler returns (whatever it answers), the drag flag and the drag
    widget are cleared and the button event goes to the widget tree as
    well; if it throws, the [try] block takes over and the tree gets
    nothing. *)
Theorem mouseButton_release_away_from_drag_widget :
  forall (env : Env) (button action modifiers : Z) (s : Screen)
         (t : Trace) (ticks : double) (bit : Z)
         (dw parent : WidgetRef),
    getTime (constants env) = inr ticks ->
    outside_modal env s = false ->
    button_bit button = Some bit ->
    action = mMouseRelease (constants env) ->
    mMousePress (constants env) <> mMouseRelease (constants env) ->
    mDragActive s = true ->
    mDragWidget s = Some dw ->
    mParent (heap s dw) = Some parent ->
    findWidget (tree env) s (mMousePos s) <> Some dw ->
    let s1 := set_mMouseState (Z.land (mMouseState s) (Z.lnot bit))
                (set_mLastInteraction ticks
                   (set_mModifiers modifiers s)) in
    let release :=
      MouseButtonEvent dw
        (Vector2i_sub (mMousePos s)
           (absolutePosition (tree env) (heap s) parent))
        button false modifiers in
    match deliver (tree env) release s1 with
    | Returns _ s2 =>
        let s3 := set_mDragWidget None (set_mDragActive false s2) in
        let ev := MouseButtonEvent (this s2) (mMousePos s2) button false
                    (mModifiers s2) in
        mouseButtonCallbackEvent env button action modifiers s t
        = caught (deliver (tree env) ev s3)
            (t ++ [(release, s1); (ev, s3)])
    | Throws e s2 =>
        mouseButtonCallbackEvent env button action modifiers s t
        = caught (Throws e s2) (t ++ [(release, s1)])
    end.
Proof.
  intros env button action modifiers s t ticks bit dw parent Hclock Hgate
         Hbit Hact Hne Hactive Hdrag Hparent Hhit s1 release.
  assert (Hrel : (action =? mMouseRelease (constants env))%Z = true)
    by (apply Z.eqb_eq; congruence).
  assert (Hpress : (action =? mMousePress (constants env))%Z = false)
    by (apply Z.eqb_neq; congruence).
  assert (Hneq : WidgetRef_opt_eqb
                   (findWidget (tree env) s (mMousePos s)) (Some dw) = false).
  { destruct (findWidget (tree env) s (mMousePos s)) as [x|]; [|reflexivity].
    simpl. apply Nat.eqb_neq. congruence. }
  assert (Hrun : forall o,
            match deliver (tree env) release s1 with
            | Returns _ s2 =>
                caught (deliver (tree env)
                          (MouseButtonEvent (this s2) (mMousePos s2) button
                             false (mModifiers s2))
                          (set_mDragWidget None (set_mDragActive false s2)))
                  ((t ++ [(release, s1)]) ++
                   [(MouseButtonEvent (this s2) (mMousePos s2) button
                       false (mModifiers s2),
                     set_mDragWidget None (set_mDragActive false s2))])
            | Throws e s2 => caught (Throws e s2) (t ++ [(release, s1)])
            end = o ->
            mouseButtonCallbackEvent env button action modifiers s t = o).
  { intros o <-.
    unfold mouseButtonCallbackEvent, touch. rewrite Hclock.
    unfold bind at 1. unfold modify at 1.
    unfold bind at 1. unfold modify at 1.
    unfold try_catch_abort.
    unfold bind at 1. unfold get at 1.
    change (outside_modal env
              (set_mLastInteraction ticks (set_mModifiers modifiers s)))
      with (outside_modal env s).
    rewrite Hgate, Hbit.
    unfold bind at 1. unfold modify at 1.
    unfold bind at 1. unfold get at 1.
    unfold findWidget in *. unfold drag_origin. fields.
    rewrite Hrel, Hpress, Hactive, Hdrag, Hneq. cbn [andb negb].
    fields. rewrite Hparent.
    fold s1. fold release.
    unfold bind at 1. unfold bind at 1. unfold call at 1.
    destruct (deliver (tree env) release s1) as [b s2 | [what|] s2];
      [|reflexivity|reflexivity].
    unfold ret at 1.
    unfold bind at 1. unfold bind at 1.
    unfold modify at 1. unfold modify at 1.
    unfold bind at 1. unfold get at 1. fields.
    apply caught_call. }
  destruct (deliver (tree env) release s1) as [b s2 | e s2]; cbv zeta;
    apply Hrun; [now rewrite <- app_assoc | reflexivity].
Qed.

(** *** Witnesses for the mouse-button properties *)

Lemma mouseButton_press_on_empty_area_witness :
  exists tl s3,
    mouseButtonCallbackEvent (test_env None true) 0 1 0
      (screen_focus false) []
    = caught (deliver (tree (test_env None true))
                (MouseButtonEvent 0 (500, 500)%Z 0 true 0) s3)
        ([] ++ tl ++ [(MouseButtonEvent 0 (500, 500)%Z 0 true 0, s3)])
    /\ mFocusPath s3 = [].
Proof.
  destruct (mouseButton_press_on_empty_area (test_env None true) 0 1 0
              (screen_focus false) [] d600 1
              eq_refl eq_refl eq_refl eq_refl
              ltac:(discriminate) (or_introl eq_refl) (or_introl eq_refl))
    as (tl & s3 & Hrun & Hpath & _).
  exists tl, s3. split; assumption.
Defined.

Lemma mouseButton_press_captures_widget_witness :
  exists s3,
    mouseButtonCallbackEvent (test_env (Some 2) true) 0 1 0
      (screen_focus false) []
    = caught (deliver (tree (test_env (Some 2) true))
                (MouseButtonEvent 0 (500, 500)%Z 0 true 0) s3)
        ([] ++ [(MouseButtonEvent 0 (500, 500)%Z 0 true 0, s3)])
    /\ mDragWidget s3 = Some 2.
Proof.
  destruct (mouseButton_press_captures_widget (test_env (Some 2) true) 0 1 0
              (screen_focus false) [] d600 1 2
              eq_refl eq_refl eq_refl eq_refl
              ltac:(discriminate) (or_introl eq_refl) eq_refl
              ltac:(discriminate))
    as (s3 & Hrun & Hdrag & _).
  exists s3. split; assumption.
Defined.

Lemma mouseButton_other_action_clears_drag_witness :
  exists s3,
    mouseButtonCallbackEvent (test_env (Some 2) true) 0 0 0 screen_drag []
    = caught (deliver (tree (test_env (Some 2) true))
                (MouseButtonEvent 0 (500, 500)%Z 0 false 0) s3)
        ([] ++ [(MouseButtonEvent 0 (500, 500)%Z 0 false 0, s3)])
    /\ mDragWidget s3 = None.
Proof.
  destruct (mouseButton_other_action_clears_drag (test_env (Some 2) true)
              0 0 0 screen_drag [] d600 1
              eq_refl eq_refl eq_refl eq_refl eq_refl)
    as (s3 & Hrun & Hdrag & _).
  exists s3. split; assumption.
Defined.

Lemma mouseButton_release_away_from_drag_widget_witness :
  mouseButtonCallbackEvent (test_env (Some 1) true) 0 0 0 screen_drag []
  = caught
      (deliver (tree (test_env (Some 1) true))
         (MouseButtonEvent 0 (500, 500)%Z 0 false 0)
         (set_mDragWidget None
            (set_mDragActive false
               (set_mMouseState 0
                  (set_mLastInteraction d600
                     (set_mModifiers 0 screen_drag))))))
      ([] ++
       [(MouseButtonEvent 2 (490, 490)%Z 0 false 0,
         set_mMouseState 0
           (set_mLastInteraction d600 (set_mModifiers 0 screen_drag)));
        (MouseButtonEvent 0 (500, 500)%Z 0 false 0,
         set_mDragWidget None
           (set_mDragActive false
              (set_mMouseState 0
                 (set_mLastInteraction d600
                    (set_mModifiers 0 screen_drag)))))]).
Proof.
  exact (mouseButton_release_away_from_drag_widget (test_env (Some 1) true)
           0 0 0 screen_drag [] d600 1 2 1
           eq_refl eq_refl eq_refl eq_refl ltac:(discriminate)
           eq_refl eq_refl eq_refl ltac:(discriminate)).
Defined.

(** *** The mouse-button bit mask *)

Lemma button_bit_testbit : forall button bit i,
  button_bit button = Some bit ->
  (0 <= i < 32)%Z ->
  Z.testbit bit i = (i =? button)%Z.
Proof.
  intros button bit i H Hi. unfold button_bit in H.
  destruct ((0 <=? button) && (button <? 32))%Z eqn:E; [|discriminate].
  injection H as <-. apply andb_true_iff in E as [E1 E2].
  apply Z.leb_le in E1. apply Z.ltb_lt in E2.
  rewrite Z.shiftl_1_l.
  destruct (Z.eq_dec button 31) as [-> | Hne].
  - change (wrap_int (2 ^ 31)) with (Z.lnot (Z.ones 31)).
    rewrite Z.lnot_spec by lia.
    destruct (Z.ltb_spec i 31) as [Hlt | Hge].
    + rewrite Z.ones_spec_low by lia.
      symmetry. apply Z.eqb_neq. lia.
    + rewrite Z.ones_spec_high by lia.
      symmetry. apply Z.eqb_eq. lia.
  - assert (Hw : wrap_int (2 ^ button) = (2 ^ button)%Z).
    { unfold wrap_int.
      assert (0 < 2 ^ button < 2 ^ 31)%Z.
      { split; [apply Z.pow_pos_nonneg; lia|].
        apply Z.pow_lt_mono_r; lia. }
      rewrite Z.mod_small; lia. }
    rewrite Hw, Z.pow2_bits_eqb by lia. apply Z.eqb_sym.
Qed.

(** X12.  [mMouseState |= 1 << button] sets bit [button] of the 32-bit state
    and [mMouseState &= ~(1 << button)] clears it; the other 31 bits are
    as before.  [1 << button] is defined for the buttons 0 to 31 only. *)
Theorem mouse_state_bit :
  forall (button bit state i : Z),
    button_bit button = Some bit ->
    (0 <= i < 32)%Z ->
    (0 <= button < 32)%Z
    /\ Z.testbit (Z.lor state bit) i
       = ((i =? button)%Z || Z.testbit state i)
    /\ Z.testbit (Z.land state (Z.lnot bit)) i
       = (negb (i =? button)%Z && Z.testbit state i).
Proof.
  intros button bit state i H Hi.
  pose proof (button_bit_testbit button bit i H Hi) as Hbit.
  split; [|split].
  - unfold button_bit in H.
    destruct ((0 <=? button) && (button <? 32))%Z eqn:E; [|discriminate].
    apply andb_true_iff in E as [E1 E2].
    apply Z.leb_le in E1. apply Z.ltb_lt in E2. lia.
  - rewrite Z.lor_spec, Hbit. apply orb_comm.
  - rewrite Z.land_spec, Z.lnot_spec, Hbit by lia. apply andb_comm.
Qed.

Lemma mouse_state_bit_witness :
  (0 <= 1 < 32)%Z
  /\ Z.testbit (Z.lor 4 2) 1 = ((1 =? 1)%Z || Z.testbit 4 1)
  /\ Z.testbit (Z.land 4 (Z.lnot 2)) 1
     = (negb (1 =? 1)%Z && Z.testbit 4 1).
Proof.
  apply (mouse_state_bit 1 2 4 1).
  - reflexivity.
  - lia.
Defined.

(** *** Scroll *)

(** X13.  [scrollCallbackEvent] asks for the time first: when [getTime]
    throws, because no time callback is installed or because the
    installed one throws, the exception leaves the callback with nothing
    recorded and nothing delivered.  Otherwise the time is recorded.
    Then, when the entry [mFocusPath[size - 2]] is a modal window that
    does not contain the recorded mouse position, the callback returns
    [false] with nothing delivered; in every other case it hands the
    widget tree one scroll event, at the recorded mouse position, with
    the two [double]s rounded to [float], and ends as the [try] block
    makes that handler end: with its answer, with an abort when it
    throws a [std::exception], with its exception otherwise. *)
Theorem scrollCallbackEvent_gate_and_forward :
  forall (env : Env) (x y : double) (s : Screen) (t : Trace),
    let gated :=
      exists w,
        1 < length (mFocusPath s) /\
        nth_error (mFocusPath s) (length (mFocusPath s) - 2) = Some w /\
        dynamic_cast_Window (heap s) w = Some true /\
        contains (tree env) (heap s) w (mMousePos s) = false in
    let ev := ScrollEvent (mMousePos s)
                (double_to_float x, double_to_float y) in
    match getTime (constants env) with
    | inl e => scrollCallbackEvent env x y s t = Propagate e s t
    | inr ticks =>
        let s0 := set_mLastInteraction ticks s in
        mLastInteraction s0 = ticks
        /\ (gated -> scrollCallbackEvent env x y s t = Return false s0 t)
        /\ (~ gated ->
            scrollCallbackEvent env x y s t
            = caught (deliver (tree env) ev s0) (t ++ [(ev, s0)]))
    end.
Proof.
  intros env x y s t gated ev.
  destruct (getTime (constants env)) as [e|ticks] eqn:Hclock.
  - unfold scrollCallbackEvent, touch. now rewrite Hclock.
  - intros s0. split; [reflexivity|].
    assert (Hstart : scrollCallbackEvent env x y s t
                     = if outside_modal env s then Return false s0 t
                       else caught (deliver (tree env) ev s0)
                              (t ++ [(ev, s0)])).
    { unfold scrollCallbackEvent, touch. rewrite Hclock.
      unfold bind at 1. unfold modify at 1. fold s0.
      unfold try_catch_abort. unfold bind at 1. unfold get at 1.
      change (outside_modal env s0) with (outside_modal env s).
      destruct (outside_modal env s); [reflexivity|].
      apply caught_call. }
    rewrite Hstart. unfold gated, outside_modal. split.
    + intros (w & Hlen & Hnth & Hwin & Hout).
      apply Nat.ltb_lt in Hlen. now rewrite Hlen, Hnth, Hwin, Hout.
    + intros Hnot.
      destruct (1 <? length (mFocusPath s)) eqn:Hlen; [|reflexivity].
      destruct (nth_error (mFocusPath s) (length (mFocusPath s) - 2))
        as [w|] eqn:Hnth; [|reflexivity].
      destruct (dynamic_cast_Window (heap s) w) as [[|]|] eqn:Hwin;
        try reflexivity.
      destruct (contains (tree env) (heap s) w (mMousePos s)) eqn:Hout;
        [reflexivity|].
      exfalso. apply Hnot. exists w. apply Nat.ltb_lt in Hlen. auto.
Qed.

(** Over the modal window [1] of [screen_focus true], which does not
    contain the mouse position, a scroll is dropped; without the modal
    flag it reaches the widget tree. *)
Lemma scrollCallbackEvent_gate_and_forward_witness :
  scrollCallbackEvent (test_env None true) d1 d1 (screen_focus true) []
  = Return false (set_mLastInteraction d600 (screen_focus true)) []
  /\ scrollCallbackEvent (test_env None true) d1 d1 (screen_focus false) []
     = Return true (set_mLastInteraction d600 (screen_focus false))
         [(ScrollEvent (500, 500)%Z (f1, f1),
           set_mLastInteraction d600 (screen_focus false))].
Proof.
  split.
  - apply (proj1 (proj2 (scrollCallbackEvent_gate_and_forward
                           (test_env None true) d1 d1 (screen_focus true)
                           []))).
    exists 1. repeat split. simpl. lia.
  - apply (proj2 (proj2 (scrollCallbackEvent_gate_and_forward
                           (test_env None true) d1 d1 (screen_focus false)
                           []))).
    intros (w & _ & Hnth & Hwin & _).
    injection Hnth as <-. discriminate Hwin.
Defined.

(** *** Exceptions and the time callback *)

Lemma bind_no_propagate : forall (A B : Type) (m : M A) (k : A -> M B)
    (e : exn) (s' : Screen) (t' : Trace),
  (forall s t, m s t <> Propagate e s' t') ->
  (forall a s t, k a s t <> Propagate e s' t') ->
  forall s t, bind m k s t <> Propagate e s' t'.
Proof.
  intros A B m k e s' t' Hm Hk s t. unfold bind.
  destruct (m s t) as [a s1 t1 | e1 s1 t1 | d s1 t1 | |] eqn:E;
    try discriminate.
  - apply Hk.
  - intros Heq. apply (Hm s t). rewrite E.
    injection Heq as -> -> ->. reflexivity.
Qed.

Lemma modify_no_propagate : forall f e s' t' s t,
  modify f s t <> Propagate e s' t'.
Proof. intros. discriminate. Qed.

Lemma device_to_logical_no_propagate : forall env x y e s' t' s t,
  device_to_logical env x y s t <> Propagate e s' t'.
Proof.
  intros env x y e s' t' s t. unfold device_to_logical.
  destruct (float_to_int x); [|discriminate].
  destruct (float_to_int y); [|discriminate].
  destruct (scaled env); [|discriminate].
  unfold bind, get.
  destruct (Vector2i_div _ _); discriminate.
Qed.

Lemma touch_no_propagate : forall env ticks e s' t' s t,
  getTime (constants env) = inr ticks ->
  touch env s t <> Propagate e s' t'.
Proof.
  intros env ticks e s' t' s t H. unfold touch. rewrite H.
  discriminate.
Qed.

(** X14.  When [getTime] returns, that is with a time callback installed
    that returns a time and does not throw, no exception derived from
    [std::exception] leaves the cursor, mouse-button, key, character,
    scroll or resize callback, whatever the widget tree's handlers do:
    these six deliver inside their [try] block. *)
Theorem callbacks_let_no_std_exception_out :
  forall (env : Env) (ticks : double) (what : string)
         (s' : Screen) (t' : Trace),
    getTime (constants env) = inr ticks ->
    (forall x y s t,
       cursorPosCallbackEvent env x y s t
       <> Propagate (std_exception what) s' t')
    /\ (forall button action modifiers s t,
          mouseButtonCallbackEvent env button action modifiers s t
          <> Propagate (std_exception what) s' t')
    /\ (forall key scancode action mods s t,
          keyCallbackEvent env key scancode action mods s t
          <> Propagate (std_exception what) s' t')
    /\ (forall codepoint s t,
          charCallbackEvent env codepoint s t
          <> Propagate (std_exception what) s' t')
    /\ (forall x y s t,
          scrollCallbackEvent env x y s t
          <> Propagate (std_exception what) s' t')
    /\ (forall w h pixelRatio s t,
          resizeCallbackEvent env w h pixelRatio s t
          <> Propagate (std_exception what) s' t').
Proof.
  intros env ticks what s' t' Hclock.
  assert (Htouch : forall s t,
            touch env s t <> Propagate (std_exception what) s' t')
    by (intros; now apply touch_no_propagate with ticks).
  repeat split.
  - intros x y. unfold cursorPosCallbackEvent.
    apply bind_no_propagate; [apply device_to_logical_no_propagate|].
    intros p0. apply bind_no_propagate; [exact Htouch|].
    intros _ s t. apply try_catch_abort_catches.
  - intros button action modifiers. unfold mouseButtonCallbackEvent.
    apply bind_no_propagate; [apply modify_no_propagate|].
    intros _. apply bind_no_propagate; [exact Htouch|].
    intros _ s t. apply try_catch_abort_catches.
  - intros key scancode action mods. unfold keyCallbackEvent.
    apply bind_no_propagate; [exact Htouch|].
    intros _ s t. apply try_catch_abort_catches.
  - intros codepoint. unfold charCallbackEvent.
    apply bind_no_propagate; [exact Htouch|].
    intros _ s t. apply try_catch_abort_catches.
  - intros x y. unfold scrollCallbackEvent.
    apply bind_no_propagate; [exact Htouch|].
    intros _ s t. apply try_catch_abort_catches.
  - intros w h pixelRatio. unfold resizeCallbackEvent.
    apply bind_no_propagate; [apply modify_no_propagate|].
    intros _. apply bind_no_propagate; [apply modify_no_propagate|].
    intros _. apply bind_no_propagate.
    + intros s t. destruct (scaled env); [|discriminate].
      unfold bind, get. destruct (Vector2i_div _ _); discriminate.
    + intros _ s t. unfold bind at 1. unfold get at 1.
      destruct (Vector2i_eqb (mSize s) (0, 0)%Z); [discriminate|].
      apply bind_no_propagate; [exact Htouch|].
      intros _ s1 t1. apply try_catch_abort_catches.
Qed.

(** The handlers of [throwing_env] throw [std::runtime_error("boom")];
    what would leave the key callback without its [try] block does not
    leave it. *)
Lemma callbacks_let_no_std_exception_out_witness :
  keyCallbackEvent throwing_env 65 0 1 0 (screen_focus false) []
  <> Propagate (std_exception "boom")
       (set_mLastInteraction d600 (screen_focus false))
       [(KeyboardEvent 1 65 0 1 0,
         set_mLastInteraction d600 (screen_focus false))].
Proof.
  apply (callbacks_let_no_std_exception_out throwing_env d600
           "boom" (set_mLastInteraction d600 (screen_focus false))
           [(KeyboardEvent 1 65 0 1 0,
             set_mLastInteraction d600 (screen_focus false))] eq_refl).
Defined.

(** X15.  Without a time callback the time is asked for before the [try]
    block is entered: the key, character and scroll callbacks, the
    mouse-button callback (after it has recorded the modifiers) and the
    cursor callback (once its coordinates are converted) end with the
    exception [getTimeCallback not initialized], which is not turned into
    an abort, and deliver nothing. *)
Theorem callbacks_without_time_callback :
  forall (env : Env) (s : Screen) (t : Trace),
    getTimeCallback (constants env) = None ->
    let e := std_exception "getTimeCallback not initialized" in
    (forall key scancode action mods,
       keyCallbackEvent env key scancode action mods s t = Propagate e s t)
    /\ (forall codepoint,
          charCallbackEvent env codepoint s t = Propagate e s t)
    /\ (forall x y, scrollCallbackEvent env x y s t = Propagate e s t)
    /\ (forall button action modifiers,
          mouseButtonCallbackEvent env button action modifiers s t
          = Propagate e (set_mModifiers modifiers s) t)
    /\ (forall x y p0,
          device_to_logical env x y s t = Return p0 s t ->
          cursorPosCallbackEvent env x y s t = Propagate e s t).
Proof.
  intros env s t Hclock e.
  repeat split; intros.
  - unfold keyCallbackEvent, touch, getTime. now rewrite Hclock.
  - unfold charCallbackEvent, touch, getTime. now rewrite Hclock.
  - unfold scrollCallbackEvent, touch, getTime. now rewrite Hclock.
  - unfold mouseButtonCallbackEvent, touch, getTime. now rewrite Hclock.
  - unfold cursorPosCallbackEvent. unfold bind at 1. rewrite H.
    unfold touch, getTime. now rewrite Hclock.
Qed.

Lemma callbacks_without_time_callback_witness :
  keyCallbackEvent
    (mkEnv (mkConstants 0 1 1 0 None) true (test_tree None true))
    65 0 1 0 (screen_focus false) []
  = Propagate (std_exception "getTimeCallback not initialized")
      (screen_focus false) [].
Proof.
  apply (callbacks_without_time_callback
           (mkEnv (mkConstants 0 1 1 0 None) true (test_tree None true))
           (screen_focus false) [] eq_refl).
Defined.

(** X20.  An installed time callback that throws is not caught either,
    even when what it throws is a [std::exception]: [getTime] is called
    before the [try] block is entered, so the key, character and scroll
    callbacks, the mouse-button callback (after it has recorded the
    modifiers), the cursor callback (once its coordinates are converted)
    and the resize callback (once it has stored a size other than
    (0, 0)) end with the time callback's exception and deliver
    nothing. *)
Theorem callbacks_with_throwing_time_callback :
  forall (env : Env) (clock : unit -> exn + double) (e : exn)
         (s : Screen) (t : Trace),
    getTimeCallback (constants env) = Some clock ->
    clock tt = inl e ->
    (forall key scancode action mods,
       keyCallbackEvent env key scancode action mods s t = Propagate e s t)
    /\ (forall codepoint,
          charCallbackEvent env codepoint s t = Propagate e s t)
    /\ (forall x y, scrollCallbackEvent env x y s t = Propagate e s t)
    /\ (forall button action modifiers,
          mouseButtonCallbackEvent env button action modifiers s t
          = Propagate e (set_mModifiers modifiers s) t)
    /\ (forall x y p0,
          device_to_logical env x y s t = Return p0 s t ->
          cursorPosCallbackEvent env x y s t = Propagate e s t)
    /\ (forall w h pixelRatio size,
          (if scaled env then Vector2i_div (w, h) pixelRatio
           else Some (w, h)) = Some size ->
          Vector2i_eqb size (0, 0)%Z = false ->
          resizeCallbackEvent env w h pixelRatio s t
          = Propagate e (set_mPixelRatio pixelRatio (set_mSize size s)) t).
Proof.
  intros env clock e s t Hclock He.
  assert (Htime : getTime (constants env) = inl e).
  { unfold getTime. now rewrite Hclock. }
  split; [|split; [|split; [|split; [|split]]]].
  - intros. unfold keyCallbackEvent, touch. now rewrite Htime.
  - intros. unfold charCallbackEvent, touch. now rewrite Htime.
  - intros. unfold scrollCallbackEvent, touch. now rewrite Htime.
  - intros. unfold mouseButtonCallbackEvent, touch. now rewrite Htime.
  - intros x y p0 H. unfold cursorPosCallbackEvent. unfold bind at 1.
    rewrite H. unfold touch. now rewrite Htime.
  - intros w h pixelRatio size Hsize Hnz.
    unfold resizeCallbackEvent.
    unfold bind at 1. unfold modify at 1.
    unfold bind at 1. unfold modify at 1.
    unfold bind at 1.
    destruct (scaled env).
    + unfold bind at 1. unfold get at 1. fields. rewrite Hsize.
      unfold modify at 1. unfold bind at 1. unfold get at 1. fields.
      rewrite Hnz. unfold touch. now rewrite Htime.
    + injection Hsize as <-.
      unfold ret at 1. unfold bind at 1. unfold get at 1. fields.
      rewrite Hnz. unfold touch. now rewrite Htime.
Qed.

Lemma callbacks_with_throwing_time_callback_witness :
  keyCallbackEvent
    (mkEnv (mkConstants 0 1 1 0
              (Some (fun _ => inl (std_exception "no clock"))))
       true (test_tree None true))
    65 0 1 0 (screen_focus false) []
  = Propagate (std_exception "no clock") (screen_focus false) [].
Proof.
  apply (callbacks_with_throwing_time_callback
           (mkEnv (mkConstants 0 1 1 0
                     (Some (fun _ => inl (std_exception "no clock"))))
              true (test_tree None true))
           (fun _ => inl (std_exception "no clock"))
           (std_exception "no clock") (screen_focus false) []
           eq_refl eq_refl).
Defined.

(** *** Cursor moves without a drag *)

Lemma Cursor_eqb_eq : forall a b, Cursor_eqb a b = true -> a = b.
Proof. intros [] []; simpl; intros H; try discriminate; reflexivity. Qed.

(** X16.  Let a cursor move arrive while no drag is active, with
    coordinate conversions that are defined and a time callback that
    returns.  The callback hit-tests the new position [p]; the motion
    handler of the widget tree is then entered with a state that differs
    from the one at the call in two fields only: the interaction time,
    and the cursor shape, which is that of the widget found at [p] and
    the old one when nothing is found.  The motion event carries the
    delta [p] minus the previous mouse position.  When the handler
    returns, the recorded mouse position becomes [p] and nothing else of
    the state it left is changed; when it throws, the position is not
    written, and a [std::exception] aborts the process. *)
Theorem cursorPos_hover :
  forall (env : Env) (x y : double) (s : Screen) (t : Trace)
         (p0 : Vector2i) (ticks : double),
    mDragActive s = false ->
    device_to_logical env x y s t = Return p0 s t ->
    getTime (constants env) = inr ticks ->
    let p := Vector2i_sub p0 (1, 2)%Z in
    let motion := MouseMotionEvent p (Vector2i_sub p (mMousePos s))
                    (mMouseState s) (mModifiers s) in
    let shape := match findWidget (tree env) s p with
                 | Some widget => wCursor (heap s widget)
                 | None => mCursor s
                 end in
    let s1 :=
      mkScreen (this s) (heap s) (mChildren s) (mFocusPath s) (mSize s)
        (mPixelRatio s) (mMousePos s) (mMouseState s) (mModifiers s)
        (mDragActive s) (mDragWidget s) ticks shape in
    let moved := fun s2 : Screen =>
      mkScreen (this s2) (heap s2) (mChildren s2) (mFocusPath s2)
        (mSize s2) (mPixelRatio s2) p (mMouseState s2) (mModifiers s2)
        (mDragActive s2) (mDragWidget s2) (mLastInteraction s2)
        (mCursor s2) in
    cursorPosCallbackEvent env x y s t
    = match deliver (tree env) motion s1 with
      | Returns handled s2 =>
          Return handled (moved s2) (t ++ [(motion, s1)])
      | Throws e s2 => caught (Throws e s2) (t ++ [(motion, s1)])
      end.
Proof.
  intros env x y s t p0 ticks Hidle Hconv Hclock p motion shape s1 moved.
  change (cursorPosCallbackEvent env x y s t
          = match deliver (tree env) motion
                    (set_mCursor shape (set_mLastInteraction ticks s)) with
            | Returns handled s2 =>
                Return handled (set_mMousePos p s2)
                  (t ++ [(motion,
                          set_mCursor shape (set_mLastInteraction ticks s))])
            | Throws e s2 =>
                caught (Throws e s2)
                  (t ++ [(motion,
                          set_mCursor shape (set_mLastInteraction ticks s))])
            end).
  unfold shape. clear shape s1 moved.
  set (s0 := set_mLastInteraction ticks s).
  assert (Hs0 : forall c, c = mCursor s -> set_mCursor c s0 = s0).
  { intros c ->. unfold s0. now destruct s. }
  unfold cursorPosCallbackEvent.
  unfold bind at 1. rewrite Hconv.
  unfold touch. rewrite Hclock.
  unfold bind at 1. unfold modify at 1.
  fold p. fold s0.
  unfold try_catch_abort. unfold bind at 1. unfold get at 1.
  unfold bind at 1.
  change (mDragActive s0) with (mDragActive s). rewrite Hidle.
  cbn [negb].
  change (findWidget (tree env) s0 p) with (findWidget (tree env) s p).
  assert (Hmotion : forall s1,
            mMousePos s1 = mMousePos s -> mMouseState s1 = mMouseState s ->
            mModifiers s1 = mModifiers s ->
            match
              (handled' <-
                 (s2 <- get ;;
                  call env (MouseMotionEvent p (Vector2i_sub p (mMousePos s2))
                              (mMouseState s2) (mModifiers s2))) ;;
               modify (set_mMousePos p) ;; ret handled') s1 t
            with
            | Propagate (std_exception what) s' t' =>
                Abort ("Caught exception in event handler: " ++ what) s' t'
            | o => o
            end
            = match deliver (tree env) motion s1 with
              | Returns handled s2 =>
                  Return handled (set_mMousePos p s2) (t ++ [(motion, s1)])
              | Throws e s2 => caught (Throws e s2) (t ++ [(motion, s1)])
              end).
  { intros s1 H1 H2 H3. unfold bind, get, call, modify, ret, caught.
    rewrite H1, H2, H3. fold motion.
    destruct (deliver (tree env) motion s1) as [b s2 | [what|] s2];
      reflexivity. }
  destruct (findWidget (tree env) s p) as [widget|].
  - unfold bind at 1. unfold bind at 1.
    change (heap s0) with (heap s). change (mCursor s0) with (mCursor s).
    destruct (Cursor_eqb (wCursor (heap s widget)) (mCursor s)) eqn:Ec.
    + apply Cursor_eqb_eq in Ec. rewrite (Hs0 _ Ec).
      unfold ret at 1. unfold ret at 1. cbv iota beta.
      now apply Hmotion.
    + unfold modify at 1. unfold ret at 1. cbv iota beta.
      now apply Hmotion.
  - rewrite (Hs0 _ eq_refl). unfold ret at 1. cbv iota beta.
    now apply Hmotion.
Qed.

(** The cursor shape is [IBeam] when the move arrives over the button
    [2], whose shape is [Arrow]. *)
Lemma cursorPos_hover_witness :
  cursorPosCallbackEvent (test_env (Some 2) false) d800 d600
    (set_mCursor IBeam (screen_focus false)) []
  = Return false
      (mkScreen 0 (heap_focus false) [1] [2; 1; 0] (800, 600)%Z f1
         (799, 598)%Z 0 0 false None d600 Arrow)
      [(MouseMotionEvent (799, 598)%Z (299, 98)%Z 0 0,
        mkScreen 0 (heap_focus false) [1] [2; 1; 0] (800, 600)%Z f1
          (500, 500)%Z 0 0 false None d600 Arrow)].
Proof.
  exact (cursorPos_hover (test_env (Some 2) false) d800 d600
           (set_mCursor IBeam (screen_focus false))
           [] (800, 600)%Z d600 eq_refl eq_refl eq_refl).
Defined.

(** *** Resize *)

(** X17.  [resizeCallbackEvent] stores the size and the pixel ratio
    first; on the builds that scale, the size stored is the framebuffer
    size divided by the pixel ratio, which is undefined when that
    division is.  It then tests the size it has stored: whenever that
    is (0, 0), for a 1 x 1 framebuffer at pixel ratio 2 as for a 0 x 0
    one, the event is dropped with the size and pixel ratio stored and
    the time not asked for.  For any other size the time is asked for:
    when [getTime] throws, its exception leaves the callback with the
    size stored and nothing delivered; otherwise the time is recorded
    and the widget tree gets one resize event with the stored size, and
    the callback ends as the [try] block makes that handler end. *)
Theorem resizeCallbackEvent_stores_and_forwards :
  forall (env : Env) (w h : Z) (pixelRatio : float) (s : Screen)
         (t : Trace),
    match (if scaled env then Vector2i_div (w, h) pixelRatio
           else Some (w, h)) with
    | None => resizeCallbackEvent env w h pixelRatio s t = Undefined
    | Some size =>
        let s1 := set_mPixelRatio pixelRatio (set_mSize size s) in
        mSize s1 = size /\ mPixelRatio s1 = pixelRatio /\
        if Vector2i_eqb size (0, 0)%Z then
          resizeCallbackEvent env w h pixelRatio s t = Return false s1 t
        else
          match getTime (constants env) with
          | inl e =>
              resizeCallbackEvent env w h pixelRatio s t = Propagate e s1 t
          | inr ticks =>
              let s2 := set_mLastInteraction ticks s1 in
              resizeCallbackEvent env w h pixelRatio s t
              = caught (deliver (tree env) (ResizeEvent size) s2)
                  (t ++ [(ResizeEvent size, s2)])
          end
    end.
Proof.
  intros env w h pixelRatio s t.
  assert (Hrest : forall size,
            (s0 <- get ;;
             if Vector2i_eqb (mSize s0) (0, 0)%Z then ret false
             else
               touch env ;;
               try_catch_abort (
                 s1 <- get ;;
                 call env (ResizeEvent (mSize s1))))
              (set_mPixelRatio pixelRatio (set_mSize size s)) t
            = if Vector2i_eqb size (0, 0)%Z then
                Return false (set_mPixelRatio pixelRatio (set_mSize size s)) t
              else
                match getTime (constants env) with
                | inl e =>
                    Propagate e
                      (set_mPixelRatio pixelRatio (set_mSize size s)) t
                | inr ticks =>
                    caught
                      (deliver (tree env) (ResizeEvent size)
                         (set_mLastInteraction ticks
                            (set_mPixelRatio pixelRatio (set_mSize size s))))
                      (t ++ [(ResizeEvent size,
                              set_mLastInteraction ticks
                                (set_mPixelRatio pixelRatio
                                   (set_mSize size s)))])
                end).
  { intros size. unfold bind at 1. unfold get at 1. fields.
    destruct (Vector2i_eqb size (0, 0)%Z); [reflexivity|].
    unfold touch.
    destruct (getTime (constants env)) as [e|ticks]; [reflexivity|].
    unfold bind at 1. unfold modify at 1.
    unfold try_catch_abort. unfold bind at 1. unfold get at 1.
    apply caught_call. }
  destruct (scaled env) eqn:Esc.
  - destruct (Vector2i_div (w, h) pixelRatio) as [size|] eqn:Ediv.
    + cbv zeta. split; [reflexivity|]. split; [reflexivity|].
      assert (Hrun : resizeCallbackEvent env w h pixelRatio s t
                     = (s0 <- get ;;
                        if Vector2i_eqb (mSize s0) (0, 0)%Z then ret false
                        else
                          touch env ;;
                          try_catch_abort (
                            s1 <- get ;;
                            call env (ResizeEvent (mSize s1))))
                         (set_mPixelRatio pixelRatio (set_mSize size s)) t).
      { unfold resizeCallbackEvent. rewrite Esc.
        unfold bind at 1. unfold modify at 1.
        unfold bind at 1. unfold modify at 1.
        unfold bind at 1.
        unfold bind at 1. unfold get at 1. fields. rewrite Ediv.
        reflexivity. }
      rewrite Hrun, Hrest.
      destruct (Vector2i_eqb size (0, 0)%Z); [reflexivity|].
      destruct (getTime (constants env)); reflexivity.
    + unfold resizeCallbackEvent. rewrite Esc.
      unfold bind at 1. unfold modify at 1.
      unfold bind at 1. unfold modify at 1.
      unfold bind at 1.
      unfold bind at 1. unfold get at 1. fields. rewrite Ediv.
      reflexivity.
  - cbv zeta. split; [reflexivity|]. split; [reflexivity|].
    assert (Hrun : resizeCallbackEvent env w h pixelRatio s t
                   = (s0 <- get ;;
                      if Vector2i_eqb (mSize s0) (0, 0)%Z then ret false
                      else
                        touch env ;;
                        try_catch_abort (
                          s1 <- get ;;
                          call env (ResizeEvent (mSize s1))))
                       (set_mPixelRatio pixelRatio (set_mSize (w, h) s)) t).
    { unfold resizeCallbackEvent. rewrite Esc. reflexivity. }
    rewrite Hrun, Hrest.
    destruct (Vector2i_eqb (w, h) (0, 0)%Z); [reflexivity|].
    destruct (getTime (constants env)); reflexivity.
Qed.

(** A 1 x 1 framebuffer at pixel ratio 2 is dropped; a 1600 x 1200 one
    is stored as 800 x 600 and forwarded. *)
Lemma resizeCallbackEvent_stores_and_forwards_witness :
  resizeCallbackEvent (test_env None true) 1 1 f2 (screen_focus false) []
  = Return false
      (set_mPixelRatio f2 (set_mSize (0, 0)%Z (screen_focus false))) []
  /\ resizeCallbackEvent (test_env None true) 1600 1200 f2
       (screen_focus false) []
     = Return true
         (set_mLastInteraction d600
            (set_mPixelRatio f2 (set_mSize (800, 600)%Z (screen_focus false))))
         [(ResizeEvent (800, 600)%Z,
           set_mLastInteraction d600
             (set_mPixelRatio f2
                (set_mSize (800, 600)%Z (screen_focus false))))].
Proof.
  split.
  - exact (proj2 (proj2 (resizeCallbackEvent_stores_and_forwards
                           (test_env None true) 1 1 f2 (screen_focus false)
                           []))).
  - exact (proj2 (proj2 (resizeCallbackEvent_stores_and_forwards
                           (test_env None true) 1600 1200 f2
                           (screen_focus false) []))).
Defined.

End CallbackExtras.

(** ** [Screen::centerWindow] *)
Section CenterWindowExtras.

Import ScreenImpl ScreenMore.
Local Open Scope screen_scope.
Local Open Scope Z_scope.






End CenterWindowExtras.

(** ** [Screen::updateFocus] and the stacking order *)
Section FocusStackingExtras.

Import Stacking ScreenImpl.
Local Open Scope screen_scope.

Lemma is_popup_of_same_shape : forall h h' w x,
  same_shape h h' -> is_popup_of h' w x = is_popup_of h w x.
Proof.
  intros h h' w x H. unfold is_popup_of, dynamic_cast_Popup.
  destruct (H x) as [_ ->]. reflexivity.
Qed.

Lemma scan_popup_same_shape : forall h h' w b c i,
  same_shape h h' -> scan_popup h' w b c i = scan_popup h w b c i.
Proof.
  intros h h' w b c. induction c as [|x c IH]; intros i H; [reflexivity|].
  simpl. rewrite (is_popup_of_same_shape h h' w x H), (IH (S i) H).
  reflexivity.
Qed.

Lemma rescan_same_shape : forall h h' rec rec',
  same_shape h h' ->
  (forall w c, rec' w c = rec w c) ->
  forall n w c, rescan h' rec' n w c = rescan h rec n w c.
Proof.
  intros h h' rec rec' H Hrec. induction n as [|n IH]; intros w c;
    [reflexivity|].
  simpl. rewrite (scan_popup_same_shape h h' w _ c 0 H).
  destruct (scan_popup h w (find_baseIndex w c 0 0) c 0) as [pw|];
    [|reflexivity].
  rewrite Hrec. destruct (rec pw c) as [c1|]; [apply IH | reflexivity].
Qed.

(** The stacking order does not read the focus flags. *)
Lemma moveWindowToFront_same_shape : forall h h',
  same_shape h h' ->
  forall f w c, moveWindowToFront h' f w c = moveWindowToFront h f w c.
Proof.
  intros h h' H. induction f as [|f IH]; intros w c; [reflexivity|].
  simpl. apply rescan_same_shape; assumption.
Qed.

Lemma last_window_none : forall h l window,
  (forall x, In x l -> dynamic_cast_Window h x = None) ->
  last_window h l window = window.
Proof.
  intros h l. induction l as [|a l IH]; intros window H; [reflexivity|].
  simpl. rewrite (H a (or_introl eq_refl)).
  apply IH. intros x Hx. apply H. now right.
Qed.

Lemma last_window_split : forall h before win after window,
  dynamic_cast_Window h win <> None ->
  (forall x, In x after -> dynamic_cast_Window h x = None) ->
  last_window h (before ++ win :: after) window = Some win.
Proof.
  intros h before win after. induction before as [|a l IH];
    intros window Hwin Hafter.
  - simpl. destruct (dynamic_cast_Window h win); [|congruence].
    now apply last_window_none.
  - simpl. now apply IH.
Qed.

(** X19.  Let [W] have a finite ancestor chain and popup ownership be
    acyclic.  Of the [Window]s on the chain, [updateFocus(W)] brings to
    the front the one closest to the screen root, not the one closest
    to [W]; the child sequence it leaves is the one [moveWindowToFront]
    computes from the sequence before the call, the changes of the
    focus flags having no part in it.  With no [Window] on the chain
    the child sequence is left as it was. *)
Theorem updateFocus_raises_outermost_window :
  forall (s : Screen) (t : Trace) (W : WidgetRef) (chain : list WidgetRef)
         (rank : WidgetRef -> nat),
    ancestor_chain (heap s) W chain ->
    (forall p o, In p (chain ++ mChildren s) ->
                 popupOwner (heap s) p = Some o -> rank p < rank o) ->
    exists fuel s' t',
      (forall f, fuel <= f -> updateFocus f (Some W) s t = Return tt s' t')
      /\ ((forall x, In x chain -> dynamic_cast_Window (heap s) x = None) ->
          mChildren s' = mChildren s)
      /\ (forall before win after,
            chain = before ++ win :: after ->
            dynamic_cast_Window (heap s) win <> None ->
            (forall x, In x after ->
                       dynamic_cast_Window (heap s) x = None) ->
            moveWindowToFront (heap s) fuel win (mChildren s)
            = Some (mChildren s')).
Proof.
  intros s t W chain rank Hchain Hrank.
  set (hA := unfocus (heap s) (mFocusPath s)).
  set (sA := set_heap hA s).
  set (sC := set_mFocusPath chain (set_mFocusPath [] sA)).
  set (hD := focus_all hA (rev chain)).
  set (sD := set_heap hD sC).
  assert (HshapeA : same_shape (heap s) hA) by apply unfocus_shape.
  assert (HshapeD : same_shape (heap s) hD).
  { eapply same_shape_trans; [exact HshapeA | apply focus_all_shape]. }
  destruct (lose_focus_run (mFocusPath s) s t) as (tl & Hlose & _).
  destruct (gain_focus_run (rev chain) sC (t ++ tl)) as (tg & Hgain & _).
  pose proof (same_shape_chain _ _ _ _ HshapeA Hchain) as HchainA.
  assert (Hprefix : forall f (k : option WidgetRef -> M unit),
            length chain <= f ->
            (s0 <- get ;;
             lose_focus (mFocusPath s0) ;;
             modify (set_mFocusPath []) ;;
             window <- collect_path f (Some W) None ;;
             s1 <- get ;;
             gain_focus (rev (mFocusPath s1)) ;;
             k window) s t
            = k (last_window (heap s) chain None) sD ((t ++ tl) ++ tg)).
  { intros f k Hf.
    unfold bind at 1. unfold get at 1.
    unfold bind at 1. rewrite Hlose.
    unfold bind at 1. unfold modify at 1.
    unfold bind at 1.
    rewrite (collect_path_run hA W chain HchainA) by (reflexivity || exact Hf).
    unfold bind at 1. unfold get at 1.
    unfold bind at 1.
    change (mFocusPath (set_mFocusPath
              (mFocusPath (set_mFocusPath [] (set_heap
                 (unfocus (heap s) (mFocusPath s)) s)) ++ chain)
              (set_mFocusPath [] (set_heap
                 (unfocus (heap s) (mFocusPath s)) s))))
      with chain.
    change (set_mFocusPath
              (mFocusPath (set_mFocusPath [] (set_heap
                 (unfocus (heap s) (mFocusPath s)) s)) ++ chain)
              (set_mFocusPath [] (set_heap
                 (unfocus (heap s) (mFocusPath s)) s)))
      with sC.
    rewrite Hgain.
    rewrite (same_shape_last_window (heap s) hA chain None HshapeA).
    reflexivity. }
  destruct (last_window (heap s) chain None) as [win|] eqn:Ewin.
  - assert (Hwin : In win chain).
    { apply last_window_In in Ewin as [H | H]; [assumption | discriminate]. }
    set (fuel1 := S (rank win
                     + length (erase win (mChildren s) ++ [win]))).
    destruct (moveWindowToFront_total (heap s) rank (chain ++ mChildren s)
                Hrank fuel1 win (mChildren s)) as (c' & Hc' & _).
    { intros x [<- | Hx]; apply in_or_app; [now left | now right]. }
    { unfold fuel1. lia. }
    exists (Nat.max (length chain) fuel1), (set_mChildren c' sD),
      ((t ++ tl) ++ tg).
    split; [|split].
    + intros f Hf. unfold updateFocus.
      rewrite Hprefix by lia.
      unfold bind, get.
      change (heap sD) with hD.
      rewrite (moveWindowToFront_same_shape (heap s) hD HshapeD).
      change (mChildren sD) with (mChildren s).
      rewrite (moveWindowToFront_mono (heap s) fuel1 f win (mChildren s) c')
        by (assumption || lia).
      reflexivity.
    + intros Hnone.
      rewrite (last_window_none (heap s) chain None Hnone) in Ewin.
      discriminate.
    + intros before win' after Heq Hw Hafter.
      rewrite Heq, (last_window_split (heap s) before win' after None
                      Hw Hafter) in Ewin.
      injection Ewin as ->.
      apply (moveWindowToFront_mono (heap s) fuel1); [lia | exact Hc'].
  - exists (length chain), sD, ((t ++ tl) ++ tg).
    split; [|split].
    + intros f Hf. unfold updateFocus.
      rewrite Hprefix by lia. reflexivity.
    + reflexivity.
    + intros before win' after Heq Hw Hafter.
      rewrite Heq, (last_window_split (heap s) before win' after None
                      Hw Hafter) in Ewin.
      discriminate.
Qed.

(** Focusing the button of [screen_nested] raises [1], not [2]. *)
Lemma updateFocus_raises_outermost_window_witness :
  exists fuel s' t',
    (forall f, fuel <= f ->
       updateFocus f (Some 3) screen_nested [] = Return tt s' t')
    /\ moveWindowToFront (heap screen_nested) fuel 1 (mChildren screen_nested)
       = Some (mChildren s').
Proof.
  destruct (updateFocus_raises_outermost_window screen_nested [] 3 [3; 2; 1; 0]
              (fun _ => 0)) as (fuel & s' & t' & Hrun & _ & Hwin).
  - apply chain_step with 2; [reflexivity|].
    apply chain_step with 1; [reflexivity|].
    apply chain_step with 0; [reflexivity|].
    now apply chain_root.
  - intros p o Hin. simpl in Hin.
    destruct Hin as [<- | [<- | [<- | [<- | [<- | [<- | []]]]]]];
      vm_compute; discriminate.
  - exists fuel, s', t'. split; [exact Hrun|].
    apply (Hwin [3; 2] 1 [0]); [reflexivity | vm_compute; discriminate |].
    intros x [<- | []]. reflexivity.
Defined.

End FocusStackingExtras.
